(** * Non-destructive adjustment pipeline of the photo editor

    A shallow embedding of the parts of the repository that store and
    render edit parameters:

    - the Mongoose [Project] model (the adjustment and crop schemas,
      [addHistory], [applyAdjustments], [applyCrop], [resetEdits]);
    - the request handlers [PUT /:id/adjustments], [PUT /:id/crop] and
      [POST /:id/reset] that validate input and call these methods;
    - the client preview, [buildCSSFilters] of the editor page;
    - the client [ImageCache].

    Where the code only compares and selects numbers (the adjustment
    handler, the preview, the storage quota), a JavaScript number is
    modelled by the rational [Q] it is: [Math.min], [Math.max] and the
    comparisons are exact on finite doubles, and [NaN] never reaches
    these handlers (JSON has no literal for it).  The crop handler
    prints numbers, reads them from text and adds them; there a number
    is an IEEE 754 double, [F64.t], with its rounding, and a member of
    the request is the number, string, boolean or [null] that was sent.
    Dates are milliseconds since the epoch, in [Z]. *)

From Stdlib Require Import QArith Qround Qabs Qpower Lqa Ascii.
From Stdlib Require Qcanon.
From stdpp Require Import gmap strings list fin_maps sorting.

Open Scope Q_scope.

(** ** JavaScript numbers *)

Module JS.

(** [Math.max(a, b)] and [Math.min(a, b)] return one of their arguments. *)
Definition max (a b : Q) : Q := if Qle_bool a b then b else a.
Definition min (a b : Q) : Q := if Qle_bool a b then a else b.

(** [a < b] and [a > b] on numbers. *)
Definition lt (a b : Q) : bool := negb (Qle_bool b a).
Definition gt (a b : Q) : bool := lt b a.

(** [a !== b] on numbers. *)
Definition neq (a b : Q) : bool := negb (Qeq_bool a b).

(** [arr.slice(-k)]: the last [k] elements, the whole array when it is
    shorter. *)
Definition slice_last {A} (k : nat) (arr : list A) : list A :=
  drop (length arr - k) arr.

(** Values of a parsed JSON request body. *)
#[warnings="-register-all"]
Inductive Value : Type :=
| Num (q : Q)
| Str (s : string)
| Bool (b : bool)
| Null
| Arr (items : list Value)
| Obj (props : gmap string Value).

(** [obj.key] on a value; [None] is [undefined]. *)
Definition prop (key : string) (v : Value) : option Value :=
  match v with
  | Obj props => props !! key
  | _ => None
  end.

End JS.

(** The clamp written out in the adjustment handler:
    [Math.min(Math.max(value, min), max)]. *)
Definition clamp (value lo hi : Q) : Q := JS.min (JS.max value lo) hi.

(** ** Doubles

    The crop handler prints numbers, reads numbers from text and adds
    them; there a number is the IEEE 754 double it is: a rational of 53
    significant bits, an infinity or [NaN].  The sign of zero is not
    kept: no operation used below tells [-0] from [0]. *)

Module F64.

Inductive t : Type :=
| Finite (q : Q)
| PosInf
| NegInf
| NaN.

Definition of_Z (z : Z) : t := Finite (inject_Z z).

(** The integer part of the binary logarithm of a positive rational. *)
Definition ilog2 (a : Q) : Z :=
  let k := (Z.log2 (Qnum a) - Z.log2 (Zpos (Qden a)))%Z in
  if Qle_bool (2 ^ k) a then k else (k - 1)%Z.

(** The nearest integer, the even one of two that are equally near. *)
Definition round_half_even (a : Q) : Z :=
  let f := Qfloor a in
  match Qcompare (a - inject_Z f) (1 # 2) with
  | Lt => f
  | Gt => (f + 1)%Z
  | Eq => if Z.even f then f else (f + 1)%Z
  end.

(** The double nearest to a rational (round to nearest, ties to even):
    the rational is scaled by the power of two [2 ^ e] of its last
    significant bit, [e] no less than that of the subnormals, and
    rounded to an integer; a result of [2 ^ 1024] or more overflows. *)
Definition round (q : Q) : t :=
  if Qeq_bool q 0 then Finite 0
  else
    let a := Qabs q in
    let e := Z.max (ilog2 a - 52) (-1074) in
    let v := inject_Z (round_half_even (a / 2 ^ e)) * 2 ^ e in
    if Qle_bool (2 ^ 1024) v then (if Qle_bool 0 q then PosInf else NegInf)
    else Finite (Qred (if Qle_bool 0 q then v else - v)).

(** [a + b] on numbers. *)
Definition add (a b : t) : t :=
  match a, b with
  | NaN, _ | _, NaN => NaN
  | PosInf, NegInf | NegInf, PosInf => NaN
  | PosInf, _ | _, PosInf => PosInf
  | NegInf, _ | _, NegInf => NegInf
  | Finite x, Finite y => round (x + y)
  end.

(** [a < b], [a > b], [a <= b] and [a >= b] on numbers: all false when
    an operand is [NaN]. *)
Definition lt (a b : t) : bool :=
  match a, b with
  | NaN, _ | _, NaN => false
  | _, NegInf | PosInf, _ => false
  | NegInf, _ | _, PosInf => true
  | Finite x, Finite y => negb (Qle_bool y x)
  end.

Definition gt (a b : t) : bool := lt b a.

Definition le (a b : t) : bool :=
  match a, b with
  | NaN, _ | _, NaN => false
  | NegInf, _ | _, PosInf => true
  | _, NegInf | PosInf, _ => false
  | Finite x, Finite y => Qle_bool x y
  end.

Definition ge (a b : t) : bool := le b a.

(** The numbers that count as false: [0] and [NaN]. *)
Definition falsy (a : t) : bool :=
  match a with
  | NaN => true
  | Finite q => Qeq_bool q 0
  | _ => false
  end.

Definition is_nan (a : t) : bool :=
  match a with
  | NaN => true
  | _ => false
  end.

End F64.

(** ** Numbers as text *)

Definition is_digit (c : ascii) : bool :=
  let n := nat_of_ascii c in (48 <=? n)%nat && (n <=? 57)%nat.

Definition digit_value (c : ascii) : Z := (Z.of_nat (nat_of_ascii c) - 48)%Z.

Definition digit_char (d : Z) : ascii := ascii_of_nat (Z.to_nat (48 + d)).

(** The decimal digits of a natural number, the most significant
    first; a number has no more digits than bits. *)
Fixpoint digits_go (fuel : nat) (n : Z) (acc : list ascii) : list ascii :=
  match fuel with
  | O => acc
  | S fuel' =>
      let acc' := digit_char (n mod 10) :: acc in
      if (n <? 10)%Z then acc' else digits_go fuel' (n / 10) acc'
  end.

Definition digits (n : Z) : list ascii :=
  digits_go (S (Z.to_nat (Z.log2 n))) n [].

(** The number a run of digits spells. *)
Definition value_of (ds : list ascii) : Z :=
  foldl (fun acc c => (10 * acc + digit_value c)%Z) 0%Z ds.

(** The integer part of the decimal logarithm of a positive rational. *)
Definition ilog10 (a : Q) : Z :=
  let k := (Z.of_nat (length (digits (Qnum a)))
            - Z.of_nat (length (digits (Zpos (Qden a)))))%Z in
  if Qle_bool (10 ^ k) a then k else (k - 1)%Z.

(** [c] is read back as the double [x]. *)
Definition reads_as (c x : Q) : bool :=
  match F64.round c with
  | F64.Finite v => Qeq_bool v x
  | _ => false
  end.

(** The digits [Number::toString] prints for a positive double [x]:
    the integer [s] of the fewest digits for which [s * 10 ^ e] is read
    back as [x], the nearest to [x] when there are two, the even one
    when they are equally near.  One digit is tried first, at the
    place of the leading digit of [x], then one more at a time;
    seventeen tell every double from the next. *)
Fixpoint shortest (fuel : nat) (e : Z) (x : Q) : option (Z * Z) :=
  match fuel with
  | O => None
  | S fuel' =>
      let g := 10 ^ e in
      let lo := Qfloor (x / g) in
      let c1 := inject_Z lo * g in
      let c2 := inject_Z (lo + 1) * g in
      match reads_as c1 x, reads_as c2 x with
      | true, true =>
          match Qcompare (x - c1) (c2 - x) with
          | Lt => Some (lo, e)
          | Gt => Some ((lo + 1)%Z, e)
          | Eq => Some (if Z.even lo then lo else (lo + 1)%Z, e)
          end
      | true, false => Some (lo, e)
      | false, true => Some ((lo + 1)%Z, e)
      | false, false => shortest fuel' (e - 1)%Z x
      end
  end.

(** Rounding up to the next power of ten leaves [s] with zeros at its
    end; they go to the exponent. *)
Fixpoint strip_zeros (fuel : nat) (s e : Z) : Z * Z :=
  match fuel with
  | O => (s, e)
  | S fuel' =>
      if (s mod 10 =? 0)%Z then strip_zeros fuel' (s / 10)%Z (e + 1)%Z
      else (s, e)
  end.

Definition zeros (n : Z) : list ascii := replicate (Z.to_nat n) "0"%char.

(** The notation of [Number::toString] for [s * 10 ^ e], [s] of [k]
    digits and [n = e + k]: the digits and [n - k] zeros, the digits
    with a point after the first [n], [0.] and [-n] zeros before the
    digits, or, when [n] is above 21 or below -5, a power of ten. *)
Definition format (s e : Z) : list ascii :=
  let ds := digits s in
  let k := Z.of_nat (length ds) in
  let n := (e + k)%Z in
  if (k <=? n)%Z && (n <=? 21)%Z then ds ++ zeros (n - k)
  else if (0 <? n)%Z && (n <=? 21)%Z then
    take (Z.to_nat n) ds ++ "."%char :: drop (Z.to_nat n) ds
  else if (-6 <? n)%Z && (n <=? 0)%Z then
    "0"%char :: "."%char :: zeros (- n) ++ ds
  else
    take 1 ds
    ++ (if (1 <? k)%Z then "."%char :: drop 1 ds else [])
    ++ "e"%char :: (if (0 <=? n - 1)%Z then "+"%char else "-"%char)
    :: digits (Z.abs (n - 1)).

Definition nan_text : list ascii := String.list_ascii_of_string "NaN".

Definition infinity_text : list ascii :=
  String.list_ascii_of_string "Infinity".

(** [Number::toString].  A rational that is no double has no digits
    that are read back as it; no number of a request is one. *)
Definition number_chars (v : F64.t) : list ascii :=
  match v with
  | F64.NaN => nan_text
  | F64.PosInf => infinity_text
  | F64.NegInf => "-"%char :: infinity_text
  | F64.Finite q =>
      if Qeq_bool q 0 then ["0"%char]
      else
        match shortest 17 (ilog10 (Qabs q)) (Qabs q) with
        | Some (s, e) =>
            (if Qle_bool 0 q then [] else ["-"%char])
            ++ format (strip_zeros 17 s e).1 (strip_zeros 17 s e).2
        | None => nan_text
        end
  end.

Definition numberToString (v : F64.t) : string :=
  String.string_of_list_ascii (number_chars v).

(** The longest run of digits a text starts with, and what follows. *)
Fixpoint span_digits (l : list ascii) : list ascii * list ascii :=
  match l with
  | c :: r =>
      if is_digit c then
        let (ds, rest) := span_digits r in (c :: ds, rest)
      else ([], l)
  | [] => ([], [])
  end.

(** A sign, if the text starts with one: whether it is a minus, and
    what follows. *)
Definition split_sign (l : list ascii) : bool * list ascii :=
  match l with
  | c :: r =>
      if bool_decide (c = "-"%char) then (true, r)
      else if bool_decide (c = "+"%char) then (false, r)
      else (false, l)
  | [] => (false, [])
  end.

(** [ExponentPart]: [e] or [E], a sign if any, and one digit or more;
    nothing is taken when these do not follow. *)
Definition exponent_part (l : list ascii) : Z * list ascii :=
  match l with
  | c :: r =>
      if bool_decide (c = "e"%char) || bool_decide (c = "E"%char) then
        let (neg, r1) := split_sign r in
        let (ds, r2) := span_digits r1 in
        match ds with
        | [] => (0%Z, l)
        | _ => (if neg then (- value_of ds)%Z else value_of ds, r2)
        end
      else (0%Z, l)
  | [] => (0%Z, l)
  end.

(** The longest [StrUnsignedDecimalLiteral] a text starts with (digits
    with or without a point, or a point and digits, and an exponent
    if one follows): its exact value and the rest of the text. *)
Definition unsigned_decimal (l : list ascii) : option (Q * list ascii) :=
  let (ip, r1) := span_digits l in
  match r1 with
  | "."%char :: r =>
      let (fp, r2) := span_digits r in
      match ip, fp with
      | [], [] => None
      | _, _ =>
          let (ex, r3) := exponent_part r2 in
          Some (inject_Z (value_of (ip ++ fp))
                * 10 ^ (ex - Z.of_nat (length fp)), r3)
      end
  | _ =>
      match ip with
      | [] => None
      | _ =>
          let (ex, r3) := exponent_part r1 in
          Some (inject_Z (value_of ip) * 10 ^ ex, r3)
      end
  end.

(** The longest [StrDecimalLiteral] a text starts with, as the double
    it denotes. *)
Definition signed_decimal (l : list ascii) : option (F64.t * list ascii) :=
  let (neg, r) := split_sign l in
  if bool_decide (take 8 r = infinity_text) then
    Some (if neg then F64.NegInf else F64.PosInf, drop 8 r)
  else
    match unsigned_decimal r with
    | Some (q, rest) => Some (F64.round (if neg then - q else q), rest)
    | None => None
    end.

(** [parseFloat], [parseInt] and the conversion of a string to a number
    ([StringToNumber]), on the texts the crop route hands them: the
    print of a number or a boolean, and strings that passed a
    validator, which hold no white space and no prefix of another
    radix. *)
Definition parseFloat (s : string) : F64.t :=
  match signed_decimal (String.list_ascii_of_string s) with
  | Some (v, _) => v
  | None => F64.NaN
  end.

Definition parseInt (s : string) : F64.t :=
  let (neg, r) := split_sign (String.list_ascii_of_string s) in
  let (ds, _) := span_digits r in
  match ds with
  | [] => F64.NaN
  | _ => F64.round (inject_Z (if neg then - value_of ds else value_of ds))
  end.

Definition StringToNumber (s : string) : F64.t :=
  match String.list_ascii_of_string s with
  | [] => F64.Finite 0
  | l =>
      match signed_decimal l with
      | Some (v, []) => v
      | _ => F64.NaN
      end
  end.

(** ** The Mongoose schemas of the project model *)

Definition Time := Z.

(** [adjustmentSchema.grain] *)
Record Grain := mkGrain {
  amount : Q;
  grain_size : Q;
  roughness : Q
}.

(** An element of [adjustmentSchema.curves] *)
Record CurvePoint := mkPoint { px : Q; py : Q }.

(** [adjustmentSchema] *)
Record Adjustments := mkAdjustments {
  exposure : Q;
  contrast : Q;
  highlights : Q;
  shadows : Q;
  whites : Q;
  blacks : Q;
  temperature : Q;
  tint : Q;
  vibrance : Q;
  saturation : Q;
  texture : Q;
  clarity : Q;
  dehaze : Q;
  vignette : Q;
  grain : Grain;
  curves : list CurvePoint
}.

(** The schema defaults: what Mongoose builds from [{}]. *)
Definition default_grain : Grain := mkGrain 0 50 50.

Definition default_curves : list CurvePoint := [mkPoint 0 0; mkPoint 255 255].

Definition default_adjustments : Adjustments :=
  mkAdjustments 0 0 0 0 0 0 0 0 0 0 0 0 0 0 default_grain default_curves.

(** The numeric top-level paths of [adjustmentSchema]. *)
Inductive Path : Type :=
| Exposure
| Contrast
| Highlights
| Shadows
| Whites
| Blacks
| Temperature
| Tint
| Vibrance
| Saturation
| Texture
| Clarity
| Dehaze
| Vignette.

#[global] Instance Path_eq_dec : EqDecision Path.
Proof. solve_decision. Defined.

Definition key_of_path (p : Path) : string :=
  match p with
  | Exposure => "exposure"
  | Contrast => "contrast"
  | Highlights => "highlights"
  | Shadows => "shadows"
  | Whites => "whites"
  | Blacks => "blacks"
  | Temperature => "temperature"
  | Tint => "tint"
  | Vibrance => "vibrance"
  | Saturation => "saturation"
  | Texture => "texture"
  | Clarity => "clarity"
  | Dehaze => "dehaze"
  | Vignette => "vignette"
  end.

(** The schema path a property name denotes, if any. *)
Definition path_of_key (key : string) : option Path :=
  if decide (key = "exposure") then Some Exposure else
  if decide (key = "contrast") then Some Contrast else
  if decide (key = "highlights") then Some Highlights else
  if decide (key = "shadows") then Some Shadows else
  if decide (key = "whites") then Some Whites else
  if decide (key = "blacks") then Some Blacks else
  if decide (key = "temperature") then Some Temperature else
  if decide (key = "tint") then Some Tint else
  if decide (key = "vibrance") then Some Vibrance else
  if decide (key = "saturation") then Some Saturation else
  if decide (key = "texture") then Some Texture else
  if decide (key = "clarity") then Some Clarity else
  if decide (key = "dehaze") then Some Dehaze else
  if decide (key = "vignette") then Some Vignette else
  None.

(** The [min] and [max] options of each path. *)
Definition schema_range (p : Path) : Q * Q :=
  match p with
  | Exposure => (-5, 5)
  | _ => (-100, 100)
  end.

Definition grain_range : Q * Q := (0, 100).

(** Reading a path: [doc[key]]. *)
Definition get_path (p : Path) (a : Adjustments) : Q :=
  match p with
  | Exposure => exposure a
  | Contrast => contrast a
  | Highlights => highlights a
  | Shadows => shadows a
  | Whites => whites a
  | Blacks => blacks a
  | Temperature => temperature a
  | Tint => tint a
  | Vibrance => vibrance a
  | Saturation => saturation a
  | Texture => texture a
  | Clarity => clarity a
  | Dehaze => dehaze a
  | Vignette => vignette a
  end.

(** Writing a path: [doc[key] = v]. *)
Definition set_path (p : Path) (v : Q) (a : Adjustments) : Adjustments :=
  match p with
  | Exposure =>
      mkAdjustments v (contrast a) (highlights a) (shadows a) (whites a)
        (blacks a) (temperature a) (tint a) (vibrance a) (saturation a)
        (texture a) (clarity a) (dehaze a) (vignette a) (grain a) (curves a)
  | Contrast =>
      mkAdjustments (exposure a) v (highlights a) (shadows a) (whites a)
        (blacks a) (temperature a) (tint a) (vibrance a) (saturation a)
        (texture a) (clarity a) (dehaze a) (vignette a) (grain a) (curves a)
  | Highlights =>
      mkAdjustments (exposure a) (contrast a) v (shadows a) (whites a)
        (blacks a) (temperature a) (tint a) (vibrance a) (saturation a)
        (texture a) (clarity a) (dehaze a) (vignette a) (grain a) (curves a)
  | Shadows =>
      mkAdjustments (exposure a) (contrast a) (highlights a) v (whites a)
        (blacks a) (temperature a) (tint a) (vibrance a) (saturation a)
        (texture a) (clarity a) (dehaze a) (vignette a) (grain a) (curves a)
  | Whites =>
      mkAdjustments (exposure a) (contrast a) (highlights a) (shadows a) v
        (blacks a) (temperature a) (tint a) (vibrance a) (saturation a)
        (texture a) (clarity a) (dehaze a) (vignette a) (grain a) (curves a)
  | Blacks =>
      mkAdjustments (exposure a) (contrast a) (highlights a) (shadows a)
        (whites a) v (temperature a) (tint a) (vibrance a) (saturation a)
        (texture a) (clarity a) (dehaze a) (vignette a) (grain a) (curves a)
  | Temperature =>
      mkAdjustments (exposure a) (contrast a) (highlights a) (shadows a)
        (whites a) (blacks a) v (tint a) (vibrance a) (saturation a) (texture
        a) (clarity a) (dehaze a) (vignette a) (grain a) (curves a)
  | Tint =>
      mkAdjustments (exposure a) (contrast a) (highlights a) (shadows a)
        (whites a) (blacks a) (temperature a) v (vibrance a) (saturation a)
        (texture a) (clarity a) (dehaze a) (vignette a) (grain a) (curves a)
  | Vibrance =>
      mkAdjustments (exposure a) (contrast a) (highlights a) (shadows a)
        (whites a) (blacks a) (temperature a) (tint a) v (saturation a)
        (texture a) (clarity a) (dehaze a) (vignette a) (grain a) (curves a)
  | Saturation =>
      mkAdjustments (exposure a) (contrast a) (highlights a) (shadows a)
        (whites a) (blacks a) (temperature a) (tint a) (vibrance a) v (texture
        a) (clarity a) (dehaze a) (vignette a) (grain a) (curves a)
  | Texture =>
      mkAdjustments (exposure a) (contrast a) (highlights a) (shadows a)
        (whites a) (blacks a) (temperature a) (tint a) (vibrance a)
        (saturation a) v (clarity a) (dehaze a) (vignette a) (grain a) (curves
        a)
  | Clarity =>
      mkAdjustments (exposure a) (contrast a) (highlights a) (shadows a)
        (whites a) (blacks a) (temperature a) (tint a) (vibrance a)
        (saturation a) (texture a) v (dehaze a) (vignette a) (grain a) (curves
        a)
  | Dehaze =>
      mkAdjustments (exposure a) (contrast a) (highlights a) (shadows a)
        (whites a) (blacks a) (temperature a) (tint a) (vibrance a)
        (saturation a) (texture a) (clarity a) v (vignette a) (grain a)
        (curves a)
  | Vignette =>
      mkAdjustments (exposure a) (contrast a) (highlights a) (shadows a)
        (whites a) (blacks a) (temperature a) (tint a) (vibrance a)
        (saturation a) (texture a) (clarity a) (dehaze a) v (grain a) (curves
        a)
  end.

Definition set_grain (g : Grain) (a : Adjustments) : Adjustments :=
  mkAdjustments (exposure a) (contrast a) (highlights a) (shadows a)
    (whites a) (blacks a) (temperature a) (tint a) (vibrance a)
    (saturation a) (texture a) (clarity a) (dehaze a) (vignette a) g
    (curves a).

Definition set_curves (c : list CurvePoint) (a : Adjustments) : Adjustments :=
  mkAdjustments (exposure a) (contrast a) (highlights a) (shadows a)
    (whites a) (blacks a) (temperature a) (tint a) (vibrance a)
    (saturation a) (texture a) (clarity a) (dehaze a) (vignette a) (grain
    a) c.

(** [cropSchema] *)
Record CropSettings := mkCrop {
  crop_x : F64.t;
  crop_y : F64.t;
  crop_width : F64.t;
  crop_height : F64.t;
  rotation : F64.t;
  flipHorizontal : bool;
  flipVertical : bool;
  aspectRatio : string
}.

Record Dimensions := mkDimensions { width : Q; height : Q }.

(** [imageSchema.metadata] *)
Record ImageMetadata := mkImageMetadata {
  camera : option string;
  lens : option string;
  focalLength : option Q;
  aperture : option Q;
  shutterSpeed : option string;
  iso : option Q;
  dateTaken : option Time;
  gps : option (Q * Q);
  colorSpace : option string;
  orientation : option Q
}.

(** [imageSchema]: where the original lives on disk and what it
    measures.  The bytes themselves are the file at [path]. *)
Record Image := mkImage {
  originalFilename : string;
  filename : string;
  path : string;
  mimeType : string;
  file_size : Q;
  dimensions : Dimensions;
  thumbnailPath : option string;
  previewPath : option string;
  metadata : ImageMetadata
}.

(** The [action] enum of a history entry. *)
Inductive Action : Type := upload | adjust | crop_action | export | reset.

(** The validated patch the adjustment handler hands to
    [applyAdjustments]: clamped numbers under allowed keys, and, when
    accepted, a whole [grain] object and a whole [curves] array. *)
Record AdjustmentPatch := mkPatch {
  patch_numbers : gmap string Q;
  patch_grain : option Grain;
  patch_curves : option (list CurvePoint)
}.

(** The [changes] payload of a history entry ([Mixed] in the schema),
    one shape per call site of [addHistory]. *)
Inductive Changes : Type :=
| NoChanges
| UploadInfo (name : string) (bytes : Q) (dims : Dimensions)
| AdjustChanges (old : Adjustments) (new : AdjustmentPatch)
| CropChanges (old : option CropSettings) (new : CropSettings)
| ResetChanges (old_adjustments : Adjustments) (old_crop : option CropSettings).

Record HistoryEntry := mkEntry {
  action : Action;
  changes : Changes;
  timestamp : Time
}.

Record ExportRecord := mkExport {
  export_filename : string;
  export_path : string;
  export_format : string;
  export_quality : Q;
  export_size : Q;
  exportedAt : Time
}.

(** [projectSchema] *)
Record Project := mkProject {
  title : string;
  description : string;
  user : string;
  image : Image;
  adjustments : Adjustments;
  crop : option CropSettings;
  history : list HistoryEntry;
  tags : list string;
  isPublic : bool;
  starred : bool;
  lastEdited : Time;
  version : Z;
  exports : list ExportRecord
}.

(** ** Methods of the project model

    [new Date()] reads the wall clock; each reading is an explicit
    argument, in the order the method takes them. *)

(** [projectSchema.methods.addHistory]: push, keep the last 50, stamp
    and bump the version.  [pushed_at] is the clock read for the entry,
    [edited_at] the one read for [lastEdited]. *)
Definition addHistory (act : Action) (chg : option Changes)
    (pushed_at edited_at : Time) (p : Project) : Project :=
  let pushed :=
    history p ++ [mkEntry act (default NoChanges chg) pushed_at] in
  let kept :=
    if bool_decide (50 < length pushed)%nat then JS.slice_last 50 pushed
    else pushed in
  mkProject (title p) (description p) (user p) (image p) (adjustments p)
    (crop p) kept (tags p) (isPublic p) (starred p) edited_at
    (version p + 1)%Z (exports p).

Definition with_adjustments (a : Adjustments) (p : Project) : Project :=
  mkProject (title p) (description p) (user p) (image p) a (crop p)
    (history p) (tags p) (isPublic p) (starred p) (lastEdited p)
    (version p) (exports p).

Definition with_crop (c : option CropSettings) (p : Project) : Project :=
  mkProject (title p) (description p) (user p) (image p) (adjustments p) c
    (history p) (tags p) (isPublic p) (starred p) (lastEdited p)
    (version p) (exports p).

(** [Object.assign(this.adjustments, newAdjustments)]: every own
    property of the patch is written to the path of the same name; a
    name that is no path of the strict schema is dropped. *)
Definition assign_number (key : string) (v : Q) (a : Adjustments)
    : Adjustments :=
  match path_of_key key with
  | Some p => set_path p v a
  | None => a
  end.

Definition object_assign (a : Adjustments) (new : AdjustmentPatch)
    : Adjustments :=
  let a1 := map_fold assign_number a (patch_numbers new) in
  let a2 := from_option (fun g => set_grain g a1) a1 (patch_grain new) in
  from_option (fun c => set_curves c a2) a2 (patch_curves new).

(** [projectSchema.methods.applyAdjustments] *)
Definition applyAdjustments (newAdjustments : AdjustmentPatch)
    (pushed_at edited_at : Time) (p : Project) : Project :=
  let oldAdjustments := adjustments p in
  let p1 :=
    with_adjustments (object_assign (adjustments p) newAdjustments) p in
  addHistory adjust (Some (AdjustChanges oldAdjustments newAdjustments))
    pushed_at edited_at p1.

(** [projectSchema.methods.applyCrop] *)
Definition applyCrop (cropData : CropSettings)
    (pushed_at edited_at : Time) (p : Project) : Project :=
  let oldCrop := crop p in
  let p1 := with_crop (Some cropData) p in
  addHistory crop_action (Some (CropChanges oldCrop cropData))
    pushed_at edited_at p1.

(** [projectSchema.methods.resetEdits] *)
Definition resetEdits (pushed_at edited_at : Time) (p : Project)
    : Project :=
  let old_a := adjustments p in
  let old_c := crop p in
  let p1 := with_crop None (with_adjustments default_adjustments p) in
  addHistory reset (Some (ResetChanges old_a old_c)) pushed_at edited_at p1.

(** ** The adjustment handler, [PUT /api/projects/:id/adjustments] *)

Definition allowedFields : list string :=
  ["exposure"; "contrast"; "highlights"; "shadows"; "whites"; "blacks";
   "temperature"; "tint"; "vibrance"; "saturation"; "texture"; "clarity";
   "dehaze"; "vignette"].

(** The body of the loop over [Object.entries(adjustments)]. *)
Definition validate_entry (key : string) (value : JS.Value)
    (validAdjustments : gmap string Q) : gmap string Q :=
  match value with
  | JS.Num v =>
      if bool_decide (key ∈ allowedFields) then
        if decide (key = "exposure") then
          <[key := clamp v (-5) 5]> validAdjustments
        else if decide (key = "grain") then
          validAdjustments (* continue *)
        else
          <[key := clamp v (-100) 100]> validAdjustments
      else validAdjustments
  | _ => validAdjustments
  end.

Definition validate_numbers (body : gmap string JS.Value) : gmap string Q :=
  map_fold validate_entry ∅ body.

(** One member of the [grain] object: taken when it is a number. *)
Definition grain_member (key : string) (g : gmap string JS.Value)
    : option Q :=
  match g !! key with
  | Some (JS.Num v) => Some (clamp v 0 100)
  | _ => None
  end.

(** The [grain] branch: the stored grain overwritten by the members
    given, when at least one is a number. *)
Definition validate_grain (body : gmap string JS.Value) (stored : Grain)
    : option Grain :=
  match body !! "grain" with
  | Some (JS.Obj g) =>
      let a := grain_member "amount" g in
      let s := grain_member "size" g in
      let r := grain_member "roughness" g in
      if bool_decide (is_Some a ∨ is_Some s ∨ is_Some r) then
        Some (mkGrain (default (amount stored) a)
                      (default (grain_size stored) s)
                      (default (roughness stored) r))
      else None
  | _ => None (* falsy, not an object, or an array without members *)
  end.

(** The predicate of [adjustments.curves.filter]. *)
Definition valid_point (point : JS.Value) : option CurvePoint :=
  match JS.prop "x" point, JS.prop "y" point with
  | Some (JS.Num x), Some (JS.Num y) =>
      if Qle_bool 0 x && Qle_bool x 255 && Qle_bool 0 y && Qle_bool y 255
      then Some (mkPoint x y)
      else None
  | _, _ => None
  end.

(** The [curves] branch: the points that pass, when two or more do. *)
Definition validate_curves (body : gmap string JS.Value)
    : option (list CurvePoint) :=
  match body !! "curves" with
  | Some (JS.Arr points) =>
      let validCurves := omap valid_point points in
      if bool_decide (2 ≤ length validCurves)%nat then Some validCurves
      else None
  | _ => None
  end.

Definition validate (body : gmap string JS.Value) (stored : Adjustments)
    : AdjustmentPatch :=
  mkPatch (validate_numbers body) (validate_grain body (grain stored))
          (validate_curves body).

(** The handler on a project it found: validate, apply, respond with
    the document it saved.  [applyAdjustments] assigns what it is given;
    the clamp is here, in its only caller, and the ranges it keeps are
    those the schema validates on [save]. *)
Definition putAdjustments (body : gmap string JS.Value)
    (pushed_at edited_at : Time) (p : Project) : Project :=
  applyAdjustments (validate body (adjustments p)) pushed_at edited_at p.

(** ** The crop handler, [PUT /api/projects/:id/crop] *)

(** A member of the [crop] object of a request: a JSON number, string
    or boolean, or [null]; a member that is absent is [None].  A
    member that is itself an array or an object is not modelled. *)
Inductive Scalar : Type :=
| SNum (n : F64.t)
| SStr (s : string)
| SBool (b : bool)
| SNull.

Record CropRequest := mkCropRequest {
  req_x : option Scalar;
  req_y : option Scalar;
  req_width : option Scalar;
  req_height : option Scalar;
  req_rotation : option Scalar;
  req_flipHorizontal : option Scalar;
  req_flipVertical : option Scalar;
  req_aspectRatio : option Scalar
}.

Inductive HandlerError : Type :=
| ValidationFailed      (* 400, 'Validation failed' *)
| CropOutOfBounds       (* 400, 'Crop bounds exceed image dimensions' *)
| SaveRejected.         (* 500, 'Server error updating crop' *)

(** [String(value)] *)
Definition ToString (v : option Scalar) : string :=
  match v with
  | Some (SNum n) => numberToString n
  | Some (SStr s) => s
  | Some (SBool b) => if b then "true" else "false"
  | Some SNull => "null"
  | None => "undefined"
  end.

(** The conversion of a value to a number. *)
Definition ToNumber (v : option Scalar) : F64.t :=
  match v with
  | Some (SNum n) => n
  | Some (SStr s) => StringToNumber s
  | Some (SBool b) => F64.Finite (if b then 1 else 0)
  | Some SNull => F64.Finite 0
  | None => F64.NaN
  end.

(** The values that count as true in [value || fallback]. *)
Definition is_truthy (v : option Scalar) : bool :=
  match v with
  | Some (SNum n) => negb (F64.falsy n)
  | Some (SStr s) => negb (bool_decide (s = ""))
  | Some (SBool b) => b
  | Some SNull | None => false
  end.

(** [a + b]: the texts joined when an operand is a string, the sum of
    the numbers otherwise. *)
Definition js_add (a b : option Scalar) : Scalar :=
  match a, b with
  | Some (SStr _), _ | _, Some (SStr _) => SStr (ToString a +:+ ToString b)
  | _, _ => SNum (F64.add (ToNumber a) (ToNumber b))
  end.

(** The text a validator of the chain tests: the library's [toString]
    of the member, empty for [undefined], [null] and [NaN]. *)
Definition validated_text (v : option Scalar) : string :=
  match v with
  | None | Some SNull | Some (SNum F64.NaN) => ""
  | _ => ToString v
  end.

(** [isNumeric]: the pattern [^[+-]?([0-9]*[.])?[0-9]+$]. *)
Definition isNumeric (s : string) : bool :=
  let (_, r) := split_sign (String.list_ascii_of_string s) in
  let (ip, r1) := span_digits r in
  match r1 with
  | [] => negb (bool_decide (ip = []))
  | "."%char :: fp => forallb is_digit fp && negb (bool_decide (fp = []))
  | _ => false
  end.

(** The pattern [^[-+]?[0-9]+$] of [isInt]. *)
Definition int_pattern (s : string) : bool :=
  let (_, r) := split_sign (String.list_ascii_of_string s) in
  forallb is_digit r && negb (bool_decide (r = [])).

(** [isInt({ min: 1 })]: the pattern, and [str >= 1]. *)
Definition isInt_min1 (s : string) : bool :=
  int_pattern s && F64.ge (StringToNumber s) (F64.Finite 1).

(** The pattern of [isFloat]: a sign, digits, a point with the digits
    after it, and an exponent ([e] or [E], a sign, one digit or more),
    each of the four optional. *)
Definition float_pattern (s : string) : bool :=
  let (_, r) := split_sign (String.list_ascii_of_string s) in
  let (_, r1) := span_digits r in
  let r2 :=
    match r1 with
    | "."%char :: r' => (span_digits r').2
    | _ => r1
    end in
  match r2 with
  | [] => true
  | c :: r3 =>
      (bool_decide (c = "e"%char) || bool_decide (c = "E"%char))
      && (let (_, r4) := split_sign r3 in
          forallb is_digit r4 && negb (bool_decide (r4 = [])))
  end.

(** [isFloat({ min: -180, max: 180 })]: the pattern, none of the four
    texts the validator names, and [parseFloat(str)] within the
    bounds.  A text with a comma fails the pattern. *)
Definition isFloat_rotation (s : string) : bool :=
  float_pattern s
  && negb (bool_decide (s ∈ [""; "."; "-"; "+"]))
  && F64.ge (parseFloat s) (F64.Finite (-180))
  && F64.le (parseFloat s) (F64.Finite 180).

(** [isBoolean] *)
Definition isBoolean (s : string) : bool :=
  bool_decide (s ∈ ["true"; "false"; "1"; "0"]).

(** [optional()]: a member that is [undefined] is not validated. *)
Definition optional (validator : string → bool) (v : option Scalar)
    : bool :=
  match v with
  | None => true
  | Some _ => validator (validated_text v)
  end.

(** The validation chain of the route; [crop] is an object. *)
Definition crop_fields_valid (c : CropRequest) : bool :=
  isNumeric (validated_text (req_x c))
  && isNumeric (validated_text (req_y c))
  && isInt_min1 (validated_text (req_width c))
  && isInt_min1 (validated_text (req_height c))
  && optional isFloat_rotation (req_rotation c)
  && optional isBoolean (req_flipHorizontal c)
  && optional isBoolean (req_flipVertical c).

(** The bounds test of the handler, on the members as they were sent. *)
Definition exceeds_bounds (c : CropRequest) (d : Dimensions) : bool :=
  F64.lt (ToNumber (req_x c)) (F64.Finite 0)
  || F64.lt (ToNumber (req_y c)) (F64.Finite 0)
  || F64.gt (ToNumber (Some (js_add (req_x c) (req_width c))))
       (F64.Finite (width d))
  || F64.gt (ToNumber (Some (js_add (req_y c) (req_height c))))
       (F64.Finite (height d)).

(** [crop.flipHorizontal || false] as the schema casts it: Mongoose
    takes [true], ['true'], [1], ['1'] and ['yes'] for [true], ['false'],
    ['0'] and ['no'] for [false], and refuses any other value. *)
Definition flip_cast (v : option Scalar) : option bool :=
  if negb (is_truthy v) then Some false
  else
    match v with
    | Some (SBool b) => Some b
    | Some (SStr s) =>
        if bool_decide (s ∈ ["true"; "1"; "yes"]) then Some true
        else if bool_decide (s ∈ ["false"; "0"; "no"]) then Some false
        else None
    | Some (SNum (F64.Finite q)) => if Qeq_bool q 1 then Some true else None
    | _ => None
    end.

(** The object literal handed to [applyCrop], as [cropSchema] casts and
    validates it: [NaN] is no [Number], a rotation lies within [min]
    and [max].  [None] when Mongoose refuses it and [save] fails. *)
Definition cropData (c : CropRequest) : option CropSettings :=
  let x := parseFloat (ToString (req_x c)) in
  let y := parseFloat (ToString (req_y c)) in
  let w := parseInt (ToString (req_width c)) in
  let h := parseInt (ToString (req_height c)) in
  let parsed := parseFloat (ToString (req_rotation c)) in
  let r := if F64.falsy parsed then F64.Finite 0 else parsed in
  let ratio :=
    if is_truthy (req_aspectRatio c) then ToString (req_aspectRatio c)
    else "free" in
  if F64.is_nan x || F64.is_nan y || F64.is_nan w || F64.is_nan h
  then None
  else if negb (F64.ge r (F64.Finite (-180)) && F64.le r (F64.Finite 180))
  then None
  else
    match flip_cast (req_flipHorizontal c),
          flip_cast (req_flipVertical c) with
    | Some fh, Some fv => Some (mkCrop x y w h r fh fv ratio)
    | _, _ => None
    end.

(** The handler on a project it found. *)
Definition putCrop (c : CropRequest) (pushed_at edited_at : Time)
    (p : Project) : HandlerError + Project :=
  if negb (crop_fields_valid c) then inl ValidationFailed
  else if exceeds_bounds c (dimensions (image p)) then inl CropOutOfBounds
  else
    match cropData c with
    | Some s => inr (applyCrop s pushed_at edited_at p)
    | None => inl SaveRejected
    end.

(** ** Upload: a new document and its first history entry *)

Definition new_project (ttl descr owner : string) (img : Image)
    (tgs : list string) (created_at : Time) : Project :=
  mkProject ttl descr owner img default_adjustments None [] tgs false false
    created_at 1 [].

Definition uploadProject (ttl descr owner : string) (img : Image)
    (tgs : list string) (created_at pushed_at edited_at : Time) : Project :=
  addHistory upload
    (Some (UploadInfo (originalFilename img) (file_size img)
             (dimensions img)))
    pushed_at edited_at
    (new_project ttl descr owner img tgs created_at).

(** A run of history appends, oldest first. *)
Record Append := mkAppend {
  app_action : Action;
  app_changes : option Changes;
  app_pushed_at : Time;
  app_edited_at : Time
}.

Definition entry_of (a : Append) : HistoryEntry :=
  mkEntry (app_action a) (default NoChanges (app_changes a))
    (app_pushed_at a).

Definition append (p : Project) (a : Append) : Project :=
  addHistory (app_action a) (app_changes a) (app_pushed_at a)
    (app_edited_at a) p.

Definition appends (p : Project) (l : list Append) : Project :=
  foldl append p l.

(** ** The client preview, [buildCSSFilters] of the editor page *)

Inductive Filter : Type :=
| FBrightness (percent : Q)
| FContrast (percent : Q)
| FSaturate (percent : Q)
| FHueRotate (degrees : Q).

(** The four tests of [buildCSSFilters], one per pushed filter. *)
Definition exposure_stage (a : Adjustments) : list Filter :=
  if JS.neq (exposure a) 0 then [FBrightness (100 + exposure a * 20)]
  else [].

Definition contrast_stage (a : Adjustments) : list Filter :=
  if JS.neq (contrast a) 0 then [FContrast (100 + contrast a)] else [].

Definition saturation_stage (a : Adjustments) : list Filter :=
  if JS.neq (saturation a) 0 then [FSaturate (100 + saturation a)] else [].

Definition temperature_stage (a : Adjustments) : list Filter :=
  if JS.neq (temperature a) 0 then [FHueRotate (temperature a * (1 # 10))]
  else [].

(** The array [filters] when the function returns. *)
Definition filter_chain (a : Adjustments) : list Filter :=
  exposure_stage a ++ contrast_stage a ++ saturation_stage a
  ++ temperature_stage a.

Section Preview.

(** How a template literal prints a number. *)
Variable num_to_string : Q → string.

Definition css (f : Filter) : string :=
  match f with
  | FBrightness pc => "brightness(" +:+ num_to_string pc +:+ "%)"
  | FContrast pc => "contrast(" +:+ num_to_string pc +:+ "%)"
  | FSaturate pc => "saturate(" +:+ num_to_string pc +:+ "%)"
  | FHueRotate dg => "hue-rotate(" +:+ num_to_string dg +:+ "deg)"
  end.

(** [filters.join(' ') || 'none'] *)
Definition buildCSSFilters (a : Adjustments) : string :=
  let joined := String.concat " " (css <$> filter_chain a) in
  if decide (joined = "") then "none" else joined.

(** The canvas: what the browser does to the drawn pixels for one filter
    function of [ctx.filter], applied in the order listed; ['none']
    draws the image as it is. *)
Variable Pixels : Type.
Variable apply_filter : Filter → Pixels → Pixels.

Definition render (a : Adjustments) (source : Pixels) : Pixels :=
  foldl (fun px f => apply_filter f px) source (filter_chain a).

End Preview.

(** The multiplier a filter chain applies to a channel value through
    its [brightness] functions: [brightness(p%)] scales linearly by
    [p / 100]. *)
Definition brightness_gain (chain : list Filter) : Q :=
  foldr (fun f g => match f with
                    | FBrightness pc => (pc / 100) * g
                    | _ => g
                    end) 1 chain.

(** The exposure rule in the words of the specification: one stop per
    unit, a gain of two to the power of the exposure. *)
Definition spec_exposure_gain (stops : Z) : Q := 2 ^ stops.

(** ** The client image cache, [ImageCache] of [utils/performance.ts] *)

Module ImageCache.

(** A JavaScript [Map] with string keys: the entries in insertion
    order, each key once. *)
Definition JSMap (V : Type) : Type := list (string * V).

Section Maps.
Context {V : Type}.

Definition map_get (key : string) (m : JSMap V) : option V :=
  snd <$> List.find (fun kv => bool_decide (kv.1 = key)) m.

(** [m.set(key, v)]: overwrite in place, or append. *)
Fixpoint map_set (key : string) (v : V) (m : JSMap V) : JSMap V :=
  match m with
  | [] => [(key, v)]
  | (k, x) :: rest =>
      if decide (k = key) then (k, v) :: rest
      else (k, x) :: map_set key v rest
  end.

Definition map_delete (key : string) (m : JSMap V) : JSMap V :=
  List.filter (fun kv => negb (bool_decide (kv.1 = key))) m.

Definition map_size (m : JSMap V) : Z := Z.of_nat (length m).

End Maps.

Section Cache.
Context {Img : Type}.

Record t := mk {
  cache : JSMap Img;
  maxSize : Z;
  accessTimes : JSMap Time
}.

(** [new ImageCache(maxSize)] *)
Definition create (capacity : Z) : t := mk [] capacity [].

(** [get(url)], with the clock read if the image is there. *)
Definition get (url : string) (now : Time) (c : t) : option Img * t :=
  match map_get url (cache c) with
  | Some image =>
      (Some image, mk (cache c) (maxSize c) (map_set url now (accessTimes c)))
  | None => (None, c)
  end.

(** The loop of [evictLRU]: the first entry with the least time below
    the one read from the clock. *)
Definition older (acc : Time * string) (entry : string * Time)
    : Time * string :=
  let '(oldestTime, oldestKey) := acc in
  let '(key, time) := entry in
  if bool_decide (time < oldestTime)%Z then (time, key)
  else (oldestTime, oldestKey).

Definition oldest (now : Time) (times : JSMap Time) : Time * string :=
  foldl older (now, "") times.

Definition evictLRU (now : Time) (c : t) : t :=
  let oldestKey := (oldest now (accessTimes c)).2 in
  if decide (oldestKey = "") then c
  else mk (map_delete oldestKey (cache c)) (maxSize c)
          (map_delete oldestKey (accessTimes c)).

(** [set(url, image)]; [evict_at] is the clock read inside [evictLRU],
    [now] the one read for the access time. *)
Definition set (url : string) (image : Img) (evict_at now : Time) (c : t)
    : t :=
  let c1 :=
    if bool_decide (maxSize c ≤ map_size (cache c))%Z
    then evictLRU evict_at c else c in
  mk (map_set url image (cache c1)) (maxSize c1)
     (map_set url now (accessTimes c1)).

Definition clear (c : t) : t := mk [] (maxSize c) [].

Definition size (c : t) : Z := map_size (cache c).

(** The calls a client can make on a cache. *)
Inductive Op : Type :=
| OpGet (url : string) (now : Time)
| OpSet (url : string) (image : Img) (evict_at now : Time)
| OpClear.

Definition step (c : t) (op : Op) : t :=
  match op with
  | OpGet url now => (get url now c).2
  | OpSet url image evict_at now => set url image evict_at now c
  | OpClear => clear c
  end.

Definition run (c : t) (ops : list Op) : t := foldl step c ops.

End Cache.

Arguments t : clear implicits.
Arguments Op : clear implicits.

End ImageCache.

(** ** Statements and sample data *)

(** What it means for [stored] to be [v] clamped to [[lo, hi]]. *)
Definition clamped_to (v lo hi stored : Q) : Prop :=
  lo <= stored <= hi
  ∧ (lo <= v <= hi → stored == v)
  ∧ (v < lo → stored = lo)
  ∧ (hi < v → stored = hi).

(** The fields of a project that no edit may touch. *)
Definition same_original (p p' : Project) : Prop :=
  image p' = image p
  ∧ title p' = title p ∧ description p' = description p
  ∧ user p' = user p ∧ tags p' = tags p ∧ isPublic p' = isPublic p
  ∧ starred p' = starred p ∧ exports p' = exports p.

(** What the loop over the entries leaves under a key: the clamped
    number, for an allowed key that carries a number. *)
Definition accepted_number (key : string) (value : JS.Value) : option Q :=
  match value, path_of_key key with
  | JS.Num v, Some f => Some (clamp v (schema_range f).1 (schema_range f).2)
  | _, _ => None
  end.

(** The members of [grain]. *)
Inductive GrainPath : Type := GAmount | GSize | GRoughness.

Definition grain_key (m : GrainPath) : string :=
  match m with
  | GAmount => "amount"
  | GSize => "size"
  | GRoughness => "roughness"
  end.

Definition get_grain (m : GrainPath) (g : Grain) : Q :=
  match m with
  | GAmount => amount g
  | GSize => grain_size g
  | GRoughness => roughness g
  end.

(** A member of a [curves] array that is a curve point: an object
    whose [x] and [y] are numbers from 0 to 255. *)
Definition is_curve_point (v : JS.Value) (pt : CurvePoint) : Prop :=
  JS.prop "x" v = Some (JS.Num (px pt))
  ∧ JS.prop "y" v = Some (JS.Num (py pt))
  ∧ 0 <= px pt <= 255 ∧ 0 <= py pt <= 255.

(** The curve points among the members of an array, in their order. *)
Inductive curve_points : list JS.Value → list CurvePoint → Prop :=
| curve_points_nil : curve_points [] []
| curve_points_keep v pt vs pts :
    is_curve_point v pt → curve_points vs pts →
    curve_points (v :: vs) (pt :: pts)
| curve_points_skip v vs pts :
    (∀ pt, ¬ is_curve_point v pt) → curve_points vs pts →
    curve_points (v :: vs) pts.

(** A request that sends an exposure out of range and a curve of four
    members, two of which are curve points. *)
Definition curve_body : gmap string JS.Value :=
  {[ "exposure" := JS.Num 10;
     "curves" :=
       JS.Arr [JS.Obj {[ "x" := JS.Num 0; "y" := JS.Num 0 ]};
               JS.Str "steep";
               JS.Obj {[ "x" := JS.Num 300; "y" := JS.Num 5 ]};
               JS.Obj {[ "x" := JS.Num 255; "y" := JS.Num 255 ]}] ]}.

(** The sentence of the specification by which a number outside the
    range of its field is rejected: the field is left un-applied. *)
Definition out_of_range_rejected : Prop :=
  ∀ body t1 t2 p f v,
    body !! key_of_path f = Some (JS.Num v) →
    ¬ ((schema_range f).1 <= v <= (schema_range f).2) →
    get_path f (adjustments (putAdjustments body t1 t2 p))
    == get_path f (adjustments p).

(** Sample data: an 800 by 600 upload. *)
Definition sample_image : Image :=
  mkImage "photo.jpg" "1700000000000-photo.jpg"
    "uploads/1700000000000-photo.jpg" "image/jpeg" 204800
    (mkDimensions 800 600) None None
    (mkImageMetadata None None None None None None None None
       (Some "srgb") (Some 1)).

Definition sample_project : Project :=
  uploadProject "photo" "" "user-1" sample_image [] 1000%Z 1000%Z 1000%Z.

(** A request that sends two numbers out of range, one grain member
    out of range, one number in range and one value that is no number. *)
Definition sample_body : gmap string JS.Value :=
  {[ "exposure" := JS.Num 10;
     "contrast" := JS.Num (-500);
     "saturation" := JS.Num 20;
     "tint" := JS.Str "warm";
     "grain" := JS.Obj {[ "amount" := JS.Num 150 ]} ]}.

Definition sample_append : Append :=
  mkAppend adjust None 2000%Z 2000%Z.

(** A run of digits, not empty, that spells [z]. *)
Definition digit_text (D : list ascii) (z : Z) : Prop :=
  forallb is_digit D = true ∧ D ≠ [] ∧ value_of D = z.

(** A crop request whose four measures are JSON numbers. *)
Definition number_crop (c : CropRequest) (x y w h : Q) : Prop :=
  req_x c = Some (SNum (F64.Finite x))
  ∧ req_y c = Some (SNum (F64.Finite y))
  ∧ req_width c = Some (SNum (F64.Finite w))
  ∧ req_height c = Some (SNum (F64.Finite h)).

(** A crop of whole pixels: the four measures are integers. *)
Definition pixel_crop (c : CropRequest) (x y w h : Z) : Prop :=
  number_crop c (inject_Z x) (inject_Z y) (inject_Z w) (inject_Z h).

(** The other members as the editor sends them: no rotation or a whole
    number of degrees from -180 to 180, no flip or a boolean, no aspect
    ratio or its name.  [r], [fh], [fv] and [ratio] are what they stand
    for. *)
Definition plain_options (c : CropRequest) (r : Z) (fh fv : bool)
    (ratio : string) : Prop :=
  (req_rotation c = None ∧ r = 0%Z
   ∨ req_rotation c = Some (SNum (F64.of_Z r)) ∧ (-180 ≤ r ≤ 180)%Z)
  ∧ (req_flipHorizontal c = None ∧ fh = false
     ∨ req_flipHorizontal c = Some (SBool fh))
  ∧ (req_flipVertical c = None ∧ fv = false
     ∨ req_flipVertical c = Some (SBool fv))
  ∧ (req_aspectRatio c = None ∧ ratio = "free"
     ∨ req_aspectRatio c = Some (SStr ratio) ∧ ratio ≠ "").

(** An image of [W] by [H] pixels. *)
Definition measures (p : Project) (W H : Z) : Prop :=
  dimensions (image p) = mkDimensions (inject_Z W) (inject_Z H).

(** Integers that doubles count exactly. *)
Definition safe (z : Z) : Prop := (- 2 ^ 53 < z < 2 ^ 53)%Z.

(** The bounds a stored crop must keep within an image. *)
Definition within (s : CropSettings) (d : Dimensions) : Prop :=
  ∃ x y w h,
    crop_x s = F64.Finite x ∧ crop_y s = F64.Finite y
    ∧ crop_width s = F64.Finite w ∧ crop_height s = F64.Finite h
    ∧ 0 <= x ∧ 0 <= y ∧ x + w <= width d ∧ y + h <= height d.

(** The sentence of the specification by which every rectangle
    strictly inside the image is accepted: a crop with a non-negative
    origin and a positive width and height, that ends before the right
    and bottom edges. *)
Definition inside_always_accepted : Prop :=
  ∀ c x y w h t1 t2 p,
    number_crop c x y w h →
    req_rotation c = None → req_flipHorizontal c = None →
    req_flipVertical c = None → req_aspectRatio c = None →
    0 <= x → 0 <= y → 0 < w → 0 < h →
    x + w < width (dimensions (image p)) →
    y + h < height (dimensions (image p)) →
    ∃ p', putCrop c t1 t2 p = inr p'.

Definition number (q : Q) : option Scalar := Some (SNum (F64.Finite q)).

(** A crop of 100.5 by 100 pixels at the origin. *)
Definition fractional_crop : CropRequest :=
  mkCropRequest (number 0) (number 0) (number (201 # 2)) (number 100)
    None None None None.

(** The crop of the specification's scenario. *)
Definition sample_crop : CropRequest :=
  mkCropRequest (number 100) (number 100) (number 400) (number 300)
    (number 0) None None None.

(** The same origin, 701 pixels wide: one pixel past the right edge. *)
Definition wide_crop : CropRequest :=
  mkCropRequest (number 100) (number 100) (number 701) (number 300)
    (number 0) None None None.

(** A crop of no width. *)
Definition empty_crop : CropRequest :=
  mkCropRequest (number 100) (number 100) (number 0) (number 300)
    None None None None.

(** A crop whose measures are sent as strings, 8000 pixels wide. *)
Definition string_crop : CropRequest :=
  mkCropRequest (Some (SStr "0.9")) (Some (SStr "0"))
    (Some (SStr "8000")) (Some (SStr "100")) None None None None.

(** A crop that starts at the first double after 100 and is 700 pixels
    wide: the sum of the two, rounded, is 800. *)
Definition rounded_crop : CropRequest :=
  mkCropRequest (number (100 + 2 ^ (-46))) (number 0) (number 700)
    (number 100) None None None None.

(** A model that differs from the default only in fields the preview
    never reads, with its zeros written as other fractions. *)
Definition unread_fields_set : Adjustments :=
  mkAdjustments (0 # 2) 0 30 (-40) 10 (-10) (0 # 3) 25 50 0 60 70 80 (-90)
    (mkGrain 35 20 80) [mkPoint 0 0; mkPoint 128 200; mkPoint 255 255].

(** The exposure rule of the specification, said of the code: a whole
    number of stops within range gives a gain of two to that power. *)
Definition exposure_doubles_per_stop : Prop :=
  ∀ (a : Adjustments) (stops : Z),
    (-5 ≤ stops ≤ 5)%Z → exposure a == inject_Z stops →
    brightness_gain (exposure_stage a) == spec_exposure_gain stops.

(** The default model with one stop of exposure. *)
Definition one_stop : Adjustments := set_path Exposure 1 default_adjustments.

(** Two images cached within one millisecond by a cache of capacity 1. *)
Definition same_tick_sets : list (ImageCache.Op string) :=
  [ImageCache.OpSet "a.jpg" "image a" 5%Z 5%Z;
   ImageCache.OpSet "b.jpg" "image b" 5%Z 5%Z].

(** An image cached under the empty URL, then another ten
    milliseconds later. *)
Definition empty_url_sets : list (ImageCache.Op string) :=
  [ImageCache.OpSet "" "image a" 1%Z 1%Z;
   ImageCache.OpSet "b.jpg" "image b" 10%Z 10%Z].

(** A run of cache calls on a clock that has moved on between them:
    every reading is later than [last], the latest before it, and the
    two readings of a [set] are in order.  URLs are not empty. *)
Fixpoint later_readings {Img} (last : Time) (ops : list (ImageCache.Op Img))
    : Prop :=
  match ops with
  | [] => True
  | ImageCache.OpGet url now :: rest =>
      (last < now)%Z ∧ later_readings now rest
  | ImageCache.OpSet url _ evict_at now :: rest =>
      url ≠ "" ∧ (last < evict_at)%Z ∧ (evict_at ≤ now)%Z
      ∧ later_readings now rest
  | ImageCache.OpClear :: rest => later_readings last rest
  end.

(** What such a run keeps true of a cache: both maps list the same
    keys, none empty, no access time is after [last], and the images
    are no more than the capacity. *)
Definition cache_ok {Img} (last : Time) (c : ImageCache.t Img) : Prop :=
  (ImageCache.cache c).*1 = (ImageCache.accessTimes c).*1
  ∧ Forall (fun kt => kt.1 ≠ "" ∧ (kt.2 ≤ last)%Z)
      (ImageCache.accessTimes c)
  ∧ (ImageCache.size c ≤ ImageCache.maxSize c)%Z.

(** Three images set a millisecond apart. *)
Definition spaced_sets : list (ImageCache.Op string) :=
  [ImageCache.OpSet "a.jpg" "image a" 5%Z 5%Z;
   ImageCache.OpSet "b.jpg" "image b" 6%Z 6%Z;
   ImageCache.OpGet "b.jpg" 7%Z;
   ImageCache.OpSet "c.jpg" "image c" 8%Z 8%Z].

(** ** Stored documents and requests *)

(** What the schema validators accept on [save]: every numeric path
    and grain member within its [min] and [max].  The handler adds two
    or more curve points, each within the 8-bit square. *)
Definition in_range (r : Q * Q) (v : Q) : Prop := r.1 <= v <= r.2.

Definition grain_in_range (g : Grain) : Prop :=
  ∀ m, in_range grain_range (get_grain m g).

Definition point_in_range (pt : CurvePoint) : Prop :=
  in_range (0, 255) (px pt) ∧ in_range (0, 255) (py pt).

Definition valid_adjustments (a : Adjustments) : Prop :=
  (∀ f, in_range (schema_range f) (get_path f a))
  ∧ grain_in_range (grain a)
  ∧ (2 ≤ length (curves a))%nat
  ∧ Forall point_in_range (curves a).

(** A stored crop: at least one pixel wide and high, rotated within the
    schema's range. *)
Definition valid_crop (s : CropSettings) : Prop :=
  F64.ge (crop_width s) (F64.Finite 1) = true
  ∧ F64.ge (crop_height s) (F64.Finite 1) = true
  ∧ F64.ge (rotation s) (F64.Finite (-180)) = true
  ∧ F64.le (rotation s) (F64.Finite 180) = true.

Definition well_formed (p : Project) : Prop :=
  valid_adjustments (adjustments p)
  ∧ (∀ s, crop p = Some s → valid_crop s)
  ∧ (length (history p) ≤ 50)%nat
  ∧ (1 ≤ version p)%Z.

(** The three edit routes, as requests on a project that was found.  A
    crop request that is refused answers 400 and saves nothing. *)
Inductive Request : Type :=
| AdjustRequest (body : gmap string JS.Value) (pushed_at edited_at : Time)
| CropRequestOf (c : CropRequest) (pushed_at edited_at : Time)
| ResetRequest (pushed_at edited_at : Time).

Definition serve (p : Project) (r : Request) : Project :=
  match r with
  | AdjustRequest body t1 t2 => putAdjustments body t1 t2 p
  | CropRequestOf c t1 t2 =>
      match putCrop c t1 t2 p with
      | inr p' => p'
      | inl _ => p
      end
  | ResetRequest t1 t2 => resetEdits t1 t2 p
  end.

Definition serve_all (p : Project) (rs : list Request) : Project :=
  foldl serve p rs.

(** The requests that change the stored document. *)
Definition accepted (p : Project) (r : Request) : bool :=
  match r with
  | CropRequestOf c t1 t2 =>
      match putCrop c t1 t2 p with
      | inr _ => true
      | inl _ => false
      end
  | _ => true
  end.

(** A body in which nothing can be accepted: no number under an allowed
    key, no [grain] object, no [curves] array. *)
Definition nothing_to_apply (body : gmap string JS.Value) : Prop :=
  (∀ f v, body !! key_of_path f ≠ Some (JS.Num v))
  ∧ (∀ g, body !! "grain" ≠ Some (JS.Obj g))
  ∧ (∀ pts, body !! "curves" ≠ Some (JS.Arr pts)).

(** A request whose only acceptable member is out of range, beside
    members that are ignored. *)
Definition ignored_body : gmap string JS.Value :=
  {[ "exposure" := JS.Str "bright";
     "sharpness" := JS.Num 40;
     "grain" := JS.Num 3;
     "curves" := JS.Null ]}.

(** The history is in the order of its timestamps. *)
Definition chronological (h : list HistoryEntry) : Prop :=
  StronglySorted Z.le (timestamp <$> h).

(** ** The editor page: zoom and placement of the preview *)

(** The [zoom] and [pan] state of the editor page. *)
Record ViewState := mkView { zoom : Q; pan_x : Q; pan_y : Q }.

Definition initial_view : ViewState := mkView 100 0 0.

(** [handleZoomIn], [handleZoomOut], [handleZoomFit] *)
Definition handleZoomIn (v : ViewState) : ViewState :=
  mkView (JS.min (zoom v + 25) 500) (pan_x v) (pan_y v).

Definition handleZoomOut (v : ViewState) : ViewState :=
  mkView (JS.max (zoom v - 25) 25) (pan_x v) (pan_y v).

Definition handleZoomFit (v : ViewState) : ViewState := mkView 100 0 0.

Inductive ZoomButton : Type := ZoomIn | ZoomOut | ZoomFit.

Definition press (v : ViewState) (b : ZoomButton) : ViewState :=
  match b with
  | ZoomIn => handleZoomIn v
  | ZoomOut => handleZoomOut v
  | ZoomFit => handleZoomFit v
  end.

Definition press_all (v : ViewState) (bs : list ZoomButton) : ViewState :=
  foldl press v bs.

(** [parentElement?.clientWidth || fallback]: the fallback when there
    is no parent or its size is 0. *)
Definition containerSize (client : option Q) (fallback : Q) : Q :=
  match client with
  | Some v => if Qeq_bool v 0 then fallback else v
  | None => fallback
  end.

(** Where the rendering effect draws the image: the arguments of
    [ctx.drawImage(image, x, y, imageWidth, imageHeight)]. *)
Record Placement := mkPlacement {
  draw_x : Q;
  draw_y : Q;
  draw_width : Q;
  draw_height : Q
}.

Definition placement (clientWidth clientHeight : option Q)
    (d : Dimensions) (v : ViewState) : Placement :=
  let containerWidth := containerSize clientWidth 800 in
  let containerHeight := containerSize clientHeight 600 in
  let scale :=
    (zoom v / 100)
    * JS.min (containerWidth / width d) (containerHeight / height d) in
  let imageWidth := width d * scale in
  let imageHeight := height d * scale in
  mkPlacement ((containerWidth - imageWidth) / 2 + pan_x v)
              ((containerHeight - imageHeight) / 2 + pan_y v)
              imageWidth imageHeight.

(** ** The editor page: the rendering effect

    The effect that redraws the preview reads the project, the zoom and
    the pan of the page state, the canvas and the image element of the
    two refs and the size of the parent of the canvas; it writes the
    canvas, the [imageData] of the page state and the [onload] handler
    of the image element.  It calls neither the clock nor
    [Math.random]. *)

Section Canvas.

Variable num_to_string : Q → string.

(** The browser: the pixels of a decoded image and of a canvas, the
    bitmap of a canvas whose size was just assigned, and the calls of
    the 2D context the effect makes, each on the bitmap it finds.
    [drawImage] gets the [filter] of the context, [getImageData] fails
    on a canvas tainted by another origin. *)
Variable Pixels Bitmap : Type.
Variable blank : Q → Q → Bitmap.
Variable fillRect : string → Q → Q → Q → Q → Bitmap → Bitmap.
Variable drawImage : string → Pixels → Placement → Bitmap → Bitmap.
Variable getImageData : Placement → Bitmap → option Pixels.

Record Canvas := mkCanvas {
  canvas_width : Q;
  canvas_height : Q;
  bitmap : Bitmap;
  fillStyle : string;
  ctx_filter : string
}.

Record ImageElement := mkImageElement {
  complete : bool;
  decoded : Pixels
}.

(** What the effect reads. *)
Record RenderInput := mkRenderInput {
  in_project : option Project;
  in_view : ViewState;
  in_clientWidth : option Q;
  in_clientHeight : option Q;
  in_image : option ImageElement
}.

(** What the effect writes: the canvas, [imageData] and the handler
    [image.onload], a closure over the project and the placement. *)
Record RenderState := mkRenderState {
  canvas : Canvas;
  imageData : option Pixels;
  onload : option (Project * Placement)
}.

(** [drawWithAdjustments]: the filter is set, the image drawn, the
    filter reset and the drawn pixels handed to the histogram; when
    they cannot be read, [imageData] stays. *)
Definition drawWithAdjustments (p : Project) (where_ : Placement)
    (pixels : Pixels) (st : RenderState) : RenderState :=
  let filters := buildCSSFilters num_to_string (adjustments p) in
  let drawn := drawImage filters pixels where_ (bitmap (canvas st)) in
  mkRenderState
    (mkCanvas (canvas_width (canvas st)) (canvas_height (canvas st)) drawn
       (fillStyle (canvas st)) "none")
    (match getImageData where_ drawn with
     | Some data => Some data
     | None => imageData st
     end)
    (onload st).

(** The effect, on a canvas that is mounted and gives a 2D context;
    without a project or an image element it returns at once.
    Assigning [canvas.width] and [canvas.height] gives the canvas a
    blank bitmap and a context in its initial state; the whole of it
    is then filled with the background.  An image that has not loaded
    yet is drawn by [image.onload]. *)
Definition renderEffect (i : RenderInput) (st : RenderState)
    : RenderState :=
  match in_project i, in_image i with
  | Some p, Some img =>
      let containerWidth := containerSize (in_clientWidth i) 800 in
      let containerHeight := containerSize (in_clientHeight i) 600 in
      let where_ :=
        placement (in_clientWidth i) (in_clientHeight i)
          (dimensions (image p)) (in_view i) in
      let cleared :=
        mkCanvas containerWidth containerHeight
          (fillRect "#1a1a1a" 0 0 containerWidth containerHeight
             (blank containerWidth containerHeight))
          "#1a1a1a" "none" in
      if complete img then
        drawWithAdjustments p where_ (decoded img)
          (mkRenderState cleared (imageData st) (onload st))
      else mkRenderState cleared (imageData st) (Some (p, where_))
  | _, _ => st
  end.

(** The image has loaded: the browser calls [image.onload]. *)
Definition imageLoaded (pixels : Pixels) (st : RenderState) : RenderState :=
  match onload st with
  | Some (p, where_) => drawWithAdjustments p where_ pixels st
  | None => st
  end.

(** A run of the effect after others. *)
Definition renderAll (st : RenderState) (earlier : list RenderInput)
    : RenderState :=
  foldl (fun st i => renderEffect i st) st earlier.

End Canvas.

Arguments mkCanvas {Bitmap}.
Arguments canvas_width {Bitmap}.
Arguments canvas_height {Bitmap}.
Arguments bitmap {Bitmap}.
Arguments fillStyle {Bitmap}.
Arguments ctx_filter {Bitmap}.
Arguments mkImageElement {Pixels}.
Arguments complete {Pixels}.
Arguments decoded {Pixels}.
Arguments mkRenderInput {Pixels}.
Arguments in_project {Pixels}.
Arguments in_view {Pixels}.
Arguments in_clientWidth {Pixels}.
Arguments in_clientHeight {Pixels}.
Arguments in_image {Pixels}.
Arguments mkRenderState {Pixels Bitmap}.
Arguments canvas {Pixels Bitmap}.
Arguments imageData {Pixels Bitmap}.
Arguments onload {Pixels Bitmap}.

(** Two inputs the effect cannot tell apart: the same view, parent
    size and image element, and projects whose images measure the same
    and whose adjustments agree on the four the preview reads.  The
    project has been loaded and the image element is mounted, so the
    effect does not return at once. *)
Definition same_render_inputs {Pixels} (i j : RenderInput Pixels) : Prop :=
  in_view i = in_view j
  ∧ in_clientWidth i = in_clientWidth j
  ∧ in_clientHeight i = in_clientHeight j
  ∧ (∃ img, in_image i = Some img ∧ in_image j = Some img)
  ∧ ∃ p q,
      in_project i = Some p ∧ in_project j = Some q
      ∧ dimensions (image p) = dimensions (image q)
      ∧ exposure (adjustments p) = exposure (adjustments q)
      ∧ contrast (adjustments p) = contrast (adjustments q)
      ∧ saturation (adjustments p) = saturation (adjustments q)
      ∧ temperature (adjustments p) = temperature (adjustments q).

(** A browser for examples: a bitmap is the list of the calls that
    drew it, the pixels of an image are its name. *)
Inductive Drawn : Type :=
| Filled (style : string) (x y w h : Q)
| Painted (filter pixels : string) (at_ : Placement).

Definition example_input (p : Project) (v : ViewState) (loaded : bool)
    : RenderInput string :=
  mkRenderInput (Some p) v (Some 1000) (Some 500)
    (Some (mkImageElement loaded "dunes")).

(** [handleAdjustmentsChange] of the editor page.  The page holds the
    project it loaded, or [null]; of the project only the adjustments
    object is written here. *)
Record EditorState := mkEditor {
  loaded_adjustments : option (gmap string JS.Value);
  hasUnsavedChanges : bool
}.

(** The body of the [forEach] over [Object.keys(newAdjustments)]. *)
Definition merge_number (key : string) (value : JS.Value)
    (updatedAdjustments : gmap string JS.Value) : gmap string JS.Value :=
  match value with
  | JS.Num _ => <[key := value]> updatedAdjustments
  | _ => updatedAdjustments
  end.

Definition handleAdjustmentsChange (newAdjustments : gmap string JS.Value)
    (st : EditorState) : EditorState :=
  match loaded_adjustments st with
  | None => st
  | Some prev =>
      mkEditor (Some (map_fold merge_number prev newAdjustments)) true
  end.

(** What the tone-curve control sends after a drag: the curve as an
    array of [{input, output}] objects. *)
Definition curve_patch (points : list (Q * Q)) : gmap string JS.Value :=
  {[ "curves" :=
       JS.Arr ((fun pt => JS.Obj {[ "input" := JS.Num pt.1;
                                    "output" := JS.Num pt.2 ]})
               <$> points) ]}.

(** ** [processBatch] of the performance utilities *)

(** [arr.slice(start, end)] with JavaScript's handling of negative and
    overlong indices. *)
Definition js_slice {A} (start stop : Z) (arr : list A) : list A :=
  let len := Z.of_nat (length arr) in
  let index i := if (i <? 0)%Z then Z.max (len + i) 0 else Z.min i len in
  take (Z.to_nat (index stop - index start))
       (drop (Z.to_nat (index start)) arr).

(** How the promise of [processBatch] settles. *)
Inductive Settled (R : Type) : Type :=
| Resolved (results : list R)
| Rejected.

Arguments Resolved {R} results.
Arguments Rejected {R}.

(** The loop of [processBatch], from index [i].  A processor returns
    [None] when its promise rejects; [Promise.all] then rejects and
    the loop is left.  The run is the items handed to the processor,
    in order, and the way the promise settles; [None] when the loop has
    not ended after [fuel] rounds. *)
Fixpoint processBatch_from {T R} (processor : T → option R)
    (items : list T) (batchSize : Z) (fuel : nat) (i : Z)
    (started : list T) (results : list R)
    : option (list T * Settled R) :=
  match fuel with
  | O => None
  | S fuel' =>
      if (i <? Z.of_nat (length items))%Z then
        let batch := js_slice i (i + batchSize) items in
        match mapM processor batch with
        | Some batchResults =>
            processBatch_from processor items batchSize fuel'
              (i + batchSize) (started ++ batch) (results ++ batchResults)
        | None => Some (started ++ batch, Rejected)
        end
      else Some (started, Resolved results)
  end.

Definition processBatch {T R} (processor : T → option R)
    (items : list T) (batchSize : Z) (fuel : nat)
    : option (list T * Settled R) :=
  processBatch_from processor items batchSize fuel 0 [] [].

(** A processor that rejects the number 7 and doubles the others. *)
Definition double_but_seven (n : Z) : option Z :=
  if decide (n = 7%Z) then None else Some (2 * n)%Z.

(** ** The collections and the routes on them *)

(** The two fields of a user document the routes read and write. *)
Record User := mkUser { storageUsed : Q; storageLimit : Q }.

(** The [users] and [projects] collections, by [_id]. *)
Record Database := mkDb {
  users : gmap string User;
  projects : gmap string Project
}.

Inductive RouteError : Type :=
| BadRequest (e : HandlerError)   (* 400 from the edit routes *)
| NotFound                        (* 404, 'Project not found' *)
| NoFile                          (* 400, 'No image file provided' *)
| StorageExceeded                 (* 413 *)
| BadImage                        (* 400, 'Could not process image file' *)
| NoImagesProcessed               (* 400, 'No images could be processed' *)
| TooManyFiles                    (* multer's LIMIT_FILE_COUNT *)
| ServerError.                    (* 500 *)

(** [Project.findOne({ _id: req.params.id, user: req.user._id })] *)
Definition findOne (db : Database) (id uid : string) : option Project :=
  match projects db !! id with
  | Some p => if decide (user p = uid) then Some p else None
  | None => None
  end.

(** [project.save()] of a document that was found. *)
Definition save (id : string) (p : Project) (db : Database) : Database :=
  mkDb (users db) (<[id := p]> (projects db)).

(** [User.findByIdAndUpdate(uid, { $inc: { storageUsed: by } })] *)
Definition inc_storage (uid : string) (by_ : Q) (db : Database) : Database :=
  mkDb (alter (fun u => mkUser (storageUsed u + by_) (storageLimit u))
          uid (users db))
       (projects db).

(** [PUT /api/projects/:id/adjustments] *)
Definition routeAdjustments (db : Database) (uid id : string)
    (body : gmap string JS.Value) (pushed_at edited_at : Time)
    : RouteError + Database :=
  match findOne db id uid with
  | None => inl NotFound
  | Some p => inr (save id (putAdjustments body pushed_at edited_at p) db)
  end.

(** [PUT /api/projects/:id/crop]: the validation chain answers before
    the project is looked up. *)
Definition routeCrop (db : Database) (uid id : string) (c : CropRequest)
    (pushed_at edited_at : Time) : RouteError + Database :=
  if negb (crop_fields_valid c) then inl (BadRequest ValidationFailed)
  else
    match findOne db id uid with
    | None => inl NotFound
    | Some p =>
        match putCrop c pushed_at edited_at p with
        | inl SaveRejected => inl ServerError
        | inl e => inl (BadRequest e)
        | inr p' => inr (save id p' db)
        end
    end.

(** [POST /api/projects/:id/reset] *)
Definition routeReset (db : Database) (uid id : string)
    (pushed_at edited_at : Time) : RouteError + Database :=
  match findOne db id uid with
  | None => inl NotFound
  | Some p => inr (save id (resetEdits pushed_at edited_at p) db)
  end.

(** [DELETE /api/projects/:id]: the owner's storage is credited with
    the size of the image and the document is removed. *)
Definition routeDelete (db : Database) (uid id : string)
    : RouteError + Database :=
  match findOne db id uid with
  | None => inl NotFound
  | Some p =>
      let db1 := inc_storage uid (- file_size (image p)) db in
      inr (mkDb (users db1) (delete id (projects db1)))
  end.

(** [projectSchema.statics.getUserStorageUsage]: the sizes of the
    user's images summed and counted, zeros when there is none. *)
Record StorageUsage := mkUsage { totalSize : Q; projectCount : nat }.

Definition owned_sizes (uid : string) (ps : gmap string Project) : list Q :=
  (fun p => file_size (image p))
  <$> filter (fun p => user p = uid) (map_to_list ps).*2.

Definition sum_sizes (sizes : list Q) : Q := foldr Qplus 0 sizes.

Definition getUserStorageUsage (db : Database) (uid : string)
    : StorageUsage :=
  match owned_sizes uid (projects db) with
  | [] => mkUsage 0 0
  | sizes => mkUsage (sum_sizes sizes) (length sizes)
  end.

(** What multer hands to the upload routes for one file. *)
Record UploadedFile := mkFile {
  originalname : string;
  stored_name : string;
  stored_path : string;
  mimetype : string;
  upload_size : Q
}.

(** What the image library reports for a file, [None] when it cannot
    read it, and the variants it wrote. *)
Record Probe := mkProbe {
  probe_metadata : option (Dimensions * option string * option Q);
  probe_thumbnail : option string;
  probe_preview : option string
}.

(** The [image] sub-document the upload routes build. *)
Definition image_of (file : UploadedFile)
    (meta : Dimensions * option string * option Q)
    (thumbnail preview : option string) : Image :=
  mkImage (originalname file) (stored_name file) (stored_path file)
    (mimetype file) (upload_size file) meta.1.1 thumbnail preview
    (mkImageMetadata None None None None None None None None
       meta.1.2 meta.2).

(** [POST /api/upload] for the authenticated user [uid].  [ttl] is the
    title the route settles on, [tgs] the tags it splits out of the
    form field, [id] the [_id] the new document gets. *)
Definition routeUpload (db : Database) (uid : string)
    (file : option UploadedFile) (ttl descr : string) (tgs : list string)
    (probe : Probe) (id : string) (created_at pushed_at edited_at : Time)
    : RouteError + Database :=
  match file with
  | None => inl NoFile
  | Some f =>
      match users db !! uid with
      | None => inl ServerError
      | Some u =>
          if JS.gt (storageUsed u + upload_size f) (storageLimit u)
          then inl StorageExceeded
          else
            match probe_metadata probe with
            | None => inl BadImage
            | Some meta =>
                let project :=
                  uploadProject ttl descr uid
                    (image_of f meta (probe_thumbnail probe)
                       (probe_preview probe))
                    tgs created_at pushed_at edited_at in
                inr (inc_storage uid (upload_size f)
                       (mkDb (users db) (<[id := project]> (projects db))))
            end
      end
  end.

(** The storage a user is charged with is the storage their projects
    take. *)
Definition accounted (db : Database) (uid : string) : Prop :=
  ∃ u, users db !! uid = Some u
       ∧ storageUsed u == totalSize (getUserStorageUsage db uid).

(** Sample data: two users, one project each. *)
Definition sample_file : UploadedFile :=
  mkFile "dunes.png" "image-1700000001000-42.png"
    "uploads/image-1700000001000-42.png" "image/png" 300000.

Definition sample_probe : Probe :=
  mkProbe (Some (mkDimensions 1024 768, Some "srgb", Some 1))
    (Some "thumbnails/image-1700000001000-42.jpg")
    (Some "previews/image-1700000001000-42.jpg").

Definition sample_db : Database :=
  mkDb {[ "user-1" := mkUser 204800 1000000;
          "user-2" := mkUser 0 1000000 ]}
       {[ "project-1" := sample_project ]}.

(** One file of a request to [POST /api/upload/batch]: what multer
    stores of it, what the image library makes of it, the title taken
    from its name, the [_id] its document would get and the clock
    readings of its round. *)
Record BatchItem := mkItem {
  item_file : UploadedFile;
  item_probe : Probe;
  item_title : string;
  item_id : string;
  item_created_at : Time;
  item_pushed_at : Time;
  item_edited_at : Time
}.

(** [limits: { files: 1 }] of the one multer instance both upload
    routes use: [upload.array('images', 10)] passes a request on to
    the handler only if it holds no more files than this. *)
Definition files_limit : nat := 1.

(** [req.files.reduce((sum, file) => sum + file.size, 0)] *)
Definition batch_total (items : list BatchItem) : Q :=
  foldl (fun sum it => sum + upload_size (item_file it)) 0 items.

Definition readable (it : BatchItem) : bool :=
  bool_decide (is_Some (probe_metadata (item_probe it))).

(** One round of the loop over the files: a file the library cannot
    read is passed over, any other becomes a saved project. *)
Definition save_item (uid : string) (ps : gmap string Project)
    (it : BatchItem) : gmap string Project :=
  match probe_metadata (item_probe it) with
  | None => ps (* continue *)
  | Some meta =>
      <[item_id it :=
          uploadProject (item_title it) "" uid
            (image_of (item_file it) meta
               (probe_thumbnail (item_probe it))
               (probe_preview (item_probe it)))
            [] (item_created_at it) (item_pushed_at it)
            (item_edited_at it)]> ps
  end.

(** [POST /api/upload/batch] for the files of a request: multer first,
    then the handler. *)
Definition routeUploadBatch (db : Database) (uid : string)
    (items : list BatchItem) : RouteError + Database :=
  if bool_decide (files_limit < length items)%nat then inl TooManyFiles
  else
    match items with
    | [] => inl NoFile
    | _ =>
        match users db !! uid with
        | None => inl ServerError
        | Some u =>
            let totalSize := batch_total items in
            if JS.gt (storageUsed u + totalSize) (storageLimit u)
            then inl StorageExceeded
            else
              let saved := foldl (save_item uid) (projects db) items in
              if bool_decide (List.filter readable items = [])
              then inl NoImagesProcessed
              else inr (inc_storage uid totalSize (mkDb (users db) saved))
        end
    end.

Definition item_size (it : BatchItem) : Q := upload_size (item_file it).

(** A file that can be read and one that cannot. *)
Definition sample_item : BatchItem :=
  mkItem sample_file sample_probe "dunes" "project-2" 5000%Z 5000%Z 5000%Z.

Definition broken_item : BatchItem :=
  mkItem (mkFile "broken.png" "images-1700000002000-7.png"
            "uploads/images-1700000002000-7.png" "image/png" 100000)
         (mkProbe None None None) "broken" "project-3"
         5001%Z 5001%Z 5001%Z.

(** ** [GET /api/projects]: paging *)

(** Query parameters are modelled by the integers they spell.
    [parseInt(param) || fallback]: the value, the fallback when the
    parameter is absent or 0. *)
Definition int_or (param : option Z) (fallback : Z) : Z :=
  match param with
  | Some v => if decide (v = 0%Z) then fallback else v
  | None => fallback
  end.

(** [optional().isInt({ min, max })] *)
Definition optional_int_in (lo : Z) (hi : option Z) (param : option Z)
    : bool :=
  match param with
  | None => true
  | Some v =>
      bool_decide (lo ≤ v)%Z
      && match hi with
         | Some h => bool_decide (v ≤ h)%Z
         | None => true
         end
  end.

Record Pagination := mkPagination {
  current : Z;
  pages : Z;
  total : Z;
  page_limit : Z
}.

(** The listing route for a query whose other parameters are valid:
    [matching] is what [Project.find(query).sort(...)] yields, of which
    the route skips and limits; [countDocuments] counts the same
    documents. *)
Definition listProjects (matching : list Project) (page limit : option Z)
    : RouteError + (list Project * Pagination) :=
  if negb (optional_int_in 1 None page
           && optional_int_in 1 (Some 50%Z) limit)
  then inl (BadRequest ValidationFailed)
  else
    let page := int_or page 1 in
    let limit := int_or limit 20 in
    let skip := ((page - 1) * limit)%Z in
    let total := Z.of_nat (length matching) in
    inr (take (Z.to_nat limit) (drop (Z.to_nat skip) matching),
         mkPagination page
           (Qceiling (inject_Z total / inject_Z limit)) total limit).

(** The projects of a page that was served, none when it was refused. *)
Definition page_of (matching : list Project) (limit : option Z) (page : Z)
    : list Project :=
  match listProjects matching (Some page) limit with
  | inr (items, _) => items
  | inl _ => []
  end.

(** ** Keyboard shortcuts *)

Section Shortcuts.

(** [String.prototype.toLowerCase], and what a shortcut runs. *)
Variable toLowerCase : string → string.
Variable Act : Type.

Record ShortcutAction := mkShortcut {
  key : string;
  ctrl : option bool;
  shift : option bool;
  alt : option bool;
  meta : option bool;
  shortcut_action : Act;
  preventDefault : option bool
}.

Record KeyEvent := mkKeyEvent {
  event_key : string;
  ctrlKey : bool;
  shiftKey : bool;
  altKey : bool;
  metaKey : bool;
  target_tagName : string;
  target_contentEditable : string
}.

(** [!!flag] on an optional boolean. *)
Definition truthy (flag : option bool) : bool := default false flag.

(** The predicate of [shortcuts.find]. *)
Definition matches (event : KeyEvent) (shortcut : ShortcutAction) : bool :=
  let keyMatch :=
    bool_decide (toLowerCase (key shortcut)
                 = toLowerCase (event_key event)) in
  let ctrlMatch :=
    eqb (truthy (ctrl shortcut)) (ctrlKey event || metaKey event) in
  let shiftMatch := eqb (truthy (shift shortcut)) (shiftKey event) in
  let altMatch := eqb (truthy (alt shortcut)) (altKey event) in
  let metaMatch := eqb (truthy (meta shortcut)) (metaKey event) in
  keyMatch && ctrlMatch && shiftMatch && altMatch && metaMatch.

(** [handleKeyPress]: the action it runs, if any, and whether it calls
    [event.preventDefault()]. *)
Definition handleKeyPress (shortcuts : list ShortcutAction)
    (enabled : bool) (event : KeyEvent) : option (Act * bool) :=
  if negb enabled then None
  else
    let tagName := toLowerCase (target_tagName event) in
    let isContentEditable :=
      bool_decide (target_contentEditable event = "true") in
    if bool_decide (tagName ∈ ["input"; "textarea"; "select"])
       || isContentEditable
    then None
    else
      match List.find (matches event) shortcuts with
      | Some matchingShortcut =>
          Some (shortcut_action matchingShortcut,
                match preventDefault matchingShortcut with
                | Some false => false
                | _ => true
                end)
      | None => None
      end.

End Shortcuts.

Arguments mkShortcut {Act}.
Arguments key {Act}.
Arguments ctrl {Act}.
Arguments shift {Act}.
Arguments alt {Act}.
Arguments meta {Act}.
Arguments shortcut_action {Act}.
Arguments preventDefault {Act}.
Arguments matches toLowerCase {Act}.
Arguments handleKeyPress toLowerCase {Act}.

(** The parameters the preview may hand to the browser: percentages
    from 0 to 200, a hue rotation from -10 to 10 degrees. *)
Definition filter_in_range (f : Filter) : Prop :=
  match f with
  | FBrightness pc | FContrast pc | FSaturate pc => 0 <= pc <= 200
  | FHueRotate dg => -10 <= dg <= 10
  end.

(** The [save] entry of [editorShortcuts], and a key event with the
    Command key held. *)
Definition save_shortcut : ShortcutAction string :=
  mkShortcut "s" (Some true) None None None "save" None.

Definition command_s : KeyEvent :=
  mkKeyEvent "s" false false false true "BODY" "inherit".

(** The same key with the Control key held. *)
Definition control_s : KeyEvent :=
  mkKeyEvent "s" true false false false "BODY" "inherit".

(** * Properties *)

(** ** Numbers *)

Lemma Qeq_bool_false (q : Q) : ¬ q == 0 → Qeq_bool q 0 = false.
Proof.
  intros H. destruct (Qeq_bool q 0) eqn:E; [| done].
  by apply Qeq_bool_iff in E.
Qed.

Lemma Qle_bool_false (a b : Q) : Qle_bool a b = false ↔ b < a.
Proof.
  split.
  - intros H. apply Qnot_le_lt. intros Hle%Qle_bool_iff. congruence.
  - intros H. destruct (Qle_bool a b) eqn:E; [| done].
    apply Qle_bool_iff in E. by apply Qlt_not_le in H.
Qed.

Lemma Qle_bool_proper (a b a' b' : Q) :
  a == a' → b == b' → Qle_bool a b = Qle_bool a' b'.
Proof.
  intros Ha Hb. destruct (Qle_bool a' b') eqn:E.
  - apply Qle_bool_iff. apply Qle_bool_iff in E. by rewrite Ha, Hb.
  - apply Qle_bool_false. apply Qle_bool_false in E. by rewrite Ha, Hb.
Qed.

Lemma Qeq_bool_proper (a a' : Q) : a == a' → Qeq_bool a 0 = Qeq_bool a' 0.
Proof.
  intros Ha. destruct (Qeq_bool a' 0) eqn:E.
  - apply Qeq_bool_iff. apply Qeq_bool_iff in E. by rewrite Ha.
  - apply Qeq_bool_false. intros H. rewrite Ha in H.
    apply Qeq_bool_iff in H. congruence.
Qed.

Lemma max_ge_l a b : a <= JS.max a b.
Proof.
  unfold JS.max. destruct (Qle_bool a b) eqn:E.
  - by apply Qle_bool_iff.
  - apply Qle_refl.
Qed.

Lemma max_ge_r a b : b <= JS.max a b.
Proof.
  unfold JS.max. destruct (Qle_bool a b) eqn:E.
  - apply Qle_refl.
  - apply Qlt_le_weak, Qnot_le_lt. intros H. apply Qle_bool_iff in H.
    congruence.
Qed.

Lemma min_le_r a b : JS.min a b <= b.
Proof.
  unfold JS.min. destruct (Qle_bool a b) eqn:E.
  - by apply Qle_bool_iff.
  - apply Qle_refl.
Qed.

Lemma min_ge a b c : c <= a → c <= b → c <= JS.min a b.
Proof. unfold JS.min. by destruct (Qle_bool a b). Qed.

Lemma clamp_spec v lo hi : lo <= hi → clamped_to v lo hi (clamp v lo hi).
Proof.
  intros Hlh. unfold clamped_to, clamp. repeat split.
  - apply min_ge; [apply max_ge_r | done].
  - apply min_le_r.
  - intros [Hlo Hhi]. unfold JS.min, JS.max.
    destruct (Qle_bool v lo) eqn:E1.
    + apply Qle_bool_iff in E1. rewrite (proj2 (Qle_bool_iff lo hi) Hlh).
      by apply Qle_antisym.
    + by rewrite (proj2 (Qle_bool_iff v hi) Hhi).
  - intros Hlt. unfold JS.min, JS.max.
    rewrite (proj2 (Qle_bool_iff v lo) (Qlt_le_weak _ _ Hlt)).
    by rewrite (proj2 (Qle_bool_iff lo hi) Hlh).
  - intros Hgt. unfold JS.min, JS.max.
    assert (Qle_bool v hi = false) as Hvh.
    { apply not_true_is_false. intros H%Qle_bool_iff.
      by apply Qlt_not_le in Hgt. }
    destruct (Qle_bool v lo) eqn:E1.
    + apply Qle_bool_iff in E1. exfalso. apply (Qlt_not_le _ _ Hgt).
      by apply Qle_trans with lo.
    + by rewrite Hvh.
Qed.

Lemma schema_range_ordered f : fst (schema_range f) <= snd (schema_range f).
Proof. by destruct f. Qed.

(** ** Paths and property names *)

Lemma path_of_key_of_path f : path_of_key (key_of_path f) = Some f.
Proof. by destruct f. Qed.

Lemma path_of_key_Some key f : path_of_key key = Some f → key = key_of_path f.
Proof.
  unfold path_of_key.
  repeat (case_decide as Hk; [intros [= <-]; exact Hk | clear Hk]).
  discriminate.
Qed.

Lemma allowedFields_paths key :
  key ∈ allowedFields ↔ is_Some (path_of_key key).
Proof.
  split.
  - unfold allowedFields. rewrite !elem_of_cons, elem_of_nil.
    intros H. repeat (destruct H as [-> | H]; [by eexists |]). done.
  - intros [f ->%path_of_key_Some]. destruct f; compute; set_solver.
Qed.

Lemma get_set_path f g v a :
  get_path f (set_path g v a) = if decide (f = g) then v else get_path f a.
Proof. destruct f, g; reflexivity. Qed.

Lemma grain_set_path g v a : grain (set_path g v a) = grain a.
Proof. by destruct g. Qed.

Lemma curves_set_path g v a : curves (set_path g v a) = curves a.
Proof. by destruct g. Qed.

(** ** The history ledger *)

Lemma slice_last_length {A} k (l : list A) :
  length (JS.slice_last k l) = Nat.min k (length l).
Proof. unfold JS.slice_last. rewrite length_drop. lia. Qed.

Lemma slice_last_short {A} k (l : list A) :
  (length l ≤ k)%nat → JS.slice_last k l = l.
Proof.
  intros H. unfold JS.slice_last.
  by replace (length l - k)%nat with 0%nat by lia.
Qed.

Lemma slice_last_app {A} k (l l' : list A) :
  JS.slice_last k (JS.slice_last k l ++ l') = JS.slice_last k (l ++ l').
Proof.
  destruct (decide (length l ≤ k)%nat) as [Hle | Hgt].
  { by rewrite (slice_last_short k l). }
  unfold JS.slice_last at 1 3.
  rewrite !length_app, slice_last_length.
  replace (Nat.min k (length l) + length l' - k)%nat with (length l') by lia.
  replace (length l + length l' - k)%nat
    with ((length l - k) + length l')%nat by lia.
  rewrite <- drop_drop. f_equal.
  unfold JS.slice_last. rewrite drop_app_le by lia. done.
Qed.

Lemma addHistory_history act chg t1 t2 p :
  history (addHistory act chg t1 t2 p)
  = JS.slice_last 50 (history p ++ [mkEntry act (default NoChanges chg) t1]).
Proof.
  unfold addHistory; simpl. case_bool_decide as H; [done |].
  symmetry. apply slice_last_short. lia.
Qed.

Lemma appends_history p l :
  (length (history p) ≤ 50)%nat →
  history (appends p l) = JS.slice_last 50 (history p ++ (entry_of <$> l)).
Proof.
  revert p. induction l as [| a l IH]; intros p Hp; simpl.
  - rewrite app_nil_r. symmetry. by apply slice_last_short.
  - unfold appends in IH. rewrite IH.
    + unfold append at 1. rewrite addHistory_history, slice_last_app.
      by rewrite <- app_assoc.
    + unfold append. rewrite addHistory_history, slice_last_length. lia.
Qed.

(** C6. The history of a project never holds more than 50 entries:
    after any run of appends to a project within the cap it holds
    exactly the last 50 of the old entries followed by the new ones,
    and an append to a full history drops the oldest entry and keeps
    the other 49 before the new one. *)
Theorem history_capped_at_50 (p : Project) (l : list Append) :
  (length (history p) ≤ 50)%nat →
  let p' := appends p l in
  (length (history p') ≤ 50)%nat
  ∧ history p' = JS.slice_last 50 (history p ++ (entry_of <$> l))
  ∧ ∀ a : Append,
      length (history p') = 50%nat →
      history (append p' a) = tail (history p') ++ [entry_of a].
Proof.
  intros Hp p'. subst p'. rewrite appends_history by done.
  split; [| split; [done |]].
  - rewrite slice_last_length. lia.
  - intros a H50. unfold append. rewrite addHistory_history.
    rewrite appends_history by done.
    set (h := JS.slice_last 50 _) in *.
    unfold JS.slice_last. rewrite length_app, H50. simpl.
    destruct h; [done |]. reflexivity.
Qed.

(** C7. Every append adds exactly one to the version and sets the
    last-edited time to the clock reading, whatever the length of the
    history; so do the three edit methods and the upload, which append
    once each. *)
Theorem append_bumps_version (p : Project) (pushed_at edited_at : Time) :
  (∀ act chg,
     let p' := addHistory act chg pushed_at edited_at p in
     version p' = (version p + 1)%Z ∧ lastEdited p' = edited_at)
  ∧ (∀ patch,
     let p' := applyAdjustments patch pushed_at edited_at p in
     version p' = (version p + 1)%Z ∧ lastEdited p' = edited_at)
  ∧ (∀ c,
     let p' := applyCrop c pushed_at edited_at p in
     version p' = (version p + 1)%Z ∧ lastEdited p' = edited_at)
  ∧ (let p' := resetEdits pushed_at edited_at p in
     version p' = (version p + 1)%Z ∧ lastEdited p' = edited_at)
  ∧ (∀ ttl descr owner img tgs created_at,
     let p' := uploadProject ttl descr owner img tgs created_at
                 pushed_at edited_at in
     version p' = 2%Z ∧ lastEdited p' = edited_at).
Proof. repeat split. Qed.

(** C9. [applyAdjustments], [applyCrop] and [resetEdits] leave the
    record of the original image (file name, path, size, dimensions,
    metadata) and every field other than the adjustments, the crop,
    the history, the version and the last-edited time as they were;
    an adjustment keeps the crop and a crop keeps the adjustments. *)
Theorem edits_preserve_original (p : Project) (pushed_at edited_at : Time) :
  (∀ patch,
     let p' := applyAdjustments patch pushed_at edited_at p in
     same_original p p' ∧ crop p' = crop p)
  ∧ (∀ c,
     let p' := applyCrop c pushed_at edited_at p in
     same_original p p' ∧ adjustments p' = adjustments p)
  ∧ same_original p (resetEdits pushed_at edited_at p).
Proof. unfold same_original. repeat split. Qed.

(** ** The adjustment handler *)

Lemma validate_entry_lookup key value valid k :
  validate_entry key value valid !! k
  = if decide (key = k) then
      match accepted_number key value with
      | Some q => Some q
      | None => valid !! k
      end
    else valid !! k.
Proof.
  unfold validate_entry, accepted_number.
  destruct value; try (by case_decide).
  case_bool_decide as Hin.
  - apply allowedFields_paths in Hin as [f Hf]. rewrite Hf.
    apply path_of_key_Some in Hf as ->.
    destruct f; simpl; case_decide; simplify_map_eq; done.
  - destruct (path_of_key key) eqn:Hf; [| by case_decide].
    exfalso. apply Hin, allowedFields_paths. by eexists.
Qed.

Lemma validate_numbers_lookup body k :
  validate_numbers body !! k = body !! k ≫= accepted_number k.
Proof.
  unfold validate_numbers.
  apply (map_fold_weak_ind
    (fun r m => r !! k = m !! k ≫= accepted_number k)); [done |].
  intros i x m r Hi IH. rewrite validate_entry_lookup.
  case_decide as Hik.
  - subst i. rewrite lookup_insert_eq. simpl.
    destruct (accepted_number k x); [done |].
    by rewrite IH, Hi.
  - by rewrite lookup_insert_ne.
Qed.

Lemma assign_numbers_get a (m : gmap string Q) f :
  get_path f (map_fold assign_number a m)
  = default (get_path f a) (m !! key_of_path f).
Proof.
  apply (map_fold_weak_ind
    (fun r m => get_path f r = default (get_path f a) (m !! key_of_path f)));
    [done |].
  intros i x m' r Hi IH. unfold assign_number.
  destruct (path_of_key i) as [g |] eqn:Hg.
  - apply path_of_key_Some in Hg as ->. rewrite get_set_path.
    case_decide as Hfg.
    + subst g. by rewrite lookup_insert_eq.
    + rewrite lookup_insert_ne; [done |].
      intros Heq. apply Hfg.
      assert (Some g = Some f) as [= ->]; [| done].
      by rewrite <- !path_of_key_of_path, Heq.
  - rewrite lookup_insert_ne; [done |].
    intros ->. by rewrite path_of_key_of_path in Hg.
Qed.

Lemma assign_numbers_grain a (m : gmap string Q) :
  grain (map_fold assign_number a m) = grain a.
Proof.
  apply (map_fold_weak_ind (fun r _ => grain r = grain a)); [done |].
  intros i x m' r _ IH. unfold assign_number.
  destruct (path_of_key i); [by rewrite grain_set_path | done].
Qed.

Lemma assign_numbers_curves a (m : gmap string Q) :
  curves (map_fold assign_number a m) = curves a.
Proof.
  apply (map_fold_weak_ind (fun r _ => curves r = curves a)); [done |].
  intros i x m' r _ IH. unfold assign_number.
  destruct (path_of_key i); [by rewrite curves_set_path | done].
Qed.

Lemma object_assign_get a new f :
  get_path f (object_assign a new)
  = default (get_path f a) (patch_numbers new !! key_of_path f).
Proof.
  unfold object_assign. rewrite <- assign_numbers_get.
  by destruct (patch_grain new), (patch_curves new), f.
Qed.

Lemma object_assign_grain a new :
  grain (object_assign a new) = default (grain a) (patch_grain new).
Proof.
  unfold object_assign.
  destruct (patch_grain new), (patch_curves new); simpl;
    by rewrite ?assign_numbers_grain.
Qed.

Lemma object_assign_curves a new :
  curves (object_assign a new) = default (curves a) (patch_curves new).
Proof.
  unfold object_assign.
  destruct (patch_grain new), (patch_curves new); simpl;
    by rewrite ?assign_numbers_curves.
Qed.

(** The stored value of a path after the handler ran: the number sent
    under its name, clamped; otherwise what was stored. *)
Lemma putAdjustments_get body t1 t2 p f :
  get_path f (adjustments (putAdjustments body t1 t2 p))
  = match body !! key_of_path f with
    | Some (JS.Num v) => clamp v (schema_range f).1 (schema_range f).2
    | _ => get_path f (adjustments p)
    end.
Proof.
  unfold putAdjustments, applyAdjustments; simpl.
  rewrite object_assign_get; simpl. rewrite validate_numbers_lookup.
  destruct (body !! key_of_path f) as [value |]; [| done]; simpl.
  unfold accepted_number. rewrite path_of_key_of_path.
  by destruct value.
Qed.

(** The stored grain after the handler ran. *)
Lemma putAdjustments_grain body t1 t2 p :
  grain (adjustments (putAdjustments body t1 t2 p))
  = default (grain (adjustments p))
      (validate_grain body (grain (adjustments p))).
Proof.
  unfold putAdjustments, applyAdjustments; simpl.
  by rewrite object_assign_grain.
Qed.

Lemma putAdjustments_curves body t1 t2 p :
  curves (adjustments (putAdjustments body t1 t2 p))
  = default (curves (adjustments p)) (validate_curves body).
Proof.
  unfold putAdjustments, applyAdjustments; simpl.
  by rewrite object_assign_curves.
Qed.

Lemma putAdjustments_grain_member body t1 t2 p m :
  get_grain m (grain (adjustments (putAdjustments body t1 t2 p)))
  = match body !! "grain" with
    | Some (JS.Obj g) =>
        match g !! grain_key m with
        | Some (JS.Num v) => clamp v 0 100
        | _ => get_grain m (grain (adjustments p))
        end
    | _ => get_grain m (grain (adjustments p))
    end.
Proof.
  rewrite putAdjustments_grain. unfold validate_grain.
  destruct (body !! "grain") as [[] |]; try done.
  unfold grain_member.
  case_bool_decide as Hany; simpl.
  - destruct m; simpl;
      repeat match goal with
             | |- context [props !! ?k] => destruct (props !! k) as [[] |]
             end; done.
  - destruct m; simpl;
      repeat match goal with
             | |- context [props !! ?k] =>
                 let E := fresh in destruct (props !! k) as [[] |] eqn:E
             end; try done; exfalso; apply Hany; eauto.
Qed.

(** C3. A number written to an adjustment field through the handler is
    stored clamped to the range of the field, for the fourteen scalar
    fields and the three members of [grain]: inside the range it is
    stored as sent, below it the minimum is stored, above it the
    maximum. *)
Theorem numbers_clamped_on_write (body : gmap string JS.Value)
    (pushed_at edited_at : Time) (p : Project) :
  let a' := adjustments (putAdjustments body pushed_at edited_at p) in
  (∀ f v,
     body !! key_of_path f = Some (JS.Num v) →
     clamped_to v (schema_range f).1 (schema_range f).2 (get_path f a'))
  ∧ (∀ g m v,
     body !! "grain" = Some (JS.Obj g) →
     g !! grain_key m = Some (JS.Num v) →
     clamped_to v grain_range.1 grain_range.2 (get_grain m (grain a'))).
Proof.
  split.
  - intros f v Hf. rewrite putAdjustments_get, Hf.
    apply clamp_spec, schema_range_ordered.
  - intros g m v Hg Hm. rewrite putAdjustments_grain_member, Hg, Hm.
    by apply clamp_spec.
Qed.

Lemma valid_point_spec (v : JS.Value) :
  match valid_point v with
  | Some pt => is_curve_point v pt
  | None => ∀ pt, ¬ is_curve_point v pt
  end.
Proof.
  unfold valid_point, is_curve_point.
  destruct (JS.prop "x" v) as [[x | | | | |] |];
    try (by intros pt (? & _)).
  destruct (JS.prop "y" v) as [[y | | | | |] |];
    try (by intros pt (_ & ? & _)).
  destruct (_ && _) eqn:Hin.
  - rewrite !andb_true_iff, !Qle_bool_iff in Hin. simpl. tauto.
  - intros [ptx pty] ([= <-] & [= <-] & Hx & Hy). simpl in *.
    rewrite !andb_false_iff in Hin.
    destruct Hin as [[[Hin | Hin] | Hin] | Hin];
      apply Qle_bool_false in Hin; lra.
Qed.

Lemma filter_curve_points (vs : list JS.Value) :
  curve_points vs (omap valid_point vs).
Proof.
  induction vs as [| v vs IH]; simpl; [constructor |].
  pose proof (valid_point_spec v) as Hv.
  destruct (valid_point v) as [pt |]; by constructor.
Qed.

(** C8, as amended. Each field of a batch is decided on its own: a
    scalar field or grain member that carries a number is stored,
    clamped to its range; one that is absent or carries anything else
    keeps its stored value.  When the request carries an array of
    curves, its members that are curve points (objects whose [x] and
    [y] are numbers from 0 to 255) replace the stored curve, in their
    order, if there are two or more of them; with fewer, or without an
    array, the stored curve is kept.  No field depends on what the
    request says about another. *)
Theorem fields_validated_one_by_one (body : gmap string JS.Value)
    (pushed_at edited_at : Time) (p : Project) :
  let a := adjustments p in
  let a' := adjustments (putAdjustments body pushed_at edited_at p) in
  (∀ f,
     get_path f a'
     = match body !! key_of_path f with
       | Some (JS.Num v) => clamp v (schema_range f).1 (schema_range f).2
       | _ => get_path f a
       end)
  ∧ (∀ m,
     get_grain m (grain a')
     = match body !! "grain" with
       | Some (JS.Obj g) =>
           match g !! grain_key m with
           | Some (JS.Num v) => clamp v grain_range.1 grain_range.2
           | _ => get_grain m (grain a)
           end
       | _ => get_grain m (grain a)
       end)
  ∧ (∀ vs, body !! "curves" = Some (JS.Arr vs) →
       ∃ pts, curve_points vs pts
              ∧ ((2 ≤ length pts)%nat → curves a' = pts)
              ∧ ((length pts < 2)%nat → curves a' = curves a))
  ∧ ((∀ vs, body !! "curves" ≠ Some (JS.Arr vs)) → curves a' = curves a).
Proof.
  cbv zeta. split; [| split; [| split]].
  - intros f. apply putAdjustments_get.
  - intros m. apply putAdjustments_grain_member.
  - intros vs Hvs. exists (omap valid_point vs).
    split; [apply filter_curve_points |].
    rewrite putAdjustments_curves. unfold validate_curves. rewrite Hvs.
    split; intros Hlen.
    + by rewrite bool_decide_eq_true_2.
    + rewrite bool_decide_eq_false_2 by lia. done.
  - intros Hnone. rewrite putAdjustments_curves. unfold validate_curves.
    destruct (body !! "curves") as [[| | | | vs |] |]; try done.
    by destruct (Hnone vs).
Qed.

Lemma fields_validated_one_by_one_witness :
  let a' :=
    adjustments (putAdjustments curve_body 2000%Z 2000%Z sample_project) in
  curves a' = [mkPoint 0 0; mkPoint 255 255]
  ∧ curves
      (adjustments
         (putAdjustments sample_body 2000%Z 2000%Z sample_project))
    = default_curves.
Proof.
  cbv zeta. split.
  - destruct (fields_validated_one_by_one curve_body 2000%Z 2000%Z
                sample_project) as (_ & _ & Hcurves & _).
    destruct (Hcurves _ eq_refl) as (pts & Hpts & Hmany & _).
    assert (pts = [mkPoint 0 0; mkPoint 255 255]) as ->.
    { inversion Hpts as [| v pt vs pts1 Hpt Hrest | v vs pts1 Hno Hrest]; subst.
      2: { exfalso. apply (Hno (mkPoint 0 0)). repeat split; discriminate. }
      destruct Hpt as ([= Hx] & [= Hy] & _). destruct pt as [x y].
      simpl in Hx, Hy. subst x y. f_equal.
      inversion Hrest as [| v pt vs pts2 Hpt Hrest2 | v vs pts2 Hno Hrest2];
        subst; [by destruct Hpt as (? & _) |].
      inversion Hrest2 as [| v pt vs pts3 Hpt Hrest3 | v vs pts3 Hno3 Hrest3];
        subst.
      { destruct Hpt as ([= Hx] & _ & [_ Hle] & _). rewrite <- Hx in Hle.
        by apply Qle_not_lt in Hle. }
      inversion Hrest3 as [| v pt vs pts4 Hpt Hrest4 | v vs pts4 Hno4 Hrest4];
        subst.
      2: { exfalso. apply (Hno4 (mkPoint 255 255)).
           repeat split; discriminate. }
      destruct Hpt as ([= Hx] & [= Hy] & _). destruct pt as [x y].
      simpl in Hx, Hy. subst x y. f_equal. by inversion Hrest4. }
    apply Hmany. simpl. lia.
  - destruct (fields_validated_one_by_one sample_body 2000%Z 2000%Z
                sample_project) as (_ & _ & _ & Hkept).
    apply Hkept. intros vs. discriminate.
Defined.

Lemma numbers_clamped_on_write_witness :
  let a' :=
    adjustments (putAdjustments sample_body 2000%Z 2000%Z sample_project) in
  exposure a' = 5 ∧ contrast a' = -100 ∧ saturation a' == 20
  ∧ amount (grain a') = 100.
Proof.
  destruct (numbers_clamped_on_write sample_body 2000%Z 2000%Z sample_project)
    as [Hnum Hgrain].
  split; [| split; [| split]].
  - apply (Hnum Exposure 10); reflexivity.
  - apply (Hnum Contrast (-500)); reflexivity.
  - apply (Hnum Saturation 20); [reflexivity | split; discriminate].
  - apply (Hgrain {[ "amount" := JS.Num 150 ]} GAmount 150); reflexivity.
Defined.

Lemma history_capped_at_50_witness :
  let p' := appends sample_project (replicate 49 sample_append) in
  length (history p') = 50%nat
  ∧ history (append p' sample_append)
    = tail (history p') ++ [entry_of sample_append].
Proof.
  assert (length (history sample_project) ≤ 50)%nat as Hcap
    by (vm_compute; lia).
  destruct (history_capped_at_50 sample_project
              (replicate 49 sample_append) Hcap) as (_ & _ & Hfull).
  split; [reflexivity |].
  apply Hfull. reflexivity.
Defined.

(** C8, as stated, fails: a number out of range is not left un-applied.
    Sending exposure 10 to a project whose exposure is 0 stores 5. *)
Lemma out_of_range_not_rejected : ¬ out_of_range_rejected.
Proof.
  intros Hclaim.
  specialize (Hclaim sample_body 2000%Z 2000%Z sample_project Exposure 10).
  assert (get_path Exposure
            (adjustments
               (putAdjustments sample_body 2000%Z 2000%Z sample_project))
          = 5) as Hstored by reflexivity.
  rewrite Hstored in Hclaim.
  assert (5 == 0) as Habsurd; [| discriminate Habsurd].
  apply Hclaim; [reflexivity |].
  intros [_ Hle]. by apply Hle.
Qed.

(** ** Comparisons *)

Lemma lt_true a b : JS.lt a b = true ↔ a < b.
Proof.
  unfold JS.lt. rewrite negb_true_iff. split.
  - intros H. apply Qnot_le_lt. intros Hle%Qle_bool_iff. congruence.
  - intros H. apply not_true_is_false. intros Hle%Qle_bool_iff.
    by apply Qlt_not_le in H.
Qed.

Lemma lt_false a b : JS.lt a b = false ↔ b <= a.
Proof.
  unfold JS.lt. rewrite negb_false_iff. apply Qle_bool_iff.
Qed.

(** ** Doubles *)

Lemma pow2_pos (e : Z) : 0 < 2 ^ e.
Proof. by apply Qpower_0_lt. Qed.

Lemma pow10_pos (e : Z) : 0 < 10 ^ e.
Proof. by apply Qpower_0_lt. Qed.

Lemma pow_inject (b n : Z) : (0 ≤ n)%Z → inject_Z (b ^ n) == inject_Z b ^ n.
Proof. apply Zpower_Qpower. Qed.

Lemma pow_lt_inv (b : Q) (n m : Z) : 1 < b → b ^ n < b ^ m → (n < m)%Z.
Proof. intros Hb H. by apply (Qpower_lt_compat_l_inv b). Qed.

Lemma pow_le (b : Q) (n m : Z) : 1 <= b → (n ≤ m)%Z → b ^ n <= b ^ m.
Proof. intros Hb H. by apply Qpower_le_compat_l. Qed.

(** An integer below a power of the base and its logarithm. *)
Lemma ilog2_spec (a : Q) :
  0 < a → 2 ^ F64.ilog2 a <= a ∧ a < 2 ^ (F64.ilog2 a + 1).
Proof.
  intros Ha. unfold F64.ilog2.
  destruct a as [n d]. cbn [Qnum Qden].
  assert (0 < n)%Z as Hn by (unfold Qlt in Ha; simpl in Ha; lia).
  pose proof (Z.log2_spec n Hn) as [Hn1 Hn2].
  pose proof (Z.log2_spec (Zpos d) (Pos2Z.is_pos d)) as [Hd1 Hd2].
  pose proof (Z.log2_nonneg n) as Hln.
  pose proof (Z.log2_nonneg (Zpos d)) as Hld.
  set (ln := Z.log2 n) in *. set (ld := Z.log2 (Zpos d)) in *.
  assert (n # d == inject_Z n / inject_Z (Zpos d)) as Hnd by apply Qmake_Qdiv.
  assert (0 < inject_Z (Z.pos d)) as Hdpos by (unfold Qlt; simpl; lia).
  assert (∀ k, 2 ^ k <= n # d ↔ 2 ^ k * inject_Z (Zpos d) <= inject_Z n) as Hle.
  { intros k. rewrite Hnd. split; intros H.
    - apply (Qmult_le_r _ _ (/ inject_Z (Z.pos d))); [by apply Qinv_lt_0_compat |].
      rewrite <- Qmult_assoc, Qmult_inv_r, Qmult_1_r; [done |].
      intros H0. rewrite H0 in Hdpos. by apply Qlt_irrefl in Hdpos.
    - apply (Qmult_le_r _ _ (inject_Z (Z.pos d))); [done |].
      unfold Qdiv.
      rewrite <- (Qmult_assoc (inject_Z n)), (Qmult_comm (/ _)),
        Qmult_inv_r, Qmult_1_r; [done |].
      intros H0. rewrite H0 in Hdpos. by apply Qlt_irrefl in Hdpos. }
  assert (∀ k, n # d < 2 ^ k ↔ inject_Z n < 2 ^ k * inject_Z (Zpos d)) as Hlt.
  { intros k. split; intros H.
    - apply Qnot_le_lt. intros Hc. apply Hle in Hc. by apply Qle_not_lt in Hc.
    - apply Qnot_le_lt. intros Hc. apply Hle in Hc. by apply Qle_not_lt in Hc. }
  assert (inject_Z (2 ^ ln) == 2 ^ ln) as Epn by (by apply pow_inject).
  assert (inject_Z (2 ^ ld) == 2 ^ ld) as Epd by (by apply pow_inject).
  assert (inject_Z (2 ^ (ln + 1)) == 2 ^ (ln + 1)) as Epn1
    by (apply pow_inject; lia).
  assert (inject_Z (2 ^ (ld + 1)) == 2 ^ (ld + 1)) as Epd1
    by (apply pow_inject; lia).
  assert (∀ i j : Z, (2:Q) ^ (i + j) == 2 ^ i * 2 ^ j) as Hplus
    by (intros; by apply Qpower_plus).
  assert (n < 2 ^ (ln + 1))%Z as Hn3
    by (replace (ln + 1)%Z with (Z.succ ln) by lia; exact Hn2).
  assert (Z.pos d < 2 ^ (ld + 1))%Z as Hd3
    by (replace (ld + 1)%Z with (Z.succ ld) by lia; exact Hd2).
  clear Hn2 Hd2.
  rewrite Zle_Qle in Hn1, Hd1. rewrite Zlt_Qlt in Hn3, Hd3.
  rewrite Epn in Hn1. rewrite Epd in Hd1. rewrite Epn1 in Hn3. rewrite Epd1 in Hd3.
  pose proof (pow2_pos ld) as Hpd. pose proof (pow2_pos ln) as Hpn.
  destruct (Qle_bool (2 ^ (ln - ld)) (n # d)) eqn:Htest.
  - apply Qle_bool_iff in Htest. split; [exact Htest |].
    apply Hlt.
    (* n < 2^(ln+1) = 2^(ln-ld+1) * 2^ld <= 2^(ln - ld + 1) * d *)
    eapply Qlt_le_trans; [exact Hn3 |].
    replace (ln + 1)%Z with ((ln - ld + 1) + ld)%Z by lia. rewrite Hplus.
    apply Qmult_le_l; [apply pow2_pos | done].
  - assert (¬ 2 ^ (ln - ld) <= n # d) as Hno.
    { intros H%Qle_bool_iff. congruence. }
    apply Qnot_le_lt in Hno. replace (ln - ld - 1 + 1)%Z with (ln - ld)%Z by lia.
    split; [| exact Hno].
    apply Hle.
    (* 2^(ln-ld-1) * d <= 2^(ln-ld-1) * 2^(ld+1) = 2^ln <= n *)
    eapply Qle_trans; [| exact Hn1].
    replace ln with ((ln - ld - 1) + (ld + 1))%Z at 2 by lia. rewrite Hplus.
    apply Qmult_le_l; [apply pow2_pos |]. by apply Qlt_le_weak.
Qed.

Lemma ilog2_unique (a : Q) (k : Z) :
  0 < a → 2 ^ k <= a → a < 2 ^ (k + 1) → F64.ilog2 a = k.
Proof.
  intros Ha H1 H2. destruct (ilog2_spec a Ha) as [H3 H4].
  assert (k < F64.ilog2 a + 1)%Z.
  { apply (pow_lt_inv 2); [done |]. by eapply Qle_lt_trans. }
  assert (F64.ilog2 a < k + 1)%Z.
  { apply (pow_lt_inv 2); [done |]. by eapply Qle_lt_trans. }
  lia.
Qed.


#[global] Instance round_half_even_proper :
  Proper (Qeq ==> eq) F64.round_half_even.
Proof.
  intros a b H. unfold F64.round_half_even.
  rewrite (Qfloor_comp a b H).
  by rewrite (Qcompare_comp (a - inject_Z (Qfloor b)) (b - inject_Z (Qfloor b))
                (ltac:(by rewrite H)) (1 # 2) (1 # 2) (Qeq_refl _)).
Qed.

Lemma round_half_even_cases (a : Q) :
  F64.round_half_even a = Qfloor a
  ∨ F64.round_half_even a = (Qfloor a + 1)%Z ∧ 1 # 2 <= a - inject_Z (Qfloor a).
Proof.
  unfold F64.round_half_even.
  destruct (Qcompare_spec (a - inject_Z (Qfloor a)) (1 # 2)) as [H | H | H].
  - destruct (Z.even _); [by left | right]. split; [done |]. by rewrite H.
  - by left.
  - right. split; [done | by apply Qlt_le_weak].
Qed.

Lemma round_half_even_le (a : Q) (N : Z) :
  a <= inject_Z N → (F64.round_half_even a ≤ N)%Z.
Proof.
  intros Ha.
  assert (Qfloor a ≤ N)%Z as Hf.
  { rewrite <- (Qfloor_Z N). by apply Qfloor_resp_le. }
  destruct (round_half_even_cases a) as [-> | [-> Hhalf]]; [done |].
  destruct (Z.eq_dec (Qfloor a) N) as [E | E]; [| lia].
  exfalso. rewrite E in Hhalf.
  assert (a - inject_Z N <= 0) by lra. lra.
Qed.

Lemma round_half_even_ge (a : Q) (N : Z) :
  inject_Z N <= a → (N ≤ F64.round_half_even a)%Z.
Proof.
  intros Ha.
  assert (N ≤ Qfloor a)%Z as Hf.
  { rewrite <- (Qfloor_Z N). by apply Qfloor_resp_le. }
  destruct (round_half_even_cases a) as [-> | [-> _]]; lia.
Qed.

Lemma round_half_even_Z (z : Z) : F64.round_half_even (inject_Z z) = z.
Proof.
  apply Z.le_antisymm.
  - apply round_half_even_le. apply Qle_refl.
  - apply round_half_even_ge. apply Qle_refl.
Qed.

Lemma Qabs_pos_lt (q : Q) : ¬ q == 0 → 0 < Qabs q.
Proof.
  intros H. destruct (Qle_lt_or_eq _ _ (Qabs_nonneg q)) as [? | E]; [done |].
  exfalso. apply H. destruct (Qlt_le_dec q 0) as [Hq | Hq].
  - rewrite Qabs_neg in E by (by apply Qlt_le_weak). lra.
  - rewrite Qabs_pos in E by done. by symmetry.
Qed.

#[global] Instance round_proper : Proper (Qeq ==> eq) F64.round.
Proof.
  intros q q' H. unfold F64.round.
  rewrite (Qeq_bool_proper q q' H).
  destruct (Qeq_bool q' 0) eqn:E0; [done |].
  assert (¬ q == 0) as Hq.
  { intros Hz. rewrite H in Hz. apply Qeq_bool_iff in Hz. congruence. }
  assert (Qabs q == Qabs q') as Ha by (by rewrite H).
  assert (F64.ilog2 (Qabs q) = F64.ilog2 (Qabs q')) as ->.
  { pose proof (Qabs_pos_lt q Hq) as Hpos.
    destruct (ilog2_spec (Qabs q) Hpos) as [H1 H2]. symmetry.
    apply ilog2_unique; by rewrite <- Ha. }
  set (e := Z.max _ _).
  assert (F64.round_half_even (Qabs q / 2 ^ e)
          = F64.round_half_even (Qabs q' / 2 ^ e)) as ->.
  { apply round_half_even_proper. by rewrite Ha. }
  rewrite (Qle_bool_proper 0 q 0 q' (Qeq_refl _) H). done.
Qed.

(** What [round] does to a rational that is not zero. *)
Lemma round_unfold (q : Q) :
  ¬ q == 0 →
  let a := Qabs q in
  let e := Z.max (F64.ilog2 a - 52) (-1074) in
  let v := inject_Z (F64.round_half_even (a / 2 ^ e)) * 2 ^ e in
  0 <= v
  ∧ F64.round q
    = if Qle_bool (2 ^ 1024) v then (if Qle_bool 0 q then F64.PosInf
                                     else F64.NegInf)
      else F64.Finite (Qred (if Qle_bool 0 q then v else - v)).
Proof.
  intros Hq a e v. split.
  - apply Qmult_le_0_compat; [| apply Qlt_le_weak, pow2_pos].
    change 0 with (inject_Z 0). rewrite <- Zle_Qle.
    apply round_half_even_ge. simpl.
    apply Qle_shift_div_l; [apply pow2_pos |]. rewrite Qmult_0_l.
    apply Qabs_nonneg.
  - unfold F64.round. by rewrite Qeq_bool_false.
Qed.

(** Scaling an integer by a power of two that is no more than one. *)
Lemma scale_int (n e : Z) :
  (e ≤ 0)%Z → inject_Z n / 2 ^ e == inject_Z (n * 2 ^ (- e)).
Proof.
  intros He. rewrite inject_Z_mult, pow_inject by lia.
  change (inject_Z 2) with (2 : Q). rewrite Qpower_opp. reflexivity.
Qed.

Lemma scale_back (m e : Z) :
  (e ≤ 0)%Z → inject_Z (m * 2 ^ (- e)) * 2 ^ e == inject_Z m.
Proof.
  intros He. rewrite inject_Z_mult, pow_inject by lia.
  change (inject_Z 2) with (2 : Q). rewrite Qpower_opp.
  pose proof (pow2_pos e) as Hp. set (x := 2 ^ e) in *.
  field. intros H. rewrite H in Hp. by apply Qlt_irrefl in Hp.
Qed.

(** The exponent of the last bit of a rational below [2 ^ 53]. *)
Lemma small_exponent (a : Q) :
  0 < a → a < 2 ^ 53 → (Z.max (F64.ilog2 a - 52) (-1074) ≤ 0)%Z.
Proof.
  intros Ha Hlt. destruct (ilog2_spec a Ha) as [H1 _].
  assert (F64.ilog2 a < 53)%Z.
  { apply (pow_lt_inv 2); [done |]. by eapply Qle_lt_trans. }
  lia.
Qed.

Lemma large_exponent (a : Q) (e : Z) :
  0 < a → e = Z.max (F64.ilog2 a - 52) (-1074) → (0 < e)%Z →
  2 ^ 52 <= a / 2 ^ e.
Proof.
  intros Ha -> He. destruct (ilog2_spec a Ha) as [H1 _].
  assert (Z.max (F64.ilog2 a - 52) (-1074) = F64.ilog2 a - 52)%Z as E by lia.
  rewrite E in *. apply Qle_shift_div_l; [apply pow2_pos |].
  rewrite <- Qpower_plus by done.
  by replace (52 + (F64.ilog2 a - 52))%Z with (F64.ilog2 a) by lia.
Qed.

Lemma Qred_inject_Z (z : Z) : Qred (inject_Z z) = inject_Z z.
Proof. apply Qcanon.Qred_identity. simpl. apply Z.gcd_1_r. Qed.

Lemma Qred_of_Z (v : Q) (z : Z) : v == inject_Z z → Qred v = inject_Z z.
Proof. intros H. rewrite <- Qred_inject_Z. by apply Qred_complete. Qed.

Lemma pow2_53 : (2 : Q) ^ 53 == inject_Z (2 ^ 53).
Proof. reflexivity. Qed.

Lemma pow2_1024_large (z : Z) : (z < 2 ^ 53)%Z → inject_Z z < 2 ^ 1024.
Proof.
  intros Hz. apply Qlt_le_trans with (2 ^ 53).
  - rewrite pow2_53. by rewrite <- Zlt_Qlt.
  - by apply pow_le.
Qed.

(** Rounding does not pass an integer that doubles count exactly. *)
Lemma round_le_Z (q : Q) (n : Z) :
  (0 ≤ n < 2 ^ 53)%Z → q <= inject_Z n →
  F64.le (F64.round q) (F64.Finite (inject_Z n)) = true.
Proof.
  intros [Hn0 Hn] Hq.
  assert (0 <= inject_Z n) as Hn0'
    by (change 0 with (inject_Z 0); by rewrite <- Zle_Qle).
  destruct (Qeq_dec q 0) as [Hz | Hz].
  { rewrite (round_proper q 0 Hz). simpl. by apply Qle_bool_iff. }
  destruct (round_unfold q Hz) as [Hv ->]. cbv zeta in *.
  set (a := Qabs q) in *. set (e := Z.max _ _) in *.
  set (v := inject_Z _ * 2 ^ e) in *.
  destruct (Qle_bool 0 q) eqn:Hsign.
  - apply Qle_bool_iff in Hsign.
    assert (a == q) as Ea by (by apply Qabs_pos).
    assert (0 < a) as Ha by (by apply Qabs_pos_lt).
    assert (e ≤ 0)%Z as He.
    { apply small_exponent; [done |]. rewrite Ea.
      eapply Qle_lt_trans; [exact Hq |]. rewrite pow2_53. by rewrite <- Zlt_Qlt. }
    assert (v <= inject_Z n) as Hvn.
    { rewrite <- (scale_back n e He). subst v.
      apply Qmult_le_compat_r; [| apply Qlt_le_weak, pow2_pos].
      rewrite <- Zle_Qle. apply round_half_even_le.
      rewrite <- scale_int by done.
      apply Qmult_le_compat_r; [by rewrite Ea |].
      apply Qlt_le_weak, Qinv_lt_0_compat, pow2_pos. }
    assert (Qle_bool (2 ^ 1024) v = false) as ->.
    { apply Qle_bool_false. eapply Qle_lt_trans; [exact Hvn |].
      by apply pow2_1024_large. }
    simpl. apply Qle_bool_iff. by rewrite Qred_correct.
  - destruct (Qle_bool (2 ^ 1024) v); [done |].
    simpl. apply Qle_bool_iff. rewrite Qred_correct. lra.
Qed.

Lemma round_ge_Z (q : Q) (n : Z) :
  (0 ≤ n ≤ 2 ^ 53)%Z → inject_Z n <= q →
  F64.le (F64.Finite (inject_Z n)) (F64.round q) = true.
Proof.
  intros [Hn0 Hn] Hq.
  assert (0 <= inject_Z n) as Hn0'
    by (change 0 with (inject_Z 0); by rewrite <- Zle_Qle).
  destruct (Qeq_dec q 0) as [Hz | Hz].
  { rewrite (round_proper q 0 Hz). simpl. apply Qle_bool_iff. by rewrite <- Hz. }
  destruct (round_unfold q Hz) as [Hv ->]. cbv zeta in *.
  set (a := Qabs q) in *. set (e := Z.max _ _) in *.
  set (v := inject_Z _ * 2 ^ e) in *.
  assert (0 <= q) as Hq0 by lra.
  rewrite (proj2 (Qle_bool_iff 0 q) Hq0).
  destruct (Qle_bool (2 ^ 1024) v); [done |].
  simpl. apply Qle_bool_iff. rewrite Qred_correct.
  assert (a == q) as Ea by (by apply Qabs_pos).
  assert (0 < a) as Ha by (by apply Qabs_pos_lt).
  destruct (Z_le_gt_dec e 0) as [He | He].
  - rewrite <- (scale_back n e He). subst v.
    apply Qmult_le_compat_r; [| apply Qlt_le_weak, pow2_pos].
    rewrite <- Zle_Qle. apply round_half_even_ge.
    rewrite <- scale_int by done.
    apply Qmult_le_compat_r; [by rewrite Ea |].
    apply Qlt_le_weak, Qinv_lt_0_compat, pow2_pos.
  - assert (2 ^ 52 <= a / 2 ^ e) as Hbig
      by (apply large_exponent; [done | done | lia]).
    assert (2 ^ 52 ≤ F64.round_half_even (a / 2 ^ e))%Z as Hm.
    { apply round_half_even_ge. eapply Qle_trans; [| exact Hbig]. by compute. }
    apply Qle_trans with (inject_Z (2 ^ 52) * 2 ^ 1).
    + change (inject_Z (2 ^ 52) * 2 ^ 1) with (inject_Z (2 ^ 53)).
      by rewrite <- Zle_Qle.
    + subst v. apply Qle_trans with (inject_Z (2 ^ 52) * 2 ^ e).
      * apply Qmult_le_l; [done |]. apply pow_le; [done | lia].
      * apply Qmult_le_compat_r; [| apply Qlt_le_weak, pow2_pos].
        by rewrite <- Zle_Qle.
Qed.

(** An integer that doubles count exactly is the double nearest to
    it. *)
Lemma round_Z (z : Z) :
  (Z.abs z < 2 ^ 53)%Z → F64.round (inject_Z z) = F64.Finite (inject_Z z).
Proof.
  intros Hz. destruct (Z.eq_dec z 0%Z) as [-> | Hnz]; [done |].
  assert (¬ inject_Z z == 0) as Hq.
  { intros H. unfold Qeq in H; simpl in H. lia. }
  destruct (round_unfold _ Hq) as [Hv ->]. cbv zeta in *.
  set (a := Qabs (inject_Z z)) in *. set (e := Z.max _ _) in *.
  set (v := inject_Z _ * 2 ^ e) in *.
  assert (a == inject_Z (Z.abs z)) as Ea by reflexivity.
  assert (0 < a) as Ha by (by apply Qabs_pos_lt).
  assert (e ≤ 0)%Z as He.
  { apply small_exponent; [done |]. rewrite Ea, pow2_53. by rewrite <- Zlt_Qlt. }
  assert (v == inject_Z (Z.abs z)) as Ev.
  { subst v. rewrite (round_half_even_proper _ (inject_Z (Z.abs z * 2 ^ (- e)))).
    - rewrite round_half_even_Z. by apply scale_back.
    - rewrite Ea. by apply scale_int. }
  assert (Qle_bool (2 ^ 1024) v = false) as ->.
  { apply Qle_bool_false. rewrite Ev. by apply pow2_1024_large. }
  f_equal. apply Qred_of_Z.
  destruct (Qle_bool 0 (inject_Z z)) eqn:Hsign.
  - apply Qle_bool_iff in Hsign. rewrite Ev.
    change 0 with (inject_Z 0) in Hsign. rewrite <- Zle_Qle in Hsign.
    by rewrite Z.abs_eq.
  - apply Qle_bool_false in Hsign. rewrite Ev.
    change 0 with (inject_Z 0) in Hsign. rewrite <- Zlt_Qlt in Hsign.
    rewrite Z.abs_neq by lia. rewrite inject_Z_opp. ring.
Qed.

(** The double nearest to an integer is an integer. *)
Lemma round_of_Z_is_Z (c : Z) (r : Q) :
  F64.round (inject_Z c) = F64.Finite r → ∃ z : Z, r == inject_Z z.
Proof.
  destruct (Z.eq_dec c 0%Z) as [-> | Hnz].
  { intros [= <-]. by exists 0%Z. }
  assert (¬ inject_Z c == 0) as Hq.
  { intros H. unfold Qeq in H; simpl in H. lia. }
  destruct (round_unfold _ Hq) as [Hv ->]. cbv zeta in *.
  set (a := Qabs (inject_Z c)) in *. set (e := Z.max _ _) in *.
  set (m := F64.round_half_even _) in *.
  destruct (Qle_bool (2 ^ 1024) _); [by destruct (Qle_bool 0 _) |].
  intros [= <-].
  assert (∃ z : Z, inject_Z m * 2 ^ e == inject_Z z) as [z Hz].
  { destruct (Z_le_gt_dec 0 e) as [He | He].
    - exists (m * 2 ^ e)%Z. by rewrite inject_Z_mult, pow_inject.
    - exists (Z.abs c). subst m.
      rewrite (round_half_even_proper _ (inject_Z (Z.abs c * 2 ^ (- e)))).
      + rewrite round_half_even_Z. apply scale_back. lia.
      + change a with (inject_Z (Z.abs c)). apply scale_int. lia. }
  destruct (Qle_bool 0 (inject_Z c)).
  - exists z. by rewrite Qred_correct.
  - exists (- z)%Z. rewrite Qred_correct, Hz, inject_Z_opp. reflexivity.
Qed.

(** ** Digits *)

Lemma digit_char_spec (d : Z) :
  (0 ≤ d ≤ 9)%Z →
  is_digit (digit_char d) = true ∧ digit_value (digit_char d) = d.
Proof.
  intros Hd.
  assert (d = 0 ∨ d = 1 ∨ d = 2 ∨ d = 3 ∨ d = 4 ∨ d = 5 ∨ d = 6 ∨ d = 7
          ∨ d = 8 ∨ d = 9)%Z as Hcases by lia.
  repeat (destruct Hcases as [-> | Hcases]; [by compute |]).
  subst. by compute.
Qed.

Lemma value_of_snoc (l : list ascii) (c : ascii) :
  value_of (l ++ [c]) = (10 * value_of l + digit_value c)%Z.
Proof. unfold value_of. by rewrite foldl_app. Qed.

Lemma value_of_app (l1 l2 : list ascii) :
  value_of (l1 ++ l2)
  = (value_of l1 * 10 ^ Z.of_nat (length l2) + value_of l2)%Z.
Proof.
  induction l2 as [| c l2 IH] using rev_ind.
  - rewrite app_nil_r. simpl. change (value_of []) with 0%Z. lia.
  - rewrite app_assoc, !value_of_snoc, IH, length_app. simpl.
    rewrite Nat2Z.inj_add, Z.pow_add_r by lia. simpl. lia.
Qed.

Lemma value_of_zeros (j : Z) : value_of (zeros j) = 0%Z.
Proof.
  unfold zeros. induction (Z.to_nat j) as [| k IH]; [done |].
  change (replicate (S k) "0"%char) with (["0"%char] ++ replicate k "0"%char).
  rewrite value_of_app, IH. by compute.
Qed.

Lemma zeros_length (j : Z) : length (zeros j) = Z.to_nat j.
Proof. apply length_replicate. Qed.

Lemma zeros_digits (j : Z) : forallb is_digit (zeros j) = true.
Proof.
  unfold zeros. induction (Z.to_nat j) as [| k IH]; [done |]. simpl. exact IH.
Qed.

Lemma digits_go_acc (fuel : nat) (n : Z) (acc : list ascii) :
  digits_go fuel n acc = digits_go fuel n [] ++ acc.
Proof.
  revert n acc. induction fuel as [| fuel IH]; intros n acc; [done |].
  simpl. destruct (n <? 10)%Z; [done |].
  rewrite (IH _ (_ :: acc)), (IH _ [_]). by rewrite <- app_assoc.
Qed.

Lemma digits_go_S (fuel : nat) (n : Z) (acc : list ascii) :
  digits_go (S fuel) n acc
  = if (n <? 10)%Z then digit_char (n mod 10) :: acc
    else digits_go fuel (n / 10) (digit_char (n mod 10) :: acc).
Proof. reflexivity. Qed.

Lemma digits_go_spec (fuel : nat) (n : Z) :
  (0 ≤ n < 2 ^ Z.of_nat (S fuel))%Z →
  let ds := digits_go (S fuel) n [] in
  forallb is_digit ds = true ∧ value_of ds = n ∧ ds ≠ []
  ∧ (1 ≤ n → 10 ^ (Z.of_nat (length ds) - 1) ≤ n)%Z.
Proof.
  revert n. induction fuel as [| fuel IH]; intros n Hn.
  - assert (n = 0 ∨ n = 1)%Z as [-> | ->]
      by (change (2 ^ Z.of_nat 1)%Z with 2%Z in Hn; lia);
      by compute.
  - cbv zeta. rewrite digits_go_S.
    pose proof (Z.mod_pos_bound n 10 ltac:(lia)) as Hmod.
    destruct (digit_char_spec (n mod 10) ltac:(lia)) as [Hd Hv].
    destruct (Z.ltb_spec n 10) as [Hlt | Hge].
    + rewrite Z.mod_small in * by lia. simpl. rewrite Hd.
      split; [done |]. split; [unfold value_of; simpl; lia |].
      split; [done | lia].
    + rewrite digits_go_acc.
      assert (0 ≤ n / 10 < 2 ^ Z.of_nat (S fuel))%Z as Hdiv.
      { split; [apply Z.div_pos; lia |].
        apply Z.div_lt_upper_bound; [lia |].
        rewrite Nat2Z.inj_succ, Z.pow_succ_r in Hn by lia. lia. }
      destruct (IH _ Hdiv) as (Hall & Hval & Hne & Hlen).
      split; [| split; [| split]].
      * rewrite forallb_app, Hall. simpl. by rewrite Hd.
      * rewrite value_of_snoc, Hval, Hv. symmetry.
        apply Z_div_mod_eq_full.
      * by destruct (digits_go _ _ _).
      * intros _. rewrite length_app.
        set (L := length (digits_go (S fuel) (n / 10) [])) in *.
        assert (1 ≤ L)%nat.
        { subst L. destruct (digits_go _ _ _); [done | simpl; lia]. }
        replace (Z.of_nat (L + length [digit_char (n mod 10)]) - 1)%Z
          with (Z.succ (Z.of_nat L - 1)) by (simpl; lia).
        rewrite Z.pow_succ_r by lia.
        assert (1 ≤ n / 10)%Z by (apply Z.div_le_lower_bound; lia).
        specialize (Hlen ltac:(done)).
        pose proof (Z.mul_div_le n 10 ltac:(lia)). lia.
Qed.

Lemma digits_spec (n : Z) :
  (0 ≤ n)%Z →
  forallb is_digit (digits n) = true ∧ value_of (digits n) = n
  ∧ digits n ≠ []
  ∧ (1 ≤ n → 10 ^ (Z.of_nat (length (digits n)) - 1) ≤ n)%Z.
Proof.
  intros Hn. apply digits_go_spec. split; [done |].
  rewrite Nat2Z.inj_succ, Z2Nat.id by apply Z.log2_nonneg.
  destruct (Z.eq_dec n 0%Z) as [-> | Hnz]; [done |].
  apply Z.log2_spec. lia.
Qed.

(** ** The digits of a whole number *)

Lemma reads_as_proper (c c' x : Q) : c == c' → reads_as c x = reads_as c' x.
Proof. intros H. unfold reads_as. by rewrite (round_proper c c' H). Qed.

Lemma reads_as_Z (z : Z) :
  (Z.abs z < 2 ^ 53)%Z → reads_as (inject_Z z) (inject_Z z) = true.
Proof.
  intros Hz. unfold reads_as. rewrite round_Z by done.
  by apply Qeq_bool_iff.
Qed.

(** What [shortest] returns is read back as the double. *)
Lemma shortest_sound (fuel : nat) (e : Z) (x : Q) (s e' : Z) :
  shortest fuel e x = Some (s, e') →
  reads_as (inject_Z s * 10 ^ e') x = true
  ∧ (e - Z.of_nat fuel < e' ≤ e)%Z.
Proof.
  revert e. induction fuel as [| fuel IH]; intros e; [done |].
  cbn [shortest].
  destruct (reads_as (inject_Z (Qfloor (x / 10 ^ e)) * 10 ^ e) x) eqn:H1;
    destruct (reads_as (inject_Z (Qfloor (x / 10 ^ e) + 1) * 10 ^ e) x)
      eqn:H2.
  - destruct (Qcompare _ _); [destruct (Z.even _) | |];
      intros [= <- <-]; (split; [done | lia]).
  - intros [= <- <-]. split; [done | lia].
  - intros [= <- <-]. split; [done | lia].
  - intros H. apply IH in H as [? ?]. split; [done | lia].
Qed.

(** Within as many digits as a whole number has, [shortest] finds
    some. *)
Lemma shortest_whole (fuel : nat) (e z : Z) :
  (0 < z < 2 ^ 53)%Z → (0 ≤ e < Z.of_nat fuel)%Z →
  ∃ s e', shortest fuel e (inject_Z z) = Some (s, e') ∧ (0 ≤ e')%Z.
Proof.
  intros Hz. revert e. induction fuel as [| fuel IH]; intros e He; [lia |].
  cbn [shortest].
  destruct (reads_as (inject_Z (Qfloor (inject_Z z / 10 ^ e)) * 10 ^ e)
              (inject_Z z)) eqn:H1;
    destruct (reads_as (inject_Z (Qfloor (inject_Z z / 10 ^ e) + 1) * 10 ^ e)
                (inject_Z z)) eqn:H2.
  - destruct (Qcompare _ _); [destruct (Z.even _) | |];
      eexists _, _; (split; [done | lia]).
  - eexists _, _. split; [done | lia].
  - eexists _, _. split; [done | lia].
  - destruct (Z.eq_dec e 0%Z) as [-> | Hne].
    + exfalso. rewrite (reads_as_proper _ (inject_Z z)) in H1.
      * rewrite reads_as_Z in H1 by lia. done.
      * change (10 ^ 0) with 1. rewrite Qmult_1_r.
        rewrite (Qfloor_comp _ (inject_Z z)); [by rewrite Qfloor_Z |].
        unfold Qdiv. change (/ 1) with 1. apply Qmult_1_r.
    + apply IH. lia.
Qed.

(** Digits that are read back as a whole number spell it. *)
Lemma whole_candidate (s e z : Z) :
  (0 < z < 2 ^ 53)%Z → (0 ≤ e)%Z →
  reads_as (inject_Z s * 10 ^ e) (inject_Z z) = true →
  (s * 10 ^ e)%Z = z.
Proof.
  intros Hz He Hread.
  rewrite (reads_as_proper _ (inject_Z (s * 10 ^ e))) in Hread
    by (by rewrite inject_Z_mult, pow_inject).
  set (c := (s * 10 ^ e)%Z) in *. unfold reads_as in Hread.
  destruct (Z_lt_ge_dec (Z.abs c) (2 ^ 53)) as [Hc | Hc].
  - rewrite round_Z in Hread by done. apply Qeq_bool_iff in Hread.
    unfold Qeq in Hread; simpl in Hread. lia.
  - exfalso. destruct (Z_le_gt_dec 0 c) as [Hpos | Hneg].
    + pose proof (round_ge_Z (inject_Z c) (2 ^ 53) ltac:(lia)) as Hge.
      rewrite <- Zle_Qle in Hge. specialize (Hge ltac:(lia)).
      destruct (F64.round (inject_Z c)) as [v | | |]; try done.
      apply Qeq_bool_iff in Hread. simpl in Hge. apply Qle_bool_iff in Hge.
      rewrite Hread in Hge. rewrite <- Zle_Qle in Hge. lia.
    + pose proof (round_le_Z (inject_Z c) 0 ltac:(lia)) as Hle.
      rewrite <- Zle_Qle in Hle. specialize (Hle ltac:(lia)).
      destruct (F64.round (inject_Z c)) as [v | | |]; try done.
      apply Qeq_bool_iff in Hread. simpl in Hle. apply Qle_bool_iff in Hle.
      rewrite Hread in Hle. rewrite <- Zle_Qle in Hle. lia.
Qed.

Lemma strip_zeros_spec (fuel : nat) (s e : Z) :
  (0 < s)%Z →
  let r := strip_zeros fuel s e in
  (0 < r.1)%Z ∧ (e ≤ r.2)%Z ∧ (r.1 * 10 ^ (r.2 - e))%Z = s.
Proof.
  revert s e. induction fuel as [| fuel IH]; intros s e Hs; cbv zeta.
  - simpl. rewrite Z.sub_diag. simpl. lia.
  - cbn [strip_zeros]. destruct (Z.eqb_spec (s mod 10) 0) as [Hmod | Hmod].
    + assert (s = 10 * (s / 10))%Z as Hdiv.
      { rewrite (Z_div_mod_eq_full s 10) at 1. lia. }
      assert (0 < s / 10)%Z by lia.
      destruct (IH (s / 10)%Z (e + 1)%Z ltac:(done)) as (H1 & H2 & H3).
      split; [done |]. split; [lia |].
      replace (_.2 - e)%Z
        with (Z.succ ((strip_zeros fuel (s / 10) (e + 1)).2 - (e + 1))) by lia.
      rewrite Z.pow_succ_r by lia. lia.
    + simpl. rewrite Z.sub_diag. simpl. lia.
Qed.

Lemma pow2_53_lt_pow10_16 : (2 ^ 53 < 10 ^ 16)%Z.
Proof. done. Qed.

(** The notation of a whole number: its digits. *)
Lemma format_whole (s e : Z) :
  (0 < s)%Z → (0 ≤ e)%Z → (s * 10 ^ e < 10 ^ 21)%Z →
  format s e = digits s ++ zeros e.
Proof.
  intros Hs He Hlt. unfold format.
  destruct (digits_spec s ltac:(lia)) as (_ & _ & Hne & Hlen).
  specialize (Hlen ltac:(lia)).
  set (k := Z.of_nat (length (digits s))) in *.
  assert (1 ≤ k)%Z by (subst k; destruct (digits s); [done | simpl; lia]).
  assert (e + k ≤ 21)%Z as Hn.
  { assert (10 ^ (k - 1 + e) < 10 ^ 21)%Z as Hpow.
    { rewrite Z.pow_add_r by lia.
      eapply Z.le_lt_trans; [| exact Hlt].
      apply Z.mul_le_mono_nonneg_r; [by apply Z.pow_nonneg | done]. }
    apply Z.pow_lt_mono_r_iff in Hpow; lia. }
  rewrite (proj2 (Z.leb_le k (e + k)) ltac:(lia)).
  rewrite (proj2 (Z.leb_le (e + k) 21) Hn). simpl.
  by replace (e + k - k)%Z with e by lia.
Qed.

Lemma ilog10_whole (z : Z) :
  (0 < z < 2 ^ 53)%Z → (0 ≤ ilog10 (inject_Z z) < 17)%Z.
Proof.
  intros Hz. unfold ilog10. cbn [Qnum Qden inject_Z].
  change (Z.of_nat (length (digits (Z.pos 1)))) with 1%Z.
  destruct (digits_spec z ltac:(lia)) as (_ & _ & Hne & Hlen).
  specialize (Hlen ltac:(lia)).
  set (k := Z.of_nat (length (digits z))) in *.
  assert (1 ≤ k)%Z by (subst k; destruct (digits z); [done | simpl; lia]).
  assert (k - 1 < 16)%Z.
  { apply (Z.pow_lt_mono_r_iff 10); [lia | lia |].
    pose proof pow2_53_lt_pow10_16. lia. }
  destruct (Qle_bool (10 ^ (k - 1)) (inject_Z z)) eqn:Htest; [lia |].
  exfalso. apply Qle_bool_false in Htest.
  change (10 : Q) with (inject_Z 10) in Htest.
  rewrite <- pow_inject, <- Zlt_Qlt in Htest by lia. lia.
Qed.

(** [Number::toString] of a whole number that doubles count exactly:
    digits and zeros that spell it. *)
Lemma number_chars_whole (z : Z) :
  (0 < z < 2 ^ 53)%Z →
  ∃ s e, (0 < s)%Z ∧ (0 ≤ e)%Z ∧ (s * 10 ^ e)%Z = z
         ∧ number_chars (F64.Finite (inject_Z z)) = digits s ++ zeros e
         ∧ number_chars (F64.Finite (inject_Z (- z)))
           = "-"%char :: digits s ++ zeros e.
Proof.
  intros Hz.
  destruct (shortest_whole 17 (ilog10 (inject_Z z)) z Hz)
    as (s0 & e0 & Hshort & He0).
  { pose proof (ilog10_whole z Hz). lia. }
  pose proof (shortest_sound _ _ _ _ _ Hshort) as [Hread _].
  pose proof (whole_candidate _ _ _ Hz He0 Hread) as Hval.
  assert (0 < s0)%Z as Hs0.
  { destruct (Z_lt_ge_dec 0 s0); [done |].
    assert (s0 * 10 ^ e0 ≤ 0)%Z; [| lia].
    apply Z.mul_nonpos_nonneg; [lia | by apply Z.pow_nonneg]. }
  destruct (strip_zeros_spec 17 s0 e0 Hs0) as (Hs & He & Hstrip).
  set (s := (strip_zeros 17 s0 e0).1) in *.
  set (e := (strip_zeros 17 s0 e0).2) in *.
  assert (s * 10 ^ e = z)%Z as Hse.
  { rewrite <- Hval, <- Hstrip.
    replace e with ((e - e0) + e0)%Z at 1 by lia.
    rewrite Z.pow_add_r by lia. lia. }
  exists s, e. split; [done |]. split; [lia |]. split; [done |].
  assert (format s e = digits s ++ zeros e) as Hfmt.
  { apply format_whole; [done | lia |]. rewrite Hse.
    pose proof pow2_53_lt_pow10_16.
    assert (10 ^ 16 < 10 ^ 21)%Z by done. lia. }
  assert (Qeq_bool (inject_Z z) 0 = false) as Hnz.
  { apply Qeq_bool_false. intros H. unfold Qeq in H; simpl in H. lia. }
  assert (Qeq_bool (inject_Z (- z)) 0 = false) as Hnz'.
  { apply Qeq_bool_false. intros H. unfold Qeq in H; simpl in H. lia. }
  assert (Qabs (inject_Z z) = inject_Z z) as Eabs.
  { unfold Qabs, inject_Z. by rewrite Z.abs_eq by lia. }
  assert (Qabs (inject_Z (- z)) = inject_Z z) as Eabs'.
  { unfold Qabs, inject_Z. f_equal. lia. }
  split.
  - unfold number_chars. rewrite Hnz, Eabs, Hshort. fold s e.
    rewrite Hfmt.
    assert (Qle_bool 0 (inject_Z z) = true) as ->; [| done].
    apply Qle_bool_iff. change 0 with (inject_Z 0). rewrite <- Zle_Qle. lia.
  - unfold number_chars. rewrite Hnz', Eabs', Hshort. fold s e.
    rewrite Hfmt.
    assert (Qle_bool 0 (inject_Z (- z)) = false) as ->; [| done].
    apply Qle_bool_false. change 0 with (inject_Z 0). rewrite <- Zlt_Qlt. lia.
Qed.

(** ** Reading digits *)

Lemma whole_text (z : Z) :
  (0 ≤ z < 2 ^ 53)%Z →
  ∃ D, digit_text D z
       ∧ number_chars (F64.Finite (inject_Z z)) = D
       ∧ ((0 < z)%Z →
          number_chars (F64.Finite (inject_Z (- z))) = "-"%char :: D).
Proof.
  intros Hz. destruct (Z.eq_dec z 0%Z) as [-> | Hnz].
  { exists ["0"%char]. split; [by compute |]. split; [done | lia]. }
  destruct (number_chars_whole z ltac:(lia))
    as (s & e & Hs & He & Hse & Hpos & Hneg).
  destruct (digits_spec s ltac:(lia)) as (Hall & Hval & Hne & _).
  exists (digits s ++ zeros e). split; [| done].
  split; [| split].
  - by rewrite forallb_app, Hall, zeros_digits.
  - by destruct (digits s).
  - rewrite value_of_app, Hval, value_of_zeros, zeros_length.
    rewrite Z2Nat.id by done. lia.
Qed.

Lemma span_digits_all (l rest : list ascii) :
  forallb is_digit l = true →
  match rest with
  | [] => True
  | c :: _ => is_digit c = false
  end →
  span_digits (l ++ rest) = (l, rest).
Proof.
  intros Hl Hrest. induction l as [| c l IH]; simpl.
  - destruct rest as [| c r]; [done |]. simpl. by rewrite Hrest.
  - simpl in Hl. apply andb_true_iff in Hl as [Hc Hl].
    by rewrite Hc, (IH Hl).
Qed.

Lemma span_digits_digits (l : list ascii) :
  forallb is_digit l = true → span_digits l = (l, []).
Proof.
  intros Hl. rewrite <- (app_nil_r l) at 1. by apply span_digits_all.
Qed.

Lemma digit_head (D : list ascii) (z : Z) :
  digit_text D z → ∃ c D', D = c :: D' ∧ is_digit c = true.
Proof.
  intros (Hall & Hne & _). destruct D as [| c D']; [done |].
  simpl in Hall. apply andb_true_iff in Hall as [Hc _]. by exists c, D'.
Qed.

Lemma split_sign_digits (D : list ascii) (z : Z) :
  digit_text D z → split_sign D = (false, D).
Proof.
  intros (c & D' & -> & Hc)%digit_head. unfold split_sign.
  repeat case_bool_decide; subst; done.
Qed.

Lemma not_infinity (D : list ascii) (z : Z) :
  digit_text D z → bool_decide (take 8 D = infinity_text) = false.
Proof.
  intros (c & D' & -> & Hc)%digit_head. apply bool_decide_eq_false.
  intros H. injection H as -> _. done.
Qed.

Lemma unsigned_decimal_digits (D : list ascii) (z : Z) :
  digit_text D z → unsigned_decimal D = Some (inject_Z z * 10 ^ 0, []).
Proof.
  intros HD. pose proof HD as (Hall & Hne & Hval).
  unfold unsigned_decimal. rewrite (span_digits_digits D Hall).
  destruct D; [done |]. simpl. by rewrite <- Hval.
Qed.

Lemma signed_decimal_digits (D : list ascii) (z : Z) :
  digit_text D z →
  signed_decimal D = Some (F64.round (inject_Z z), [])
  ∧ signed_decimal ("-"%char :: D) = Some (F64.round (inject_Z (- z)), [])
  ∧ signed_decimal ("+"%char :: D) = Some (F64.round (inject_Z z), []).
Proof.
  intros HD. unfold signed_decimal.
  rewrite (split_sign_digits D z HD). simpl.
  rewrite (not_infinity D z HD), (unsigned_decimal_digits D z HD).
  change (10 ^ 0) with 1.
  rewrite (round_proper (inject_Z z * 1) (inject_Z z)) by apply Qmult_1_r.
  rewrite (round_proper (- (inject_Z z * 1)) (inject_Z (- z)))
    by (rewrite inject_Z_opp; ring).
  done.
Qed.

Lemma chars_of_text (l : list ascii) :
  String.list_ascii_of_string (String.string_of_list_ascii l) = l.
Proof. apply String.list_ascii_of_string_of_list_ascii. Qed.

(** The patterns and the readers on the text of an integer. *)
Lemma integer_text (D : list ascii) (z : Z) (minus : bool) :
  digit_text D z →
  let T := String.string_of_list_ascii
             (if minus then "-"%char :: D else D) in
  let v := F64.round (inject_Z (if minus then (- z)%Z else z)) in
  isNumeric T = true ∧ int_pattern T = true ∧ float_pattern T = true
  ∧ (T ∉ [""; "."; "-"; "+"])
  ∧ parseFloat T = v ∧ parseInt T = v ∧ StringToNumber T = v.
Proof.
  intros HD T v. pose proof HD as (Hall & Hne & Hval).
  destruct (signed_decimal_digits D z HD) as (Hpos & Hneg & _).
  pose proof (split_sign_digits D z HD) as Hsign.
  pose proof (span_digits_digits D Hall) as Hspan.
  assert (split_sign (if minus then "-"%char :: D else D) = (minus, D))
    as Hsplit by (by destruct minus).
  assert (negb (bool_decide (D = [])) = true) as Hnonempty
    by (by rewrite bool_decide_eq_false_2).
  split; [| split; [| split; [| split; [| split; [| split]]]]].
  - unfold isNumeric. subst T. by rewrite chars_of_text, Hsplit, Hspan.
  - unfold int_pattern. subst T. by rewrite chars_of_text, Hsplit, Hall.
  - unfold float_pattern. subst T. by rewrite chars_of_text, Hsplit, Hspan.
  - intros Hin.
    assert ((if minus then "-"%char :: D else D)
            ∈ [[]; ["."%char]; ["-"%char]; ["+"%char]]) as Hin'.
    { rewrite <- (chars_of_text (if minus then _ else _)). fold T.
      repeat (apply elem_of_cons in Hin as [-> | Hin]);
        [set_solver .. | by apply elem_of_nil in Hin]. }
    destruct (digit_head D z HD) as (c & D' & -> & Hc).
    destruct minus;
      repeat (apply elem_of_cons in Hin' as [Hin' | Hin']);
      try (by apply elem_of_nil in Hin'); try done;
      injection Hin' as ->; done.
  - unfold parseFloat. subst T v. rewrite chars_of_text.
    destruct minus; cbv iota; [by rewrite Hneg | by rewrite Hpos].
  - unfold parseInt. subst T v. rewrite chars_of_text, Hsplit, Hspan.
    destruct D; [done |]. rewrite Hval. by destruct minus.
  - unfold StringToNumber. subst T v. rewrite chars_of_text.
    destruct minus; cbv iota.
    + by rewrite Hneg.
    + destruct (digit_head D z HD) as (c & D' & -> & Hc). by rewrite Hpos.
Qed.

(** A whole number that doubles count exactly, as the validators and
    readers of the crop route see it. *)
Lemma whole_member (z : Z) :
  safe z →
  let T := numberToString (F64.of_Z z) in
  isNumeric T = true ∧ int_pattern T = true ∧ float_pattern T = true
  ∧ (T ∉ [""; "."; "-"; "+"])
  ∧ parseFloat T = F64.of_Z z ∧ parseInt T = F64.of_Z z
  ∧ StringToNumber T = F64.of_Z z.
Proof.
  intros Hz T. unfold safe in Hz.
  destruct (Z_le_gt_dec 0 z) as [Hpos | Hneg].
  - destruct (whole_text z ltac:(lia)) as (D & HD & Hchars & _).
    pose proof (integer_text D z false HD) as H. cbv beta iota zeta in H.
    subst T. unfold numberToString, F64.of_Z. rewrite Hchars.
    rewrite (round_Z z) in H by lia. exact H.
  - destruct (whole_text (- z) ltac:(lia)) as (D & HD & _ & Hchars).
    specialize (Hchars ltac:(lia)). rewrite Z.opp_involutive in Hchars.
    pose proof (integer_text D (- z) true HD) as H. cbv beta iota zeta in H.
    subst T. unfold numberToString, F64.of_Z. rewrite Hchars.
    rewrite Z.opp_involutive, (round_Z z) in H by lia. exact H.
Qed.

(** ** The notation of a number *)

Lemma format_head (s e : Z) :
  (0 < s)%Z → ∃ c l, format s e = c :: l ∧ is_digit c = true.
Proof.
  intros Hs. unfold format.
  destruct (digits_spec s ltac:(lia)) as (Hall & _ & Hne & _).
  destruct (digits s) as [| c ds]; [done |].
  simpl in Hall. apply andb_true_iff in Hall as [Hc _].
  set (k := Z.of_nat (length (c :: ds))).
  destruct ((k <=? e + k)%Z && (e + k <=? 21)%Z); [by eexists _, _ |].
  destruct ((0 <? e + k)%Z && (e + k <=? 21)%Z) eqn:Hb.
  - apply andb_true_iff in Hb as [Hpos%Z.ltb_lt _].
    destruct (Z.to_nat (e + k)) as [| m] eqn:Hm; [lia |]. by eexists _, _.
  - destruct ((-6 <? e + k)%Z && (e + k <=? 0)%Z); by eexists _, _.
Qed.

Lemma not_digits (l1 l2 : list ascii) (c : ascii) :
  is_digit c = false → forallb is_digit (l1 ++ c :: l2) = false.
Proof.
  intros Hc. rewrite forallb_app. simpl. rewrite Hc.
  by rewrite andb_false_r.
Qed.

(** Only the first of the four notations is a run of digits. *)
Lemma format_digits (s e : Z) :
  forallb is_digit (format s e) = true → (0 ≤ e)%Z.
Proof.
  unfold format. set (k := Z.of_nat (length (digits s))).
  destruct ((k <=? e + k)%Z && (e + k <=? 21)%Z) eqn:Ha.
  { apply andb_true_iff in Ha as [Hk%Z.leb_le _]. lia. }
  destruct ((0 <? e + k)%Z && (e + k <=? 21)%Z).
  { by rewrite not_digits. }
  destruct ((-6 <? e + k)%Z && (e + k <=? 0)%Z); [done |].
  rewrite app_assoc. by rewrite not_digits.
Qed.

Lemma round_nonpos (q : Q) (v : Q) :
  q <= 0 → F64.round q = F64.Finite v → v <= 0.
Proof.
  intros Hq Hr. pose proof (round_le_Z q 0 ltac:(lia) Hq) as Hle.
  rewrite Hr in Hle. simpl in Hle. by apply Qle_bool_iff in Hle.
Qed.

(** The digits [shortest] finds for a positive number are positive. *)
Lemma shortest_positive (fuel : nat) (e : Z) (x : Q) (s e' : Z) :
  0 < x → shortest fuel e x = Some (s, e') → (0 < s)%Z.
Proof.
  intros Hx [Hread _]%shortest_sound.
  destruct (Z_lt_ge_dec 0 s) as [? | Hs]; [done |]. exfalso.
  unfold reads_as in Hread.
  destruct (F64.round (inject_Z s * 10 ^ e')) as [v | | |] eqn:Hr; try done.
  apply round_nonpos in Hr.
  - apply Qeq_bool_iff in Hread. rewrite Hread in Hr.
    by apply Qle_not_lt in Hr.
  - assert (inject_Z s <= 0) as Hs'.
    { change 0 with (inject_Z 0). rewrite <- Zle_Qle. lia. }
    pose proof (pow10_pos e') as Hp. nra.
Qed.

Lemma split_sign_digit (c : ascii) (l : list ascii) :
  is_digit c = true → split_sign (c :: l) = (false, c :: l).
Proof.
  intros Hc. unfold split_sign.
  case_bool_decide as E1; [by rewrite E1 in Hc |].
  case_bool_decide as E2; [by rewrite E2 in Hc | done].
Qed.

(** A number whose print is a run of digits, with a sign or without,
    is a whole number. *)
Lemma int_pattern_whole (q : Q) :
  int_pattern (numberToString (F64.Finite q)) = true →
  ∃ z : Z, q == inject_Z z.
Proof.
  unfold int_pattern, numberToString. rewrite chars_of_text.
  unfold number_chars.
  destruct (Qeq_bool q 0) eqn:Hz.
  { intros _. exists 0%Z. by apply Qeq_bool_iff in Hz. }
  assert (¬ q == 0) as Hq.
  { intros H%Qeq_bool_iff. congruence. }
  pose proof (Qabs_pos_lt q Hq) as Ha.
  destruct (shortest 17 _ (Qabs q)) as [[s0 e0] |] eqn:Hshort; [| done].
  pose proof (shortest_positive _ _ _ _ _ Ha Hshort) as Hs0.
  pose proof (shortest_sound _ _ _ _ _ Hshort) as [Hread _].
  destruct (strip_zeros_spec 17 s0 e0 Hs0) as (Hs & He & Hstrip).
  set (s := (strip_zeros 17 s0 e0).1) in *.
  set (e := (strip_zeros 17 s0 e0).2) in *.
  destruct (format_head s e Hs) as (c & l & Hfmt & Hc).
  assert (split_sign ((if Qle_bool 0 q then [] else ["-"%char])
                      ++ format s e)
          = (negb (Qle_bool 0 q), format s e)) as ->.
  { destruct (Qle_bool 0 q); simpl; [| done].
    rewrite Hfmt. by apply split_sign_digit. }
  intros [Hdigits _]%andb_true_iff.
  apply format_digits in Hdigits.
  assert (inject_Z s0 * 10 ^ e0 == inject_Z (s * 10 ^ e)) as Hc0.
  { rewrite <- Hstrip at 1.
    rewrite !inject_Z_mult, !pow_inject by lia.
    change (inject_Z 10) with (10 : Q).
    rewrite <- Qmult_assoc, <- Qpower_plus by done.
    by replace (e - e0 + e0)%Z with e by lia. }
  rewrite (reads_as_proper _ _ _ Hc0) in Hread.
  unfold reads_as in Hread.
  destruct (F64.round (inject_Z (s * 10 ^ e))) as [v | | |] eqn:Hr; try done.
  apply round_of_Z_is_Z in Hr as [z Hv].
  apply Qeq_bool_iff in Hread. rewrite Hv in Hread.
  destruct (Qlt_le_dec q 0) as [Hneg | Hpos].
  - exists (- z)%Z. rewrite Qabs_neg in Hread by (by apply Qlt_le_weak).
    rewrite inject_Z_opp, Hread. ring.
  - exists z. by rewrite Qabs_pos in Hread.
Qed.

(** The one notation that is a run of digits spells [s * 10 ^ e]. *)
Lemma format_digits_value (s e : Z) :
  (0 < s)%Z → forallb is_digit (format s e) = true →
  digit_text (format s e) (s * 10 ^ e).
Proof.
  intros Hs Hall. pose proof (format_digits s e Hall) as He.
  destruct (digits_spec s ltac:(lia)) as (Hds & Hval & Hne & _).
  split; [done |]. revert Hall. unfold format.
  set (k := Z.of_nat (length (digits s))).
  destruct ((k <=? e + k)%Z && (e + k <=? 21)%Z).
  - intros _. replace (e + k - k)%Z with e by lia. split.
    + by destruct (digits s).
    + rewrite value_of_app, value_of_zeros, zeros_length, Hval.
      rewrite Z2Nat.id by done. lia.
  - destruct ((0 <? e + k)%Z && (e + k <=? 21)%Z).
    { by rewrite not_digits. }
    destruct ((-6 <? e + k)%Z && (e + k <=? 0)%Z); [done |].
    rewrite app_assoc. by rewrite not_digits.
Qed.

(** A number that passes [isInt({ min: 1 })] is at least 1. *)
Lemma isInt_min1_number (q : Q) :
  isInt_min1 (numberToString (F64.Finite q)) = true → 1 <= q.
Proof.
  unfold isInt_min1, int_pattern, numberToString. rewrite chars_of_text.
  unfold number_chars.
  destruct (Qeq_bool q 0) eqn:Hz.
  { intros [_ Hge]%andb_true_iff. by vm_compute in Hge. }
  assert (¬ q == 0) as Hq.
  { intros H%Qeq_bool_iff. congruence. }
  pose proof (Qabs_pos_lt q Hq) as Ha.
  destruct (shortest 17 _ (Qabs q)) as [[s0 e0] |] eqn:Hshort.
  2: { intros [Hpat _]%andb_true_iff. by vm_compute in Hpat. }
  pose proof (shortest_positive _ _ _ _ _ Ha Hshort) as Hs0.
  pose proof (shortest_sound _ _ _ _ _ Hshort) as [Hread _].
  destruct (strip_zeros_spec 17 s0 e0 Hs0) as (Hs & He & Hstrip).
  set (s := (strip_zeros 17 s0 e0).1) in *.
  set (e := (strip_zeros 17 s0 e0).2) in *.
  destruct (format_head s e Hs) as (c & l & Hfmt & Hc).
  assert (split_sign ((if Qle_bool 0 q then [] else ["-"%char])
                      ++ format s e)
          = (negb (Qle_bool 0 q), format s e)) as ->.
  { destruct (Qle_bool 0 q); simpl; [| done].
    rewrite Hfmt. by apply split_sign_digit. }
  intros [[Hdigits _]%andb_true_iff Hge]%andb_true_iff.
  pose proof (format_digits s e Hdigits) as He0.
  pose proof (format_digits_value s e Hs Hdigits) as HD.
  assert (inject_Z s0 * 10 ^ e0 == inject_Z (s * 10 ^ e)) as Hc0.
  { rewrite <- Hstrip at 1.
    rewrite !inject_Z_mult, !pow_inject by lia.
    change (inject_Z 10) with (10 : Q).
    rewrite <- Qmult_assoc, <- Qpower_plus by done.
    by replace (e - e0 + e0)%Z with e by lia. }
  rewrite (reads_as_proper _ _ _ Hc0) in Hread.
  destruct (Qle_bool 0 q) eqn:Hsign.
  - apply Qle_bool_iff in Hsign.
    destruct (integer_text (format s e) (s * 10 ^ e) false HD)
      as (_ & _ & _ & _ & _ & _ & Hnum).
    cbv zeta iota in Hnum. simpl app in Hge. rewrite Hnum in Hge.
    unfold reads_as in Hread.
    destruct (F64.round (inject_Z (s * 10 ^ e))) as [v | | |]; try done.
    apply Qeq_bool_iff in Hread. rewrite Qabs_pos in Hread by done.
    rewrite <- Hread. by apply Qle_bool_iff.
  - exfalso.
    destruct (integer_text (format s e) (s * 10 ^ e) true HD)
      as (_ & _ & _ & _ & _ & _ & Hnum).
    cbv zeta iota in Hnum. simpl app in Hge. rewrite Hnum in Hge.
    assert (inject_Z (- (s * 10 ^ e)) <= inject_Z 0) as Hneg.
    { rewrite <- Zle_Qle.
      assert (0 < 10 ^ e)%Z by (apply Z.pow_pos_nonneg; lia). nia. }
    pose proof (round_le_Z _ 0 ltac:(lia) Hneg) as Hle.
    destruct (F64.round (inject_Z (- (s * 10 ^ e)))) as [v | | |];
      try done.
    unfold F64.ge in Hge. simpl in Hge, Hle.
    apply Qle_bool_iff in Hge, Hle.
    assert (1 <= 0) as Habs by (by eapply Qle_trans). done.
Qed.

(** ** The crop handler *)

Lemma le_not_gt (r : F64.t) (n : Q) :
  F64.le r (F64.Finite n) = true → F64.gt r (F64.Finite n) = false.
Proof.
  destruct r as [v | | |]; simpl; try done.
  intros H%Qle_bool_iff. unfold F64.gt; simpl.
  apply negb_false_iff. by apply Qle_bool_iff.
Qed.

Lemma ge_gt (r : F64.t) (a b : Q) :
  F64.le (F64.Finite a) r = true → b < a → F64.gt r (F64.Finite b) = true.
Proof.
  destruct r as [v | | |]; simpl; try done.
  intros H%Qle_bool_iff Hlt. unfold F64.gt; simpl.
  apply negb_true_iff, Qle_bool_false. by eapply Qlt_le_trans.
Qed.

(** The sum of two whole numbers against a whole number of pixels. *)
Lemma whole_sum_gt (a b n : Z) :
  (0 ≤ n < 2 ^ 53)%Z →
  F64.gt (F64.add (F64.of_Z a) (F64.of_Z b)) (F64.of_Z n)
  = bool_decide (n < a + b)%Z.
Proof.
  intros Hn. unfold F64.of_Z. cbn [F64.add].
  rewrite (round_proper _ (inject_Z (a + b))) by (by rewrite inject_Z_plus).
  case_bool_decide as Hlt.
  - apply (ge_gt _ (inject_Z (n + 1))).
    + apply round_ge_Z; [lia |]. rewrite <- Zle_Qle. lia.
    + rewrite <- Zlt_Qlt. lia.
  - apply le_not_gt. apply round_le_Z; [done |]. rewrite <- Zle_Qle. lia.
Qed.

Lemma whole_lt_0 (a : Z) :
  F64.lt (F64.of_Z a) (F64.Finite 0) = bool_decide (a < 0)%Z.
Proof.
  unfold F64.of_Z. cbn [F64.lt]. case_bool_decide as Hlt.
  - apply negb_true_iff, Qle_bool_false. change 0 with (inject_Z 0).
    by rewrite <- Zlt_Qlt.
  - apply negb_false_iff, Qle_bool_iff. change 0 with (inject_Z 0).
    rewrite <- Zle_Qle. lia.
Qed.

Lemma whole_ge (a b : Z) :
  F64.ge (F64.of_Z a) (F64.of_Z b) = bool_decide (b ≤ a)%Z.
Proof.
  unfold F64.ge, F64.of_Z. cbn [F64.le]. case_bool_decide as Hle.
  - apply Qle_bool_iff. by rewrite <- Zle_Qle.
  - apply Qle_bool_false. rewrite <- Zlt_Qlt. lia.
Qed.

(** The validation chain on a crop of whole pixels. *)
Lemma pixel_crop_valid (c : CropRequest) (x y w h r : Z) (fh fv : bool)
    (ratio : string) :
  pixel_crop c x y w h → plain_options c r fh fv ratio →
  safe x → safe y → safe w → safe h →
  crop_fields_valid c = bool_decide (1 ≤ w)%Z && bool_decide (1 ≤ h)%Z.
Proof.
  intros (Hx & Hy & Hw & Hh) (Hr & Hfh & Hfv & _) Sx Sy Sw Sh.
  unfold crop_fields_valid. rewrite Hx, Hy, Hw, Hh.
  change (validated_text (Some (SNum (F64.Finite (inject_Z ?z)))))
    with (numberToString (F64.of_Z z)).
  destruct (whole_member x Sx) as (-> & _).
  destruct (whole_member y Sy) as (-> & _).
  unfold isInt_min1.
  destruct (whole_member w Sw) as (_ & -> & _ & _ & _ & _ & ->).
  destruct (whole_member h Sh) as (_ & -> & _ & _ & _ & _ & ->).
  change (F64.Finite 1) with (F64.of_Z 1). rewrite !whole_ge.
  assert (optional isFloat_rotation (req_rotation c) = true) as ->.
  { destruct Hr as [[-> _] | [-> Hr]]; [done |].
    assert (safe r) as Sr by (unfold safe; lia).
    unfold optional, isFloat_rotation.
    change (validated_text (Some (SNum (F64.of_Z r))))
      with (numberToString (F64.of_Z r)).
    destruct (whole_member r Sr) as (_ & _ & -> & Hnot & -> & _).
    rewrite bool_decide_eq_false_2 by done.
    change (F64.Finite (-180)) with (F64.of_Z (-180)).
    change (F64.Finite 180) with (F64.of_Z 180).
    change (F64.le (F64.of_Z r) (F64.of_Z 180))
      with (F64.ge (F64.of_Z 180) (F64.of_Z r)).
    rewrite !whole_ge. rewrite !bool_decide_eq_true_2 by lia. done. }
  assert (optional isBoolean (req_flipHorizontal c) = true) as ->.
  { destruct Hfh as [[-> _] | ->]; [done | by destruct fh]. }
  assert (optional isBoolean (req_flipVertical c) = true) as ->.
  { destruct Hfv as [[-> _] | ->]; [done | by destruct fv]. }
  by rewrite !andb_true_r.
Qed.

(** The bounds test on a crop of whole pixels. *)
Lemma pixel_crop_bounds (c : CropRequest) (x y w h W H : Z) :
  pixel_crop c x y w h → (0 ≤ W < 2 ^ 53)%Z → (0 ≤ H < 2 ^ 53)%Z →
  exceeds_bounds c (mkDimensions (inject_Z W) (inject_Z H))
  = bool_decide (x < 0 ∨ y < 0 ∨ W < x + w ∨ H < y + h)%Z.
Proof.
  intros (Hx & Hy & Hw & Hh) HW HH.
  unfold exceeds_bounds. rewrite Hx, Hy, Hw, Hh.
  cbn [js_add ToNumber width height].
  change (F64.Finite (inject_Z ?z)) with (F64.of_Z z).
  rewrite !whole_lt_0, !whole_sum_gt by done.
  repeat case_bool_decide; simpl; try done; lia.
Qed.

(** What the handler stores of a crop of whole pixels. *)
Lemma pixel_crop_data (c : CropRequest) (x y w h r : Z) (fh fv : bool)
    (ratio : string) :
  pixel_crop c x y w h → plain_options c r fh fv ratio →
  safe x → safe y → safe w → safe h →
  cropData c
  = Some (mkCrop (F64.of_Z x) (F64.of_Z y) (F64.of_Z w) (F64.of_Z h)
            (F64.of_Z r) fh fv ratio).
Proof.
  intros (Hx & Hy & Hw & Hh) (Hr & Hfh & Hfv & Hratio) Sx Sy Sw Sh.
  unfold cropData. rewrite Hx, Hy, Hw, Hh.
  change (ToString (Some (SNum (F64.Finite (inject_Z ?z)))))
    with (numberToString (F64.of_Z z)).
  destruct (whole_member x Sx) as (_ & _ & _ & _ & -> & _).
  destruct (whole_member y Sy) as (_ & _ & _ & _ & -> & _).
  destruct (whole_member w Sw) as (_ & _ & _ & _ & _ & -> & _).
  destruct (whole_member h Sh) as (_ & _ & _ & _ & _ & -> & _).
  cbn [F64.is_nan F64.of_Z orb].
  assert ((if F64.falsy (parseFloat (ToString (req_rotation c)))
           then F64.Finite 0
           else parseFloat (ToString (req_rotation c))) = F64.of_Z r
          ∧ (-180 ≤ r ≤ 180)%Z) as [-> Hrange].
  { destruct Hr as [[-> ->] | [-> Hr]]; [done |].
    split; [| done].
    assert (safe r) as Sr by (unfold safe; lia).
    change (ToString (Some (SNum (F64.of_Z r))))
      with (numberToString (F64.of_Z r)).
    destruct (whole_member r Sr) as (_ & _ & _ & _ & -> & _).
    unfold F64.falsy, F64.of_Z.
    destruct (Qeq_bool (inject_Z r) 0) eqn:E; [| done].
    apply Qeq_bool_iff in E. unfold Qeq in E; simpl in E.
    by replace r with 0%Z by lia. }
  change (F64.Finite (-180)) with (F64.of_Z (-180)).
  change (F64.Finite 180) with (F64.of_Z 180).
  change (F64.le (F64.of_Z r) (F64.of_Z 180))
    with (F64.ge (F64.of_Z 180) (F64.of_Z r)).
  rewrite !whole_ge, !bool_decide_eq_true_2 by lia. cbn [andb negb].
  assert (flip_cast (req_flipHorizontal c) = Some fh) as ->.
  { destruct Hfh as [[-> ->] | ->]; [done | by destruct fh]. }
  assert (flip_cast (req_flipVertical c) = Some fv) as ->.
  { destruct Hfv as [[-> ->] | ->]; [done | by destruct fv]. }
  destruct Hratio as [[-> ->] | [-> Hne]]; [done |].
  cbn [is_truthy ToString]. by rewrite bool_decide_eq_false_2.
Qed.

(** A width or height that is a number but not a whole one fails the
    validation chain. *)
Lemma fraction_fails_validation (c : CropRequest) (q : Q) :
  req_width c = number q ∨ req_height c = number q →
  (∀ z : Z, ¬ q == inject_Z z) →
  crop_fields_valid c = false.
Proof.
  intros Hmember Hfraction. unfold crop_fields_valid.
  assert (isInt_min1 (numberToString (F64.Finite q)) = false) as Hno.
  { unfold isInt_min1.
    destruct (int_pattern _) eqn:Hpat; [| done].
    apply int_pattern_whole in Hpat as [z Hz]. by destruct (Hfraction z). }
  destruct Hmember as [-> | ->];
    change (validated_text (number q))
      with (numberToString (F64.Finite q));
    rewrite Hno, ?andb_false_r; done.
Qed.

Lemma putCrop_inr (c : CropRequest) (t1 t2 : Time) (p p' : Project) :
  putCrop c t1 t2 p = inr p' →
  crop_fields_valid c = true
  ∧ exceeds_bounds c (dimensions (image p)) = false
  ∧ ∃ s, cropData c = Some s ∧ p' = applyCrop s t1 t2 p.
Proof.
  unfold putCrop. destruct (crop_fields_valid c); [| done].
  destruct (exceeds_bounds c _); [done |].
  destruct (cropData c) as [s |]; [| done].
  intros [= <-]. by eauto.
Qed.

(** What the bounds test leaves of a crop whose measures are numbers:
    a sum that, rounded, does not pass the edge passes it by less than
    a pixel. *)
Lemma sum_not_gt (a b : Q) (n : Z) :
  (0 ≤ n < 2 ^ 53)%Z →
  F64.gt (F64.add (F64.Finite a) (F64.Finite b)) (F64.of_Z n) = false →
  a + b < inject_Z (n + 1).
Proof.
  intros Hn Hgt. apply Qnot_le_lt. intros Hle.
  cbn [F64.add] in Hgt.
  rewrite (ge_gt _ (inject_Z (n + 1)) (inject_Z n)) in Hgt; [done | |].
  - apply round_ge_Z; [lia | done].
  - rewrite <- Zlt_Qlt. lia.
Qed.

Lemma number_crop_accepted (c : CropRequest) (x y w h : Q) (W H : Z)
    (t1 t2 : Time) (p p' : Project) :
  measures p W H → (0 ≤ W < 2 ^ 53)%Z → (0 ≤ H < 2 ^ 53)%Z →
  number_crop c x y w h → putCrop c t1 t2 p = inr p' →
  0 <= x ∧ 0 <= y
  ∧ F64.gt (F64.add (F64.Finite x) (F64.Finite w)) (F64.of_Z W) = false
  ∧ F64.gt (F64.add (F64.Finite y) (F64.Finite h)) (F64.of_Z H) = false
  ∧ x + w < inject_Z (W + 1) ∧ y + h < inject_Z (H + 1)
  ∧ ∃ zw zh : Z,
      w == inject_Z zw ∧ h == inject_Z zh ∧ (1 ≤ zw)%Z ∧ (1 ≤ zh)%Z.
Proof.
  intros Hdim HW HH (Hx & Hy & Hw & Hh) (Hvalid & Hin & _)%putCrop_inr.
  rewrite Hdim in Hin. unfold exceeds_bounds in Hin.
  rewrite Hx, Hy, Hw, Hh in Hin. cbn [js_add ToNumber width height] in Hin.
  rewrite !orb_false_iff in Hin. destruct Hin as [[[Hx0 Hy0] Hright] Hbottom].
  cbn [F64.lt] in Hx0, Hy0. apply negb_false_iff, Qle_bool_iff in Hx0, Hy0.
  split; [done |]. split; [done |]. split; [done |]. split; [done |].
  split; [by apply sum_not_gt |]. split; [by apply sum_not_gt |].
  unfold crop_fields_valid in Hvalid. rewrite Hw, Hh in Hvalid.
  rewrite !andb_true_iff in Hvalid.
  destruct Hvalid as [[[[[_ Hwi] Hhi] _] _] _].
  cbn [validated_text ToString] in Hwi, Hhi.
  pose proof (isInt_min1_number w Hwi) as Hw1.
  pose proof (isInt_min1_number h Hhi) as Hh1.
  apply andb_true_iff in Hwi as [[zw Hzw]%int_pattern_whole _].
  apply andb_true_iff in Hhi as [[zh Hzh]%int_pattern_whole _].
  exists zw, zh. split; [done |]. split; [done |].
  rewrite Hzw in Hw1. rewrite Hzh in Hh1.
  change 1 with (inject_Z 1) in Hw1, Hh1.
  rewrite <- Zle_Qle in Hw1, Hh1. done.
Qed.

(** C4, as amended.  On an image of [W] by [H] pixels a crop of whole
    pixels (JSON numbers that are integers) is refused with the
    validation error when its width or height is less than 1; else it
    is refused with the bounds error when it starts before the origin
    or ends past the right or bottom edge, and otherwise accepted and
    stored as it was sent, within the image.  A crop whose width or
    height is a number that is not whole is refused with the
    validation error wherever it lies.  Every crop of numbers that is
    accepted starts at or after the origin and is a whole number of
    pixels, one or more, wide and high; its right and bottom edges,
    the sums as doubles, do not pass those of the image, so that the
    exact sums pass them by less than a pixel.  The test is the
    handler's: [applyCrop] stores what it is given. *)
Theorem crop_bounds_checked (pushed_at edited_at : Time) (p : Project)
    (W H : Z) :
  measures p W H → (0 ≤ W < 2 ^ 53)%Z → (0 ≤ H < 2 ^ 53)%Z →
  (∀ c x y w h r fh fv ratio,
     pixel_crop c x y w h → plain_options c r fh fv ratio →
     safe x → safe y → safe w → safe h →
     let stored :=
       mkCrop (F64.of_Z x) (F64.of_Z y) (F64.of_Z w) (F64.of_Z h)
         (F64.of_Z r) fh fv ratio in
     ((w < 1 ∨ h < 1)%Z →
      putCrop c pushed_at edited_at p = inl ValidationFailed)
     ∧ ((1 ≤ w)%Z → (1 ≤ h)%Z →
        (x < 0 ∨ y < 0 ∨ W < x + w ∨ H < y + h)%Z →
        putCrop c pushed_at edited_at p = inl CropOutOfBounds)
     ∧ ((1 ≤ w)%Z → (1 ≤ h)%Z → (0 ≤ x)%Z → (0 ≤ y)%Z →
        (x + w ≤ W)%Z → (y + h ≤ H)%Z →
        putCrop c pushed_at edited_at p
        = inr (applyCrop stored pushed_at edited_at p)
        ∧ within stored (dimensions (image p))))
  ∧ (∀ c q,
       req_width c = number q ∨ req_height c = number q →
       (∀ z : Z, ¬ q == inject_Z z) →
       putCrop c pushed_at edited_at p = inl ValidationFailed)
  ∧ (∀ c x y w h p',
       number_crop c x y w h →
       putCrop c pushed_at edited_at p = inr p' →
       0 <= x ∧ 0 <= y
       ∧ F64.gt (F64.add (F64.Finite x) (F64.Finite w)) (F64.of_Z W) = false
       ∧ F64.gt (F64.add (F64.Finite y) (F64.Finite h)) (F64.of_Z H) = false
       ∧ x + w < inject_Z (W + 1) ∧ y + h < inject_Z (H + 1)
       ∧ ∃ zw zh : Z,
           w == inject_Z zw ∧ h == inject_Z zh
           ∧ (1 ≤ zw)%Z ∧ (1 ≤ zh)%Z)
  ∧ (∀ s, crop (applyCrop s pushed_at edited_at p) = Some s).
Proof.
  intros Hdim HW HH. split; [| split; [| split]].
  - intros c x y w h r fh fv ratio Hc Ho Sx Sy Sw Sh stored.
    unfold putCrop.
    rewrite (pixel_crop_valid c x y w h r fh fv ratio) by done.
    rewrite Hdim, (pixel_crop_bounds c x y w h W H) by done.
    rewrite (pixel_crop_data c x y w h r fh fv ratio) by done.
    split; [| split].
    + intros Hsmall.
      assert (bool_decide (1 ≤ w)%Z && bool_decide (1 ≤ h)%Z = false) as ->;
        [| done].
      apply andb_false_iff.
      destruct Hsmall; [left | right]; apply bool_decide_eq_false; lia.
    + intros Hw Hh Hout.
      rewrite !bool_decide_eq_true_2 by done. done.
    + intros Hw Hh Hx Hy Hright Hbottom.
      rewrite !bool_decide_eq_true_2 by done.
      rewrite bool_decide_eq_false_2 by lia. split; [done |].
      exists (inject_Z x), (inject_Z y), (inject_Z w), (inject_Z h).
      repeat split; try done; cbn [width height];
        rewrite <- ?inject_Z_plus; change 0 with (inject_Z 0);
        by rewrite <- Zle_Qle.
  - intros c q Hmember Hfraction. unfold putCrop.
    by rewrite (fraction_fails_validation c q).
  - intros c x y w h p' Hc Hput.
    by apply (number_crop_accepted c x y w h W H pushed_at edited_at p p').
  - done.
Qed.

Lemma crop_bounds_checked_witness :
  (∃ s, putCrop sample_crop 2000%Z 2000%Z sample_project
        = inr (applyCrop s 2000%Z 2000%Z sample_project)
        ∧ within s (mkDimensions 800 600))
  ∧ putCrop wide_crop 2000%Z 2000%Z sample_project = inl CropOutOfBounds
  ∧ putCrop empty_crop 2000%Z 2000%Z sample_project = inl ValidationFailed
  ∧ putCrop fractional_crop 2000%Z 2000%Z sample_project
    = inl ValidationFailed.
Proof.
  destruct (crop_bounds_checked 2000%Z 2000%Z sample_project 800 600)
    as (Hpixels & Hfraction & _ & _); [reflexivity | lia | lia |].
  split; [| split; [| split]].
  - destruct (Hpixels sample_crop 100 100 400 300 0 false false "free")%Z
      as (_ & _ & Hin).
    + repeat split.
    + split; [right; split; [reflexivity | lia] |].
      split; [by left |]. split; by left.
    + unfold safe; lia.
    + unfold safe; lia.
    + unfold safe; lia.
    + unfold safe; lia.
    + eexists. apply Hin; lia.
  - destruct (Hpixels wide_crop 100 100 701 300 0 false false "free")%Z
      as (_ & Hout & _).
    + repeat split.
    + split; [right; split; [reflexivity | lia] |].
      split; [by left |]. split; by left.
    + unfold safe; lia.
    + unfold safe; lia.
    + unfold safe; lia.
    + unfold safe; lia.
    + apply Hout; lia.
  - destruct (Hpixels empty_crop 100 100 0 300 0 false false "free")%Z
      as (Hsmall & _ & _).
    + repeat split.
    + split; [by left |]. split; [by left |]. split; by left.
    + unfold safe; lia.
    + unfold safe; lia.
    + unfold safe; lia.
    + unfold safe; lia.
    + apply Hsmall; lia.
  - apply (Hfraction fractional_crop (201 # 2)); [by left |].
    intros z Hz. unfold Qeq in Hz; simpl in Hz. lia.
Defined.

(** C4, as stated, fails: a rectangle strictly inside the image is
    refused when its width is not a whole number of pixels. *)
Lemma fractional_crop_refused : ¬ inside_always_accepted.
Proof.
  intros Hclaim.
  destruct (Hclaim fractional_crop 0 0 (201 # 2) 100 2000%Z 2000%Z
              sample_project) as [p' Hp'];
    [repeat split | reflexivity .. | discriminate | discriminate
     | reflexivity | reflexivity | reflexivity | reflexivity |].
  unfold putCrop in Hp'.
  rewrite (fraction_fails_validation fractional_crop (201 # 2)) in Hp';
    [done | by left |].
  intros z Hz. unfold Qeq in Hz; simpl in Hz. lia.
Qed.

(** A crop whose measures are sent as strings is tested on the texts
    joined: 8000 pixels wide, it passes the test of an image of 800 by
    600 and is stored. *)
Lemma string_crop_stored :
  ∃ s, putCrop string_crop 2000%Z 2000%Z sample_project
       = inr (applyCrop s 2000%Z 2000%Z sample_project)
       ∧ crop_width s = F64.Finite 8000
       ∧ ¬ within s (mkDimensions 800 600).
Proof.
  eexists. split; [vm_compute; reflexivity |]. split; [reflexivity |].
  intros (x & y & w & h & Hx & _ & Hw & _ & Hx0 & _ & Hright & _).
  simpl in *. injection Hx as <-. injection Hw as <-.
  revert Hright. apply Qlt_not_le. reflexivity.
Qed.

(** The sum of two measures is rounded before it is compared: a crop
    that ends past the right edge by less than the sum can tell is
    stored. *)
Lemma rounded_crop_stored :
  ∃ s, putCrop rounded_crop 2000%Z 2000%Z sample_project
       = inr (applyCrop s 2000%Z 2000%Z sample_project)
       ∧ ¬ within s (mkDimensions 800 600).
Proof.
  eexists. split; [vm_compute; reflexivity |].
  intros (x & y & w & h & Hx & _ & Hw & _ & _ & _ & Hright & _).
  cbn [crop_x crop_width width] in Hx, Hw, Hright.
  injection Hx as <-. injection Hw as <-.
  revert Hright. apply Qlt_not_le. reflexivity.
Qed.


(** ** The preview *)

Lemma neq_false a b : JS.neq a b = false ↔ a == b.
Proof. unfold JS.neq. rewrite negb_false_iff. apply Qeq_bool_iff. Qed.

Lemma filter_chain_nil a :
  exposure a == 0 → contrast a == 0 → saturation a == 0 →
  temperature a == 0 → filter_chain a = [].
Proof.
  intros He Hc Hs Ht.
  unfold filter_chain, exposure_stage, contrast_stage, saturation_stage,
    temperature_stage.
  by rewrite !(proj2 (neq_false _ _)).
Qed.

(** C1. With the default model the filter chain is empty, the filter
    string is ['none'] and the rendered pixels are the source pixels;
    each of the four stages pushes nothing when its parameter is zero,
    so the same holds of every model whose four parameters are zero. *)
Theorem default_model_is_identity (num_to_string : Q → string)
    (Pixels : Type) (apply_filter : Filter → Pixels → Pixels)
    (source : Pixels) :
  filter_chain default_adjustments = []
  ∧ buildCSSFilters num_to_string default_adjustments = "none"
  ∧ render Pixels apply_filter default_adjustments source = source
  ∧ (∀ a, exposure a == 0 → exposure_stage a = [])
  ∧ (∀ a, contrast a == 0 → contrast_stage a = [])
  ∧ (∀ a, saturation a == 0 → saturation_stage a = [])
  ∧ (∀ a, temperature a == 0 → temperature_stage a = [])
  ∧ (∀ a, exposure a == 0 → contrast a == 0 → saturation a == 0 →
          temperature a == 0 →
          buildCSSFilters num_to_string a = "none"
          ∧ render Pixels apply_filter a source = source).
Proof.
  split; [reflexivity |]. split; [reflexivity |]. split; [reflexivity |].
  split; [| split; [| split; [| split]]].
  - intros a H. unfold exposure_stage. by rewrite (proj2 (neq_false _ _) H).
  - intros a H. unfold contrast_stage. by rewrite (proj2 (neq_false _ _) H).
  - intros a H. unfold saturation_stage. by rewrite (proj2 (neq_false _ _) H).
  - intros a H. unfold temperature_stage.
    by rewrite (proj2 (neq_false _ _) H).
  - intros a He Hc Hs Ht. unfold buildCSSFilters, render.
    by rewrite (filter_chain_nil a He Hc Hs Ht).
Qed.

Lemma default_model_is_identity_witness :
  buildCSSFilters (fun _ => "?") unread_fields_set = "none"
  ∧ render nat (fun _ px => S px) unread_fields_set 7%nat = 7%nat.
Proof.
  destruct (default_model_is_identity (fun _ => "?") nat (fun _ px => S px)
              7%nat) as (_ & _ & _ & _ & _ & _ & _ & Hzero).
  apply (Hzero unread_fields_set); reflexivity.
Defined.

Lemma filter_chain_agree (a1 a2 : Adjustments) :
  exposure a1 = exposure a2 → contrast a1 = contrast a2 →
  saturation a1 = saturation a2 → temperature a1 = temperature a2 →
  filter_chain a1 = filter_chain a2.
Proof.
  intros He Hc Hs Ht.
  unfold filter_chain, exposure_stage, contrast_stage, saturation_stage,
    temperature_stage. by rewrite He, Hc, Hs, Ht.
Qed.





(** ** The image cache *)

(** C10. The cache does not keep within its capacity.  [evictLRU]
    starts its search from the current clock reading and evicts only
    an entry with a strictly earlier access time and a non-empty key:
    a second image set in the same millisecond as the first, or set
    after one stored under the empty URL, evicts nothing, and a cache
    of capacity 1 then holds 2 entries. *)
Theorem cache_exceeds_capacity :
  ImageCache.size (ImageCache.run (ImageCache.create 1) same_tick_sets)
  = 2%Z
  ∧ ImageCache.size (ImageCache.run (ImageCache.create 1) empty_url_sets)
    = 2%Z
  ∧ ImageCache.evictLRU 5%Z
      (ImageCache.run (ImageCache.create 1) (take 1 same_tick_sets))
    = ImageCache.run (ImageCache.create 1) (take 1 same_tick_sets).
Proof. repeat split. Qed.

Section CacheMaps.
Context {V W : Type}.
Implicit Types (m : ImageCache.JSMap V) (n : ImageCache.JSMap W).

Lemma map_set_keys key (v : V) (w : W) m n :
  m.*1 = n.*1 →
  (ImageCache.map_set key v m).*1 = (ImageCache.map_set key w n).*1.
Proof.
  revert n. induction m as [| [k x] m IH]; intros [| [k' y] m'] H;
    simplify_eq/=; [done |].
  case_decide; simpl; f_equal; auto.
Qed.

Lemma map_delete_keys key m n :
  m.*1 = n.*1 →
  (ImageCache.map_delete key m).*1 = (ImageCache.map_delete key n).*1.
Proof.
  revert n. induction m as [| [k x] m IH]; intros [| [k' y] m'] H;
    simplify_eq/=; [done |].
  case_bool_decide; simpl; f_equal; auto.
Qed.

Lemma map_set_known key (v : V) m :
  key ∈ m.*1 → (ImageCache.map_set key v m).*1 = m.*1.
Proof.
  induction m as [| [k x] m IH]; simpl; [by intros ?%elem_of_nil |].
  intros Hin. case_decide as Hk; [done |]. simpl. f_equal. apply IH.
  apply elem_of_cons in Hin as [-> | Hin]; done.
Qed.

Lemma map_get_known key m x :
  ImageCache.map_get key m = Some x → key ∈ m.*1.
Proof.
  unfold ImageCache.map_get.
  induction m as [| [k y] m IH]; simpl; [done |].
  case_bool_decide as Hk; simpl in *.
  - subst k. intros _. apply elem_of_cons. by left.
  - intros H. apply elem_of_cons. right. by apply IH.
Qed.

Lemma map_set_length key (v : V) m :
  (length (ImageCache.map_set key v m) ≤ S (length m))%nat.
Proof.
  induction m as [| [k x] m IH]; simpl; [lia |].
  case_decide; simpl; lia.
Qed.

Lemma map_delete_length key m :
  (length (ImageCache.map_delete key m) ≤ length m)%nat.
Proof.
  induction m as [| [k x] m IH]; simpl; [lia |].
  case_bool_decide; simpl; lia.
Qed.

Lemma map_delete_shrinks key m :
  key ∈ m.*1 → (length (ImageCache.map_delete key m) < length m)%nat.
Proof.
  induction m as [| [k x] m IH]; simpl; [by intros ?%elem_of_nil |].
  intros Hin. case_bool_decide as Hk; simpl in *.
  - pose proof (map_delete_length key m). lia.
  - apply elem_of_cons in Hin as [-> | Hin]; [done |].
    specialize (IH Hin). lia.
Qed.

Lemma map_set_Forall (P : string * V → Prop) key v m :
  P (key, v) → Forall P m → Forall P (ImageCache.map_set key v m).
Proof.
  intros Hnew. induction 1 as [| [k x] m Hx Hm IH]; simpl.
  - by repeat constructor.
  - case_decide; [subst k |]; by constructor.
Qed.

Lemma map_delete_Forall (P : string * V → Prop) key m :
  Forall P m → Forall P (ImageCache.map_delete key m).
Proof.
  induction 1 as [| [k x] m Hx Hm IH]; simpl; [done |].
  case_bool_decide; simpl; [done | by constructor].
Qed.

End CacheMaps.

(** The search of [evictLRU] either keeps its start value, and then no
    entry is earlier than the clock reading, or stops at a key of the
    map. *)
Lemma oldest_found now (times : ImageCache.JSMap Time) :
  (ImageCache.oldest now times).2 ∈ times.*1
  ∨ (ImageCache.oldest now times = (now, "")
     ∧ Forall (fun kt => (now ≤ kt.2)%Z) times).
Proof.
  unfold ImageCache.oldest.
  assert (∀ (l : ImageCache.JSMap Time) t0 k0,
    (foldl ImageCache.older (t0, k0) l).2 ∈ l.*1
    ∨ (foldl ImageCache.older (t0, k0) l = (t0, k0)
       ∧ Forall (fun kt => (t0 ≤ kt.2)%Z) l)) as Hgen; [| apply Hgen].
  induction l as [| [k t] l IH]; intros t0 k0; simpl.
  { right. by split. }
  case_bool_decide as Hlt.
  - left. destruct (IH t k) as [Hin | [Heq _]].
    + apply elem_of_cons. by right.
    + rewrite Heq. apply elem_of_cons. by left.
  - destruct (IH t0 k0) as [Hin | [Heq Hall]].
    + left. apply elem_of_cons. by right.
    + right. split; [done |]. constructor; [simpl; lia | done].
Qed.

Section CacheBound.
Context {Img : Type}.
Implicit Types (c : ImageCache.t Img).

Lemma cache_ok_later last last' c :
  (last ≤ last')%Z → cache_ok last c → cache_ok last' c.
Proof.
  intros Hle (Hkeys & Htimes & Hsize). repeat split; [done | | done].
  eapply Forall_impl; [exact Htimes |]. simpl. intros kt [? ?].
  split; [done | lia].
Qed.

Lemma cache_sizes c :
  (ImageCache.cache c).*1 = (ImageCache.accessTimes c).*1 →
  length (ImageCache.cache c) = length (ImageCache.accessTimes c).
Proof. intros H. by rewrite <- (length_fmap fst), H, length_fmap. Qed.

(** A full cache read on a later clock gives up an entry. *)
Lemma evictLRU_shrinks last now c :
  cache_ok last c → (last < now)%Z → ImageCache.cache c ≠ [] →
  let c1 := ImageCache.evictLRU now c in
  (ImageCache.cache c1).*1 = (ImageCache.accessTimes c1).*1
  ∧ Forall (fun kt => kt.1 ≠ "" ∧ (kt.2 ≤ last)%Z)
      (ImageCache.accessTimes c1)
  ∧ (ImageCache.size c1 < ImageCache.size c)%Z
  ∧ ImageCache.maxSize c1 = ImageCache.maxSize c.
Proof.
  intros (Hkeys & Htimes & Hsize) Hnow Hne. unfold ImageCache.evictLRU.
  destruct (oldest_found now (ImageCache.accessTimes c)) as [Hin | [_ Hall]].
  - assert ((ImageCache.oldest now (ImageCache.accessTimes c)).2 ≠ "") as Hk.
    { apply list_elem_of_fmap in Hin as (kt & -> & Hkt).
      rewrite Forall_forall in Htimes. by apply Htimes. }
    case_decide; [done |]. simpl. repeat split.
    + by apply map_delete_keys.
    + by apply map_delete_Forall.
    + unfold ImageCache.size, ImageCache.map_size. simpl.
      rewrite <- Hkeys in Hin.
      pose proof (map_delete_shrinks _ _ Hin). lia.
  - exfalso. pose proof (cache_sizes c Hkeys) as Hlen.
    destruct (ImageCache.accessTimes c) as [| [k t] times].
    + destruct (ImageCache.cache c); [done | discriminate].
    + apply Forall_cons in Hall as [Ht _].
      apply Forall_cons in Htimes as [[_ Ht'] _].
      simpl in *. lia.
Qed.

Lemma step_ok last c op :
  cache_ok last c →
  match op with
  | ImageCache.OpGet _ now =>
      (last < now)%Z → cache_ok now (ImageCache.step c op)
  | ImageCache.OpSet url _ evict_at now =>
      (1 ≤ ImageCache.maxSize c)%Z → url ≠ "" → (last < evict_at)%Z →
      (evict_at ≤ now)%Z → cache_ok now (ImageCache.step c op)
  | ImageCache.OpClear =>
      (0 ≤ ImageCache.maxSize c)%Z → cache_ok last (ImageCache.step c op)
  end.
Proof.
  intros Hok. destruct op as [url now | url image evict_at now |]; simpl.
  - intros Hnow. unfold ImageCache.get.
    destruct (ImageCache.map_get url (ImageCache.cache c))
      as [image |] eqn:Hget; simpl;
      [| apply (cache_ok_later last); [lia | done]].
    apply (cache_ok_later last now) in Hok as (Hkeys & Htimes & Hsize); [| lia].
    apply map_get_known in Hget. rewrite Hkeys in Hget.
    repeat split; simpl; [| | done].
    + by rewrite map_set_known.
    + apply map_set_Forall; [| done]. simpl. split; [| lia].
      apply list_elem_of_fmap in Hget as (kt & -> & Hkt).
      rewrite Forall_forall in Htimes. by apply Htimes.
  - intros Hcap Hurl Hevict Hnow. unfold ImageCache.set.
    set (c1 := if bool_decide _ then _ else _).
    assert ((ImageCache.cache c1).*1 = (ImageCache.accessTimes c1).*1
            ∧ Forall (fun kt => kt.1 ≠ "" ∧ (kt.2 ≤ last)%Z)
                (ImageCache.accessTimes c1)
            ∧ (ImageCache.size c1 < ImageCache.maxSize c)%Z
            ∧ ImageCache.maxSize c1 = ImageCache.maxSize c)
      as (Hkeys & Htimes & Hsize & Hmax).
    { subst c1. case_bool_decide as Hfull.
      - destruct (evictLRU_shrinks last evict_at c Hok Hevict)
          as (? & ? & ? & ?).
        { intros Hnil. unfold ImageCache.map_size in Hfull.
          rewrite Hnil in Hfull. simpl in Hfull. lia. }
        destruct Hok as (_ & _ & ?). repeat split; [done .. | lia | done].
      - destruct Hok as (? & ? & ?). unfold ImageCache.size in *.
        split; [done | split; [done | split; [lia | done]]]. }
    repeat split; simpl.
    + by apply map_set_keys.
    + apply map_set_Forall; [simpl; split; [done | lia] |].
      eapply Forall_impl; [exact Htimes |]. simpl. intros kt [? ?].
      split; [done | lia].
    + unfold ImageCache.size, ImageCache.map_size in *. simpl.
      pose proof (map_set_length url image (ImageCache.cache c1)). lia.
  - intros Hcap. repeat split; simpl; [constructor | done].
Qed.

Lemma step_maxSize c op :
  ImageCache.maxSize (ImageCache.step c op) = ImageCache.maxSize c.
Proof.
  destruct op; simpl; [| | done].
  - unfold ImageCache.get. by destruct (ImageCache.map_get _ _).
  - unfold ImageCache.set. case_bool_decide; [| done].
    unfold ImageCache.evictLRU. by case_decide.
Qed.

(** On a clock that moves between calls, with URLs that are not empty
    and a capacity of at least 1, the cache keeps within its capacity. *)
Lemma cache_bounded_on_later_readings last c ops :
  (1 ≤ ImageCache.maxSize c)%Z → cache_ok last c →
  later_readings last ops →
  (ImageCache.size (ImageCache.run c ops) ≤ ImageCache.maxSize c)%Z.
Proof.
  revert last c. induction ops as [| op ops IH]; intros last c Hcap Hok Hops.
  { by destruct Hok as (_ & _ & ?). }
  unfold ImageCache.run in *. simpl.
  rewrite <- (step_maxSize c op). pose proof (step_ok last c op Hok) as Hstep.
  destruct op as [url now | url image evict_at now |]; simpl in Hops.
  - destruct Hops as [Hnow Hrest].
    apply (IH now); [by rewrite step_maxSize | by apply Hstep | done].
  - destruct Hops as (Hurl & Hevict & Hnow & Hrest).
    apply (IH now); [by rewrite step_maxSize | by apply Hstep | done].
  - apply (IH last); [by rewrite step_maxSize | apply Hstep; lia | done].
Qed.

End CacheBound.


(** X1. A new cache of capacity at least 1 keeps within it on every
    run of calls whose clock readings move on between calls and whose
    URLs are not empty. *)
Lemma new_cache_bounded {Img} capacity last (ops : list (ImageCache.Op Img)) :
  (1 ≤ capacity)%Z → later_readings last ops →
  (ImageCache.size (ImageCache.run (ImageCache.create capacity) ops)
   ≤ capacity)%Z.
Proof.
  intros Hcap Hops.
  apply (cache_bounded_on_later_readings last (ImageCache.create capacity));
    [done | | done].
  repeat split; simpl; [constructor |].
  unfold ImageCache.size, ImageCache.map_size; simpl. lia.
Qed.

Lemma new_cache_bounded_witness :
  (ImageCache.size (ImageCache.run (ImageCache.create 2) spaced_sets)
   ≤ 2)%Z.
Proof.
  apply (new_cache_bounded 2%Z 0%Z); [lia |].
  simpl. repeat split; (discriminate || lia).
Defined.

(** ** The image cache: lookups and eviction *)

Section CacheLookups.
Context {V : Type}.
Implicit Types (m : ImageCache.JSMap V).

Lemma map_get_set_same key (v : V) m :
  ImageCache.map_get key (ImageCache.map_set key v m) = Some v.
Proof.
  unfold ImageCache.map_get.
  induction m as [| [k x] m IH]; simpl.
  - by rewrite bool_decide_eq_true_2.
  - case_decide as Hk; simpl.
    + by rewrite bool_decide_eq_true_2.
    + by rewrite bool_decide_eq_false_2.
Qed.

Lemma map_get_set_other key key' (v : V) m :
  key ≠ key' →
  ImageCache.map_get key' (ImageCache.map_set key v m)
  = ImageCache.map_get key' m.
Proof.
  intros Hne. unfold ImageCache.map_get.
  induction m as [| [k x] m IH]; simpl.
  - by rewrite bool_decide_eq_false_2.
  - case_decide as Hk; simpl.
    + subst k. by rewrite !bool_decide_eq_false_2.
    + case_bool_decide; [done | exact IH].
Qed.

Lemma map_get_delete_same key m :
  ImageCache.map_get key (ImageCache.map_delete key m) = None.
Proof.
  unfold ImageCache.map_get, ImageCache.map_delete.
  induction m as [| [k x] m IH]; simpl; [done |].
  case_bool_decide as Hk; simpl; [done |].
  by rewrite bool_decide_eq_false_2.
Qed.

Lemma map_get_delete_other key key' m :
  key ≠ key' →
  ImageCache.map_get key' (ImageCache.map_delete key m)
  = ImageCache.map_get key' m.
Proof.
  intros Hne. unfold ImageCache.map_get, ImageCache.map_delete.
  induction m as [| [k x] m IH]; simpl; [done |].
  case_bool_decide as Hk; simpl.
  - subst k. by rewrite bool_decide_eq_false_2.
  - case_bool_decide; [done | exact IH].
Qed.

End CacheLookups.

(** The search of [evictLRU] ends on the least time it has seen: no
    entry is earlier, and the key it holds is that of the first entry
    with this time, unless no entry is earlier than the start value. *)
Lemma oldest_least now (times : ImageCache.JSMap Time) :
  let found := ImageCache.oldest now times in
  Forall (fun kt => (found.1 ≤ kt.2)%Z) times
  ∧ (found = (now, "")
     ∨ ((found.2, found.1) ∈ times ∧ (found.1 < now)%Z)).
Proof.
  unfold ImageCache.oldest.
  assert (∀ (l : ImageCache.JSMap Time) t0 k0,
    let found := foldl ImageCache.older (t0, k0) l in
    (found.1 ≤ t0)%Z
    ∧ Forall (fun kt => (found.1 ≤ kt.2)%Z) l
    ∧ (found = (t0, k0) ∨ ((found.2, found.1) ∈ l ∧ (found.1 < t0)%Z)))
    as Hgen.
  { induction l as [| [k t] l IH]; intros t0 k0; simpl.
    { split; [lia |]. split; [constructor | by left]. }
    case_bool_decide as Hlt.
    - destruct (IH t k) as (Hle & Hall & Hfound).
      split; [lia |]. split; [by constructor |].
      right. destruct Hfound as [-> | [Hin Hlt']]; simpl.
      + split; [by left | done].
      + split; [by right | lia].
    - destruct (IH t0 k0) as (Hle & Hall & Hfound).
      split; [done |]. split; [constructor; [simpl; lia | done] |].
      destruct Hfound as [-> | [Hin Hlt']]; [by left |].
      right. split; [by right | done]. }
  destruct (Hgen times now "") as (_ & Hall & Hfound).
  by split.
Qed.

Section CacheUse.
Context {Img : Type}.
Implicit Types (c : ImageCache.t Img).

(** X2. An image that was set is the image [get] returns for its URL,
    whatever the cache held and whether or not the set evicted an
    entry. *)
Theorem set_then_get c url (image : Img) evict_at now read_at :
  (ImageCache.get url read_at (ImageCache.set url image evict_at now c)).1
  = Some image.
Proof.
  unfold ImageCache.get, ImageCache.set; simpl.
  by rewrite map_get_set_same.
Qed.

(** X3. When [evictLRU] removes an entry it is a least recently used
    one: its access time is before the clock reading and no entry has
    an earlier one.  Its image is gone from the cache and every other
    URL keeps its image. *)
Theorem evictLRU_removes_least_recent c now :
  let victim := (ImageCache.oldest now (ImageCache.accessTimes c)).2 in
  let c' := ImageCache.evictLRU now c in
  victim ≠ "" →
  (∃ t, (victim, t) ∈ ImageCache.accessTimes c ∧ (t < now)%Z
        ∧ ∀ url t', (url, t') ∈ ImageCache.accessTimes c → (t ≤ t')%Z)
  ∧ ImageCache.map_get victim (ImageCache.cache c') = None
  ∧ ImageCache.map_get victim (ImageCache.accessTimes c') = None
  ∧ ∀ url, url ≠ victim →
      ImageCache.map_get url (ImageCache.cache c')
      = ImageCache.map_get url (ImageCache.cache c).
Proof.
  intros victim c' Hvictim. subst victim c'.
  destruct (oldest_least now (ImageCache.accessTimes c)) as [Hall Hfound].
  unfold ImageCache.evictLRU. case_decide as Hk; [done |]. simpl.
  split; [| split; [| split]].
  - destruct Hfound as [Heq | [Hin Hlt]].
    { rewrite Heq in Hvictim. done. }
    eexists. split; [exact Hin |]. split; [exact Hlt |].
    intros url t' Hurl. rewrite Forall_forall in Hall.
    apply (Hall (url, t') Hurl).
  - apply map_get_delete_same.
  - apply map_get_delete_same.
  - intros url Hurl. by apply map_get_delete_other.
Qed.

End CacheUse.

Lemma evictLRU_removes_least_recent_witness :
  ImageCache.map_get "b.jpg"
    (ImageCache.cache
       (ImageCache.evictLRU 9%Z
          (ImageCache.run (ImageCache.create 3) spaced_sets)))
  = Some "image b"
  ∧ ImageCache.map_get "a.jpg"
      (ImageCache.cache
         (ImageCache.evictLRU 9%Z
            (ImageCache.run (ImageCache.create 3) spaced_sets)))
    = None.
Proof.
  destruct (evictLRU_removes_least_recent
              (ImageCache.run (ImageCache.create 3) spaced_sets) 9%Z)
    as (_ & Hgone & _ & Hkept); [discriminate |].
  split; [| exact Hgone].
  rewrite (Hkept "b.jpg"); [reflexivity | discriminate].
Defined.

(** ** The history: what an append records *)

Lemma slice_last_last {A} k (l : list A) x :
  (1 ≤ k)%nat → last (JS.slice_last k (l ++ [x])) = Some x.
Proof.
  intros Hk. unfold JS.slice_last. rewrite length_app; simpl.
  replace (length l + 1 - k)%nat with (length l - (k - 1))%nat by lia.
  rewrite drop_app_le by lia. by rewrite last_snoc.
Qed.

(** X4. An append never evicts the entry it adds: the last entry of the
    history is the new one, stamped with the clock reading.  After
    [applyAdjustments], [applyCrop] and [resetEdits] it carries the
    adjustments and the crop as they were before the call. *)
Theorem newest_entry_records_prior_state (p : Project)
    (pushed_at edited_at : Time) :
  (∀ act chg,
     last (history (addHistory act chg pushed_at edited_at p))
     = Some (mkEntry act (default NoChanges chg) pushed_at))
  ∧ (∀ patch,
     last (history (applyAdjustments patch pushed_at edited_at p))
     = Some (mkEntry adjust (AdjustChanges (adjustments p) patch) pushed_at))
  ∧ (∀ c,
     last (history (applyCrop c pushed_at edited_at p))
     = Some (mkEntry crop_action (CropChanges (crop p) c) pushed_at))
  ∧ last (history (resetEdits pushed_at edited_at p))
    = Some (mkEntry reset (ResetChanges (adjustments p) (crop p)) pushed_at).
Proof.
  split; [| split; [| split]]; intros;
    unfold applyAdjustments, applyCrop, resetEdits;
    rewrite addHistory_history; apply slice_last_last; lia.
Qed.

Lemma appends_version p l :
  version (appends p l) = (version p + Z.of_nat (length l))%Z.
Proof.
  revert p. induction l as [| a l IH]; intros p; simpl; [lia |].
  unfold appends in IH. rewrite IH. unfold append; simpl. lia.
Qed.

(** X5. The version of a project counts every append since its upload,
    the evicted ones too: after the upload and [n] more appends it is
    [n + 2], and the history holds the last [min 50 (n + 1)] of them. *)
Theorem version_counts_appends (ttl descr owner : string) (img : Image)
    (tgs : list string) (created_at pushed_at edited_at : Time)
    (l : list Append) :
  let p := appends (uploadProject ttl descr owner img tgs created_at
                      pushed_at edited_at) l in
  version p = (Z.of_nat (length l) + 2)%Z
  ∧ length (history p) = Nat.min 50 (length l + 1)
  ∧ (Z.of_nat (length (history p)) ≤ version p - 1)%Z.
Proof.
  cbv zeta. rewrite appends_version.
  rewrite appends_history by (simpl; lia).
  rewrite slice_last_length, length_app, length_fmap.
  change (version (uploadProject ttl descr owner img tgs created_at
                     pushed_at edited_at)) with 2%Z.
  change (length (history (uploadProject ttl descr owner img tgs
                             created_at pushed_at edited_at)))
    with 1%nat.
  lia.
Qed.

Lemma StronglySorted_snoc_le (l : list Z) (t : Z) :
  StronglySorted Z.le l → Forall (fun x => (x ≤ t)%Z) l →
  StronglySorted Z.le (l ++ [t]).
Proof.
  induction 1 as [| x l Hl IH Hx]; intros Hall; simpl.
  - repeat constructor.
  - apply Forall_cons in Hall as [Hxt Hall].
    constructor; [by apply IH |].
    apply Forall_app. split; [done | by constructor].
Qed.

Lemma StronglySorted_drop (n : nat) (l : list Z) :
  StronglySorted Z.le l → StronglySorted Z.le (drop n l).
Proof.
  revert n. induction l as [| x l IH]; intros [| n] Hs; simpl; try done.
  apply IH. by inversion Hs.
Qed.

(** X6. On a clock that does not run backwards the history stays in the
    order of its timestamps: if it is, and no entry is later than the
    reading taken for the new one, it still is after the append, and
    no entry is later than that reading. *)
Theorem history_stays_chronological (p : Project) (act : Action)
    (chg : option Changes) (pushed_at edited_at : Time) :
  chronological (history p) →
  Forall (fun e => (timestamp e ≤ pushed_at)%Z) (history p) →
  let p' := addHistory act chg pushed_at edited_at p in
  chronological (history p')
  ∧ Forall (fun e => (timestamp e ≤ pushed_at)%Z) (history p').
Proof.
  intros Hsorted Hbefore p'. subst p'. rewrite addHistory_history.
  unfold chronological, JS.slice_last. split.
  - rewrite fmap_drop, fmap_app. apply StronglySorted_drop.
    apply StronglySorted_snoc_le; [done |].
    by apply Forall_fmap.
  - apply Forall_drop. apply Forall_app. split; [done |].
    constructor; [simpl; lia | constructor].
Qed.

Lemma history_stays_chronological_witness :
  chronological
    (history (addHistory adjust None 2000%Z 2000%Z sample_project)).
Proof.
  apply (history_stays_chronological sample_project adjust None
           2000%Z 2000%Z).
  - repeat constructor.
  - repeat constructor. simpl. lia.
Defined.

(** ** Stored documents stay valid *)

Lemma adjustments_ext (a b : Adjustments) :
  (∀ f, get_path f a = get_path f b) → grain a = grain b →
  curves a = curves b → a = b.
Proof.
  intros Hpaths Hgrain Hcurves. destruct a, b; simpl in *.
  pose proof (Hpaths Exposure). pose proof (Hpaths Contrast).
  pose proof (Hpaths Highlights). pose proof (Hpaths Shadows).
  pose proof (Hpaths Whites). pose proof (Hpaths Blacks).
  pose proof (Hpaths Temperature). pose proof (Hpaths Tint).
  pose proof (Hpaths Vibrance). pose proof (Hpaths Saturation).
  pose proof (Hpaths Texture). pose proof (Hpaths Clarity).
  pose proof (Hpaths Dehaze). pose proof (Hpaths Vignette).
  clear Hpaths. simpl in *. by subst.
Qed.

Lemma grain_ext (g h : Grain) :
  (∀ m, get_grain m g = get_grain m h) → g = h.
Proof.
  intros Hm. destruct g, h.
  pose proof (Hm GAmount). pose proof (Hm GSize).
  pose proof (Hm GRoughness). clear Hm. simpl in *. by subst.
Qed.

Lemma default_adjustments_valid : valid_adjustments default_adjustments.
Proof.
  split; [| split; [| split]].
  - intros f. by destruct f.
  - intros m. by destruct m.
  - simpl. lia.
  - repeat constructor; discriminate.
Qed.

Lemma valid_point_in_range point pt :
  valid_point point = Some pt → point_in_range pt.
Proof.
  unfold valid_point.
  destruct (JS.prop "x" point) as [[x | | | | |] |]; try done.
  destruct (JS.prop "y" point) as [[y | | | | |] |]; try done.
  destruct (_ && _) eqn:Hin; [| done]. intros [= <-].
  rewrite !andb_true_iff, !Qle_bool_iff in Hin.
  unfold point_in_range, in_range; simpl. tauto.
Qed.

Lemma validate_curves_valid body c :
  validate_curves body = Some c →
  (2 ≤ length c)%nat ∧ Forall point_in_range c.
Proof.
  unfold validate_curves.
  destruct (body !! "curves") as [[| | | | points |] |]; try done.
  case_bool_decide as Hlen; [| done]. intros [= <-].
  split; [done |]. apply Forall_forall. intros pt Hpt.
  apply list_elem_of_omap in Hpt as (point & _ & Hpoint).
  by apply valid_point_in_range in Hpoint.
Qed.

Lemma putAdjustments_valid body t1 t2 p :
  valid_adjustments (adjustments p) →
  valid_adjustments (adjustments (putAdjustments body t1 t2 p)).
Proof.
  intros (Hpaths & Hgrain & Hlen & Hpoints). split; [| split].
  - intros f. rewrite putAdjustments_get.
    destruct (body !! key_of_path f) as [[v | | | | |] |]; try apply Hpaths.
    apply (clamp_spec v _ _ (schema_range_ordered f)).
  - intros m. rewrite putAdjustments_grain_member.
    destruct (body !! "grain") as [[| | | | | g] |]; try apply Hgrain.
    destruct (g !! grain_key m) as [[v | | | | |] |]; try apply Hgrain.
    by apply (clamp_spec v 0 100).
  - rewrite putAdjustments_curves.
    destruct (validate_curves body) as [c |] eqn:Hc; [| done].
    by apply validate_curves_valid in Hc.
Qed.

Lemma int_pattern_reads (T : string) :
  int_pattern T = true → parseInt T = StringToNumber T.
Proof.
  unfold int_pattern, parseInt, StringToNumber.
  destruct (split_sign (String.list_ascii_of_string T)) as [neg r] eqn:Hsplit.
  intros [Hall Hne%negb_true_iff%bool_decide_eq_false]%andb_true_iff.
  assert (digit_text r (value_of r)) as HD by done.
  rewrite (span_digits_digits r Hall).
  destruct (String.list_ascii_of_string T) as [| c l] eqn:Hl.
  { simpl in Hsplit. by injection Hsplit as _ <-. }
  unfold signed_decimal. rewrite Hsplit.
  rewrite (not_infinity r _ HD), (unsigned_decimal_digits r _ HD).
  destruct r as [| d r']; [done |].
  apply round_proper. change (10 ^ 0) with 1.
  destruct neg; [rewrite inject_Z_opp |]; ring.
Qed.

Lemma validated_text_cases (v : option Scalar) :
  validated_text v = ToString v ∨ validated_text v = "".
Proof. destruct v as [[[] | | |] |]; by (left + right). Qed.

Lemma isInt_min1_stored (v : option Scalar) :
  isInt_min1 (validated_text v) = true →
  F64.ge (parseInt (ToString v)) (F64.Finite 1) = true.
Proof.
  intros [Hpat Hge]%andb_true_iff.
  destruct (validated_text_cases v) as [E | E]; rewrite E in *; [| done].
  by rewrite int_pattern_reads.
Qed.

Lemma cropData_valid (c : CropRequest) (s : CropSettings) :
  crop_fields_valid c = true → cropData c = Some s → valid_crop s.
Proof.
  unfold crop_fields_valid. rewrite !andb_true_iff.
  intros [[[[[[_ _] Hw] Hh] _] _] _]. unfold cropData.
  destruct (_ || _); [done |].
  destruct (negb _) eqn:Hrot; [done |].
  destruct (flip_cast _); [| done]. destruct (flip_cast _); [| done].
  intros [= <-]. apply negb_false_iff, andb_true_iff in Hrot as [H1 H2].
  repeat split; simpl; try done; by apply isInt_min1_stored.
Qed.

Lemma addHistory_well_formed act chg t1 t2 p :
  valid_adjustments (adjustments p) →
  (∀ s, crop p = Some s → valid_crop s) →
  (0 ≤ version p)%Z →
  well_formed (addHistory act chg t1 t2 p).
Proof.
  intros Ha Hc Hv. split; [done |]. split; [done |]. split.
  - rewrite addHistory_history, slice_last_length. lia.
  - simpl. lia.
Qed.

Lemma serve_well_formed p r : well_formed p → well_formed (serve p r).
Proof.
  intros Hwf. pose proof Hwf as (Ha & Hc & Hh & Hv).
  destruct r as [body t1 t2 | c t1 t2 | t1 t2]; simpl.
  - unfold putAdjustments, applyAdjustments.
    apply addHistory_well_formed; simpl; [| done | lia].
    apply (putAdjustments_valid body t1 t2 p Ha).
  - destruct (putCrop c t1 t2 p) as [e | p'] eqn:Hput; [done |].
    apply putCrop_inr in Hput as (Hvalid & _ & s & Hs & ->).
    unfold applyCrop.
    apply addHistory_well_formed; simpl; [done | | lia].
    intros s' [= <-]. by apply (cropData_valid c).
  - unfold resetEdits. apply addHistory_well_formed; simpl; [| done | lia].
    apply default_adjustments_valid.
Qed.

Lemma serve_image p r :
  image (serve p r) = image p ∧ user (serve p r) = user p.
Proof.
  destruct r as [body t1 t2 | c t1 t2 | t1 t2]; simpl; [done | | done].
  destruct (putCrop c t1 t2 p) as [e | p'] eqn:Hput; [done |].
  by apply putCrop_inr in Hput as (_ & _ & s & _ & ->).
Qed.

(** X7. Every document the edit routes can produce from an upload is
    one the schema accepts: each numeric adjustment and grain member
    within its range, two or more curve points within the 8-bit square,
    a crop (if any) at least one pixel wide and high and rotated
    within [-180, 180], at most 50 history entries and a version of at
    least 1; and it still points at the uploaded image and its owner.
    That the crop lies within the image is no part of it: the bounds
    test compares texts when a measure is sent as a string. *)
Theorem served_documents_stay_valid (ttl descr owner : string)
    (img : Image) (tgs : list string)
    (created_at pushed_at edited_at : Time) (rs : list Request) :
  let p := serve_all (uploadProject ttl descr owner img tgs created_at
                        pushed_at edited_at) rs in
  well_formed p ∧ image p = img ∧ user p = owner.
Proof.
  cbv zeta. unfold serve_all.
  induction rs as [| r rs IH] using rev_ind; simpl.
  - split; [| done]. unfold uploadProject.
    apply addHistory_well_formed; simpl; [| done | lia].
    apply default_adjustments_valid.
  - rewrite foldl_app; simpl. destruct IH as (Hwf & Himg & Huser).
    destruct (serve_image (foldl serve (uploadProject ttl descr owner img
                  tgs created_at pushed_at edited_at) rs) r) as [Hi Hu].
    split; [by apply serve_well_formed |]. split; congruence.
Qed.

(** X8. Sending the same body twice stores what sending it once
    stores: the second request changes no adjustment. *)
Theorem same_body_twice (body : gmap string JS.Value)
    (t1 t2 t3 t4 : Time) (p : Project) :
  adjustments (putAdjustments body t3 t4 (putAdjustments body t1 t2 p))
  = adjustments (putAdjustments body t1 t2 p).
Proof.
  apply adjustments_ext.
  - intros f. rewrite !putAdjustments_get.
    by destruct (body !! key_of_path f) as [[] |].
  - apply grain_ext. intros m. rewrite !putAdjustments_grain_member.
    destruct (body !! "grain") as [[| | | | | g] |]; try done.
    by destruct (g !! grain_key m) as [[] |].
  - rewrite !putAdjustments_curves.
    by destruct (validate_curves body).
Qed.

(** X9. A body in which nothing can be accepted changes no adjustment,
    yet the request is answered as applied: the version goes up by one
    and the history gains an [adjust] entry with an empty patch. *)
Theorem empty_update_still_logged (body : gmap string JS.Value)
    (pushed_at edited_at : Time) (p : Project) :
  nothing_to_apply body →
  let p' := putAdjustments body pushed_at edited_at p in
  adjustments p' = adjustments p
  ∧ version p' = (version p + 1)%Z
  ∧ last (history p')
    = Some (mkEntry adjust
              (AdjustChanges (adjustments p) (mkPatch ∅ None None))
              pushed_at).
Proof.
  intros (Hnum & Hgrain & Hcurves) p'.
  assert (validate body (adjustments p) = mkPatch ∅ None None) as Hpatch.
  { unfold validate. f_equal.
    - apply map_eq. intros k. rewrite validate_numbers_lookup, lookup_empty.
      destruct (body !! k) as [value |] eqn:Hk; [| done]. simpl.
      unfold accepted_number. destruct value as [v | | | | |]; try done.
      destruct (path_of_key k) as [f |] eqn:Hf; [| done].
      apply path_of_key_Some in Hf as ->. by destruct (Hnum f v).
    - unfold validate_grain.
      destruct (body !! "grain") as [[| | | | | g] |] eqn:Hg; try done.
      by destruct (Hgrain g).
    - unfold validate_curves.
      destruct (body !! "curves") as [[| | | | pts |] |] eqn:Hc; try done.
      by destruct (Hcurves pts). }
  subst p'. unfold putAdjustments. rewrite Hpatch.
  split; [| split; [done |]].
  - unfold applyAdjustments, object_assign; simpl.
    by rewrite map_fold_empty.
  - unfold applyAdjustments. rewrite addHistory_history.
    apply slice_last_last. lia.
Qed.

Lemma empty_update_still_logged_witness :
  adjustments (putAdjustments ignored_body 2000%Z 2000%Z sample_project)
  = adjustments sample_project
  ∧ version (putAdjustments ignored_body 2000%Z 2000%Z sample_project) = 3%Z.
Proof.
  destruct (empty_update_still_logged ignored_body 2000%Z 2000%Z
              sample_project) as (Hsame & Hversion & _).
  - split; [| split].
    + intros f v. destruct f; discriminate.
    + intros g. discriminate.
    + intros pts. discriminate.
  - split; [exact Hsame | exact Hversion].
Defined.

(** ** The editor page: zoom and placement *)

Lemma min_cases a b :
  (a <= b ∧ JS.min a b = a) ∨ (b <= a ∧ JS.min a b = b).
Proof.
  unfold JS.min. destruct (Qle_bool a b) eqn:E.
  - left. by apply Qle_bool_iff in E.
  - right. split; [| done]. apply Qlt_le_weak, Qnot_le_lt.
    intros H%Qle_bool_iff. congruence.
Qed.

Lemma max_cases a b :
  (a <= b ∧ JS.max a b = b) ∨ (b <= a ∧ JS.max a b = a).
Proof.
  unfold JS.max. destruct (Qle_bool a b) eqn:E.
  - left. by apply Qle_bool_iff in E.
  - right. split; [| done]. apply Qlt_le_weak, Qnot_le_lt.
    intros H%Qle_bool_iff. congruence.
Qed.

Lemma press_in_range v b :
  25 <= zoom v <= 500 → 25 <= zoom (press v b) <= 500.
Proof.
  intros [Hlo Hhi]. destruct b; simpl.
  - destruct (min_cases (zoom v + 25) 500) as [[? ->] | [? ->]]; lra.
  - destruct (max_cases (zoom v - 25) 25) as [[? ->] | [? ->]]; lra.
  - lra.
Qed.

Lemma press_pan v b :
  pan_x v = 0 → pan_y v = 0 →
  pan_x (press v b) = 0 ∧ pan_y (press v b) = 0.
Proof. by destruct b. Qed.

(** X10. Whatever zoom buttons are pressed, the zoom stays between 25
    and 500 and the pan stays at the origin. *)
Theorem zoom_stays_in_range (bs : list ZoomButton) :
  let v := press_all initial_view bs in
  25 <= zoom v <= 500 ∧ pan_x v = 0 ∧ pan_y v = 0.
Proof.
  cbv zeta. unfold press_all.
  induction bs as [| b bs IH] using rev_ind; simpl.
  - split; [lra | done].
  - rewrite foldl_app; simpl. destruct IH as (Hz & Hx & Hy).
    split; [by apply press_in_range | by apply press_pan].
Qed.

(** X11. Zooming out undoes zooming in, and zooming in undoes zooming
    out, as long as neither hits its bound; at the bounds the zoom
    stays where it is. *)
Theorem zoom_in_and_out (v : ViewState) :
  (25 <= zoom v → zoom v <= 475 →
   zoom (handleZoomOut (handleZoomIn v)) == zoom v)
  ∧ (50 <= zoom v → zoom v <= 500 →
     zoom (handleZoomIn (handleZoomOut v)) == zoom v)
  ∧ (475 <= zoom v → zoom (handleZoomIn v) == 500)
  ∧ (zoom v <= 50 → zoom (handleZoomOut v) == 25).
Proof.
  unfold handleZoomIn, handleZoomOut; simpl. repeat split; intros.
  - destruct (min_cases (zoom v + 25) 500) as [[? ->] | [? ->]];
      [destruct (max_cases (zoom v + 25 - 25) 25) as [[? ->] | [? ->]]
      | destruct (max_cases (500 - 25) 25) as [[? ->] | [? ->]]]; lra.
  - destruct (max_cases (zoom v - 25) 25) as [[? ->] | [? ->]];
      [destruct (min_cases (25 + 25) 500) as [[? ->] | [? ->]]
      | destruct (min_cases (zoom v - 25 + 25) 500) as [[? ->] | [? ->]]];
      lra.
  - destruct (min_cases (zoom v + 25) 500) as [[? ->] | [? ->]]; lra.
  - destruct (max_cases (zoom v - 25) 25) as [[? ->] | [? ->]]; lra.
Qed.

Lemma zoom_in_and_out_witness :
  zoom (handleZoomOut (handleZoomIn initial_view)) == 100
  ∧ zoom (handleZoomIn (mkView 500 0 0)) == 500.
Proof.
  destruct (zoom_in_and_out initial_view) as (Hback & _ & _ & _).
  destruct (zoom_in_and_out (mkView 500 0 0)) as (_ & _ & Htop & _).
  split; [apply Hback | apply Htop]; discriminate.
Defined.

Lemma containerSize_pos client fallback :
  0 < fallback → (∀ v, client = Some v → 0 <= v) →
  0 < containerSize client fallback.
Proof.
  intros Hf Hc. unfold containerSize. destruct client as [v |]; [| done].
  destruct (Qeq_bool v 0) eqn:E; [done |].
  apply Qeq_bool_neq in E. specialize (Hc v eq_refl).
  apply Qle_lteq in Hc as [Hlt | Heq]; [done |].
  exfalso. apply E. by symmetry.
Qed.

(** The scale that fits: the lesser of the two ratios covers one side
    of the container and does not pass the other. *)
Lemma fit_scale cw ch w h :
  0 < cw → 0 < ch → 0 < w → 0 < h →
  let m := JS.min (cw / w) (ch / h) in
  0 <= m ∧ w * m <= cw ∧ h * m <= ch ∧ (w * m == cw ∨ h * m == ch).
Proof.
  intros Hcw Hch Hw Hh m.
  assert (w * (cw / w) == cw) as Ew by (field; lra).
  assert (h * (ch / h) == ch) as Eh by (field; lra).
  assert (0 <= cw / w) as Pw.
  { apply Qle_shift_div_l; [done | lra]. }
  assert (0 <= ch / h) as Ph.
  { apply Qle_shift_div_l; [done | lra]. }
  subst m. destruct (min_cases (cw / w) (ch / h)) as [[Hle ->] | [Hle ->]].
  - split; [done |]. split; [lra |]. split; [| by left].
    rewrite <- Eh. rewrite (Qmult_comm h), (Qmult_comm h (ch / h)).
    by apply Qmult_le_r.
  - split; [done |]. split; [| split; [lra | by right]].
    rewrite <- Ew. rewrite (Qmult_comm w), (Qmult_comm w (cw / w)).
    by apply Qmult_le_r.
Qed.



(** ** The editor page: changes to the adjustments *)

Lemma merge_numbers_lookup (prev new : gmap string JS.Value) k :
  map_fold merge_number prev new !! k
  = match new !! k with
    | Some (JS.Num v) => Some (JS.Num v)
    | _ => prev !! k
    end.
Proof.
  apply (map_fold_weak_ind
    (fun r m => r !! k = match m !! k with
                         | Some (JS.Num v) => Some (JS.Num v)
                         | _ => prev !! k
                         end)); [done |].
  intros i x m r Hi IH. unfold merge_number.
  destruct (decide (i = k)) as [-> | Hne].
  - rewrite lookup_insert_eq. rewrite Hi in IH.
    destruct x; by rewrite ?lookup_insert_eq.
  - rewrite lookup_insert_ne by done.
    destruct x; by rewrite ?lookup_insert_ne.
Qed.

(** X13. On a loaded project [handleAdjustmentsChange] takes over the
    members of the change that are numbers and nothing else; the page
    is marked unsaved either way.  A change without a number, such as
    the curve the tone-curve control sends, leaves the adjustments as
    they were. *)
Theorem only_numbers_reach_the_project (new prev : gmap string JS.Value)
    (unsaved : bool) :
  let st' := handleAdjustmentsChange new (mkEditor (Some prev) unsaved) in
  ∃ updated,
    loaded_adjustments st' = Some updated
    ∧ hasUnsavedChanges st' = true
    ∧ (∀ k, updated !! k = match new !! k with
                           | Some (JS.Num v) => Some (JS.Num v)
                           | _ => prev !! k
                           end)
    ∧ ((∀ k v, new !! k ≠ Some (JS.Num v)) → updated = prev).
Proof.
  eexists. split; [reflexivity |]. split; [reflexivity |]. split.
  - apply merge_numbers_lookup.
  - intros Hnone. apply map_eq. intros k. rewrite merge_numbers_lookup.
    destruct (new !! k) as [[v | | | | |] |] eqn:Hk; try done.
    by destruct (Hnone k v).
Qed.

Lemma only_numbers_reach_the_project_witness :
  loaded_adjustments
    (handleAdjustmentsChange (curve_patch [(0, 0); (128, 200); (255, 255)])
       (mkEditor (Some {[ "exposure" := JS.Num 1 ]}) false))
  = Some {[ "exposure" := JS.Num 1 ]}.
Proof.
  destruct (only_numbers_reach_the_project
              (curve_patch [(0, 0); (128, 200); (255, 255)])
              {[ "exposure" := JS.Num 1 ]} false)
    as (updated & Hloaded & _ & _ & Hsame).
  rewrite Hloaded. f_equal. apply Hsame.
  intros k v. unfold curve_patch.
  destruct (decide (k = "curves")) as [-> | Hne].
  - rewrite lookup_singleton_eq. discriminate.
  - rewrite lookup_singleton_ne by done. discriminate.
Defined.

(** ** Batches *)

Lemma mapM_app {A B} (f : A → option B) (l1 l2 : list A) :
  mapM f (l1 ++ l2)
  = match mapM f l1, mapM f l2 with
    | Some r1, Some r2 => Some (r1 ++ r2)
    | _, _ => None
    end.
Proof.
  induction l1 as [| x l1 IH]; simpl.
  - by destruct (mapM f l2).
  - destruct (f x); simpl; [| done]. rewrite IH.
    by destruct (mapM f l1), (mapM f l2).
Qed.

Lemma js_slice_batch {A} (items : list A) (n : nat) (b : Z) :
  (1 ≤ b)%Z → (n < length items)%nat →
  js_slice (Z.of_nat n) (Z.of_nat n + b) items
  = take (Z.to_nat b) (drop n items).
Proof.
  intros Hb Hn. unfold js_slice.
  rewrite !(proj2 (Z.ltb_ge _ 0)) by lia.
  rewrite (Z.min_l (Z.of_nat n)), Nat2Z.id by lia.
  destruct (decide (Z.of_nat n + b ≤ Z.of_nat (length items))%Z).
  - rewrite Z.min_l by lia. f_equal. lia.
  - rewrite Z.min_r by lia.
    rewrite !take_ge; [done | rewrite length_drop; lia ..].
Qed.

Lemma js_slice_backwards {A} (items : list A) (i b : Z) :
  (b ≤ 0)%Z → (i < 0 ∨ b = 0)%Z → js_slice i (i + b) items = [].
Proof.
  intros Hb Hi. unfold js_slice. cbv zeta.
  match goal with
  | |- take ?n _ = [] => replace n with 0%nat; [done |]
  end.
  destruct (Z.ltb_spec (i + b) 0), (Z.ltb_spec i 0); lia.
Qed.

Lemma processBatch_from_ends {T R} (processor : T → option R)
    (items : list T) (b : Z) (fuel q : nat) (results : list R) :
  (1 ≤ b)%Z →
  let B := Z.to_nat b in
  mapM processor (take (q * B) items) = Some results →
  (length items - q * B < fuel)%nat →
  match mapM processor items with
  | Some all =>
      processBatch_from processor items b fuel (Z.of_nat (q * B))
        (take (q * B) items) results
      = Some (items, Resolved all)
  | None =>
      ∃ q', (q ≤ q')%nat
            ∧ processBatch_from processor items b fuel (Z.of_nat (q * B))
                (take (q * B) items) results
              = Some (take ((q' + 1) * B) items, Rejected)
            ∧ is_Some (mapM processor (take (q' * B) items))
            ∧ mapM processor (take ((q' + 1) * B) items) = None
  end.
Proof.
  intros Hb B. revert q results.
  induction fuel as [| fuel IH]; intros q results Hdone Hfuel; [lia |].
  simpl. destruct (Z.ltb_spec (Z.of_nat (q * B)) (Z.of_nat (length items)))
    as [Hlt | Hge].
  - rewrite js_slice_batch by lia. fold B.
    assert (take (q * B) items ++ take B (drop (q * B) items)
            = take ((q + 1) * B) items) as Hstarted.
    { rewrite take_take_drop. f_equal. lia. }
    rewrite Hstarted.
    destruct (mapM processor (take B (drop (q * B) items)))
      as [rs |] eqn:Hbatch.
    + replace (Z.of_nat (q * B) + b)%Z with (Z.of_nat ((q + 1) * B))
        by lia.
      assert (mapM processor (take ((q + 1) * B) items)
              = Some (results ++ rs)) as Hnext.
      { by rewrite <- Hstarted, mapM_app, Hdone, Hbatch. }
      specialize (IH (q + 1)%nat (results ++ rs) Hnext).
      destruct (mapM processor items) as [all |].
      * apply IH. lia.
      * destruct IH as (q' & Hq' & Hrun & Hbefore & Hfail); [lia |].
        exists q'. split; [lia | done].
    + assert (mapM processor (take ((q + 1) * B) items) = None) as Hfail.
      { by rewrite <- Hstarted, mapM_app, Hdone, Hbatch. }
      destruct (mapM processor items) as [all |] eqn:Hall.
      * exfalso.
        rewrite <- (take_drop ((q + 1) * B) items), mapM_app, Hfail in Hall.
        done.
      * exists q. split; [lia |]. split; [done |]. split; [| done].
        by rewrite Hdone.
  - rewrite take_ge in * by lia. rewrite Hdone. done.
Qed.

(** X14. With a batch size of at least 1 [processBatch] ends.  If the
    processor succeeds on every item it was handed every item once, in
    order, and resolves with their results in the order of the items.
    If it fails on some item the promise rejects: the batches before
    the first one with a failure were processed in full, that batch
    was handed over whole, and no later item is processed. *)
Theorem processBatch_covers_items {T R} (processor : T → option R)
    (items : list T) (batchSize : Z) (fuel : nat) :
  (1 ≤ batchSize)%Z → (length items < fuel)%nat →
  match mapM processor items with
  | Some all =>
      processBatch processor items batchSize fuel
      = Some (items, Resolved all)
  | None =>
      ∃ batches : nat,
        let size := Z.to_nat batchSize in
        processBatch processor items batchSize fuel
        = Some (take ((batches + 1) * size) items, Rejected)
        ∧ is_Some (mapM processor (take (batches * size) items))
        ∧ mapM processor (take ((batches + 1) * size) items) = None
  end.
Proof.
  intros Hb Hfuel. unfold processBatch.
  pose proof (processBatch_from_ends processor items batchSize fuel 0 []
                Hb eq_refl) as Hends.
  simpl in Hends. destruct (mapM processor items) as [all |].
  - apply Hends. lia.
  - destruct Hends as (q & _ & Hrun & Hbefore & Hfail); [lia |].
    by exists q.
Qed.

Lemma processBatch_covers_items_witness :
  processBatch double_but_seven [1; 2; 3; 4]%Z 3 5
  = Some ([1; 2; 3; 4]%Z, Resolved [2; 4; 6; 8]%Z)
  ∧ ∃ batches : nat,
      processBatch double_but_seven [1; 2; 7; 4; 5; 6; 8]%Z 2 8
      = Some (take ((batches + 1) * 2) [1; 2; 7; 4; 5; 6; 8]%Z, Rejected).
Proof.
  split.
  - apply (processBatch_covers_items double_but_seven [1; 2; 3; 4]%Z 3 5);
      [lia | simpl; lia].
  - destruct (processBatch_covers_items double_but_seven
                [1; 2; 7; 4; 5; 6; 8]%Z 2 8) as (batches & Hrun & _);
      [lia | simpl; lia |].
    by exists batches.
Defined.

Lemma processBatch_from_spins {T R} (processor : T → option R)
    (items : list T) (b : Z) (fuel : nat) (i : Z) (started : list T)
    (results : list R) :
  (b ≤ 0)%Z → (i ≤ 0)%Z → (i < 0 ∨ b = 0)%Z → items ≠ [] →
  processBatch_from processor items b fuel i started results = None.
Proof.
  intros Hb Hi Hstuck Hitems. revert i started results Hi Hstuck.
  induction fuel as [| fuel IH]; intros i started results Hi Hstuck;
    [done |].
  simpl. destruct (Z.ltb_spec i (Z.of_nat (length items))) as [_ | Hge].
  - rewrite js_slice_backwards by done. simpl. apply IH; lia.
  - destruct items; [done | simpl in Hge; lia].
Qed.

(** X15. With a batch size of 0 and at least one item [processBatch]
    never settles: every round takes an empty batch and the index does
    not advance, however many rounds are run.  With a negative batch
    size it never resolves either: the first round takes
    [items.slice(0, batchSize)], and unless that batch fails the loop
    goes on for ever on empty batches. *)
Theorem processBatch_never_resolves {T R} (processor : T → option R)
    (items : list T) (batchSize : Z) (fuel : nat) :
  (batchSize ≤ 0)%Z → items ≠ [] →
  (batchSize = 0%Z → processBatch processor items batchSize fuel = None)
  ∧ (processBatch processor items batchSize fuel = None
     ∨ processBatch processor items batchSize fuel
       = Some (js_slice 0 batchSize items, Rejected)).
Proof.
  intros Hb Hitems. unfold processBatch. split.
  - intros ->. apply processBatch_from_spins; (done || lia).
  - destruct fuel as [| fuel]; [by left |]. simpl.
    destruct (Z.ltb_spec 0 (Z.of_nat (length items))) as [_ | Hge];
      [| destruct items; [done | simpl in Hge; lia]].
    rewrite Z.add_0_l.
    destruct (mapM processor (js_slice 0 batchSize items)); [| by right].
    left. destruct (decide (batchSize = 0%Z)) as [-> | Hneg].
    + apply processBatch_from_spins; (done || lia).
    + apply processBatch_from_spins; (done || lia).
Qed.

Lemma processBatch_never_resolves_witness :
  processBatch double_but_seven [1; 2; 3]%Z 0 1000 = None
  ∧ processBatch double_but_seven [1; 7; 3]%Z (-1) 1000
    = Some ([1; 7]%Z, Rejected).
Proof.
  destruct (processBatch_never_resolves double_but_seven [1; 2; 3]%Z 0
              1000) as [Hzero _]; [lia | discriminate |].
  split; [by apply Hzero |].
  destruct (processBatch_never_resolves double_but_seven [1; 7; 3]%Z (-1)
              1000) as [_ [Hnone | Hrejected]]; [lia | discriminate | |].
  - discriminate Hnone.
  - exact Hrejected.
Defined.

(** ** The routes: ownership and storage *)

Lemma findOne_Some db id uid p :
  findOne db id uid = Some p ↔ projects db !! id = Some p ∧ user p = uid.
Proof.
  unfold findOne. destruct (projects db !! id) as [q |];
    [| split; [done | by intros [? _]]].
  case_decide as Hq; split.
  - by intros [= <-].
  - by intros [[= <-] _].
  - done.
  - by intros [[= <-] ?].
Qed.



Lemma sum_sizes_perm l1 l2 : l1 ≡ₚ l2 → sum_sizes l1 == sum_sizes l2.
Proof.
  induction 1 as [| x l1 l2 _ IH | x y l | l1 l2 l3 _ IH1 _ IH2]; simpl.
  - reflexivity.
  - by rewrite IH.
  - ring.
  - by rewrite IH1.
Qed.

Lemma usage_total db uid :
  totalSize (getUserStorageUsage db uid)
  == sum_sizes (owned_sizes uid (projects db))
  ∧ projectCount (getUserStorageUsage db uid)
    = length (owned_sizes uid (projects db)).
Proof.
  unfold getUserStorageUsage.
  by destruct (owned_sizes uid (projects db)).
Qed.

Lemma owned_sizes_insert uid id p (ps : gmap string Project) :
  ps !! id = None →
  owned_sizes uid (<[id := p]> ps)
  ≡ₚ (if decide (user p = uid) then [file_size (image p)] else [])
     ++ owned_sizes uid ps.
Proof.
  intros Hfresh. unfold owned_sizes.
  rewrite (map_to_list_insert ps id p Hfresh). simpl.
  rewrite filter_cons. by case_decide.
Qed.

Lemma owned_sizes_delete uid id p (ps : gmap string Project) :
  ps !! id = Some p →
  owned_sizes uid ps
  ≡ₚ (if decide (user p = uid) then [file_size (image p)] else [])
     ++ owned_sizes uid (delete id ps).
Proof.
  intros Hp. rewrite <- (insert_delete_id ps id p Hp) at 1.
  apply owned_sizes_insert, lookup_delete_eq.
Qed.

(** X17. A successful delete removes the project and credits its owner
    with the size of its image: if the owner was charged with exactly
    what their projects took, they still are, with one project less. *)
Theorem delete_keeps_storage_accounted (db db' : Database)
    (uid id : string) :
  routeDelete db uid id = inr db' →
  accounted db uid →
  accounted db' uid
  ∧ S (projectCount (getUserStorageUsage db' uid))
    = projectCount (getUserStorageUsage db uid)
  ∧ ∃ p u u', projects db !! id = Some p ∧ users db !! uid = Some u
              ∧ users db' !! uid = Some u'
              ∧ storageUsed u' == storageUsed u - file_size (image p)
              ∧ storageLimit u' = storageLimit u.
Proof.
  unfold routeDelete. destruct (findOne db id uid) as [p |] eqn:Hfound;
    [| done].
  intros [= <-] (u & Hu & Hacc). apply findOne_Some in Hfound as [Hp Howner].
  destruct (usage_total db uid) as [Htot Hcount].
  pose proof (owned_sizes_delete uid id p (projects db) Hp) as Hperm.
  rewrite decide_True in Hperm by done.
  set (db' := mkDb _ _).
  destruct (usage_total db' uid) as [Htot' Hcount'].
  assert (users db' !! uid
          = Some (mkUser (storageUsed u + - file_size (image p))
                    (storageLimit u))) as Hu'.
  { subst db'. simpl. by rewrite lookup_alter_eq, Hu. }
  split; [| split].
  - eexists. split; [exact Hu' |]. simpl.
    rewrite Htot'. subst db'; simpl.
    rewrite Hacc, Htot, (sum_sizes_perm _ _ Hperm). simpl. ring.
  - rewrite Hcount, Hcount'. subst db'; simpl.
    by rewrite (Permutation_length Hperm).
  - do 3 eexists. split; [exact Hp |]. split; [exact Hu |].
    split; [exact Hu' |]. simpl. split; [ring | done].
Qed.

Lemma delete_keeps_storage_accounted_witness :
  ∃ db', routeDelete sample_db "user-1" "project-1" = inr db'
         ∧ accounted db' "user-1".
Proof.
  eexists. split; [reflexivity |].
  apply (delete_keeps_storage_accounted sample_db _ "user-1" "project-1");
    [reflexivity |].
  eexists. split; reflexivity.
Defined.

(** X18. An upload is refused with 413 exactly when a file came, its
    user exists and the file would take the user past the limit,
    whether or not the image can be read.  A successful upload under a
    new id charges the user with the size of the file and keeps them
    within the limit; if they were charged with exactly what their
    projects took, they still are, with one project more.  The new
    project belongs to the user, has default adjustments, no crop,
    version 2 and a history of one upload entry. *)
Theorem upload_keeps_storage_accounted (db : Database) (uid : string)
    (file : option UploadedFile) (ttl descr : string) (tgs : list string)
    (probe : Probe) (id : string)
    (created_at pushed_at edited_at : Time) :
  let answer := routeUpload db uid file ttl descr tgs probe id created_at
                  pushed_at edited_at in
  (answer = inl StorageExceeded
   ↔ ∃ f u, file = Some f ∧ users db !! uid = Some u
            ∧ storageLimit u < storageUsed u + upload_size f)
  ∧ (∀ db', answer = inr db' → projects db !! id = None →
       ∃ f u u' p,
         file = Some f ∧ users db !! uid = Some u
         ∧ users db' !! uid = Some u'
         ∧ storageUsed u' == storageUsed u + upload_size f
         ∧ storageUsed u' <= storageLimit u'
         ∧ projects db' !! id = Some p
         ∧ user p = uid ∧ adjustments p = default_adjustments
         ∧ crop p = None ∧ version p = 2%Z
         ∧ action <$> history p = [upload]
         ∧ file_size (image p) = upload_size f
         ∧ (accounted db uid → accounted db' uid)
         ∧ projectCount (getUserStorageUsage db' uid)
           = S (projectCount (getUserStorageUsage db uid))).
Proof.
  cbv zeta. unfold routeUpload. split.
  - destruct file as [f |];
      [| split; [done | by intros (? & ? & ? & _)]].
    destruct (users db !! uid) as [u |];
      [| split; [done | by intros (? & ? & _ & ? & _)]].
    destruct (JS.gt _ _) eqn:Hgt.
    + split; [| done]. intros _. exists f, u. repeat split.
      by apply lt_true in Hgt.
    + split; [by destruct (probe_metadata probe) |].
      intros (f' & u' & [= <-] & [= <-] & Hlt).
      apply lt_true in Hlt. unfold JS.gt in Hgt. congruence.
  - intros db'. destruct file as [f |]; [| done].
    destruct (users db !! uid) as [u |] eqn:Hu; [| done].
    destruct (JS.gt _ _) eqn:Hgt; [done |].
    destruct (probe_metadata probe) as [meta |]; [| done].
    intros [= <-] Hfresh.
    set (p := uploadProject _ _ _ _ _ _ _ _).
    set (db' := inc_storage _ _ _).
    assert (users db' !! uid
            = Some (mkUser (storageUsed u + upload_size f)
                      (storageLimit u))) as Hu'.
    { subst db'. simpl. by rewrite lookup_alter_eq, Hu. }
    destruct (usage_total db uid) as [Htot Hcount].
    destruct (usage_total db' uid) as [Htot' Hcount'].
    pose proof (owned_sizes_insert uid id p (projects db) Hfresh) as Hperm.
    rewrite decide_True in Hperm by done.
    exists f, u,
      (mkUser (storageUsed u + upload_size f) (storageLimit u)), p.
    split; [done |]. split; [done |].
    split; [exact Hu' |]. simpl. split; [reflexivity |].
    split; [by apply lt_false in Hgt |].
    split; [subst db'; simpl; apply lookup_insert_eq |].
    do 6 (split; [done |]). split.
    + intros (u0 & Hu0 & Hacc). rewrite Hu in Hu0. injection Hu0 as <-.
      eexists. split; [exact Hu' |]. simpl. rewrite Htot'.
      subst db'; simpl. rewrite (sum_sizes_perm _ _ Hperm). simpl.
      rewrite Hacc, Htot. ring.
    + rewrite Hcount, Hcount'. subst db'; simpl.
      by rewrite (Permutation_length Hperm).
Qed.

Lemma upload_keeps_storage_accounted_witness :
  ∃ db', routeUpload sample_db "user-1" (Some sample_file) "dunes" ""
           ["sand"] sample_probe "project-2" 5000%Z 5000%Z 5000%Z
         = inr db'
         ∧ accounted db' "user-1".
Proof.
  destruct (upload_keeps_storage_accounted sample_db "user-1"
              (Some sample_file) "dunes" "" ["sand"] sample_probe
              "project-2" 5000%Z 5000%Z 5000%Z) as [_ Hok].
  eexists. split; [reflexivity |].
  destruct (Hok _ eq_refl eq_refl)
    as (f & u & u' & p & _ & _ & _ & _ & _ & _ & _ & _ & _ & _ & _ & _
        & Hacc & _).
  apply Hacc. eexists. split; reflexivity.
Defined.

(** X19. The batch route takes one file at most: the multer instance
    it shares with the single upload is limited to one file, so a
    request with two files or more is refused before the handler runs.
    A request that succeeds held one file, which could be read: the
    user is charged with its size and stays within the limit, and a
    user who was charged with exactly what their projects took still
    is, with one project more.  A single file that cannot be read
    creates nothing and is not charged. *)
Theorem batch_upload_takes_one_file (db : Database) (uid : string)
    (items : list BatchItem) :
  ((2 ≤ length items)%nat → routeUploadBatch db uid items = inl TooManyFiles)
  ∧ (∀ db', routeUploadBatch db uid items = inr db' →
       ∃ it u u',
         items = [it] ∧ readable it = true
         ∧ users db !! uid = Some u ∧ users db' !! uid = Some u'
         ∧ storageUsed u' == storageUsed u + item_size it
         ∧ storageUsed u' <= storageLimit u'
         ∧ (projects db !! item_id it = None →
            (accounted db uid → accounted db' uid)
            ∧ projectCount (getUserStorageUsage db' uid)
              = S (projectCount (getUserStorageUsage db uid))))
  ∧ (∀ it u, items = [it] → readable it = false →
       users db !! uid = Some u →
       storageUsed u + item_size it <= storageLimit u →
       routeUploadBatch db uid items = inl NoImagesProcessed).
Proof.
  unfold routeUploadBatch, files_limit. split; [| split].
  - intros Hlen. by rewrite bool_decide_eq_true_2 by lia.
  - intros db'. case_bool_decide as Hmany; [done |].
    destruct items as [| it [| it' items]]; [done | | simpl in Hmany; lia].
    destruct (users db !! uid) as [u |] eqn:Hu; [| done].
    destruct (JS.gt _ _) eqn:Hgt; [done |].
    case_bool_decide as Hnone; [done |]. intros [= <-].
    assert (batch_total [it] == item_size it) as Htotal
      by (unfold batch_total, item_size; simpl; ring).
    unfold readable in Hnone |- *. simpl in Hnone.
    destruct (probe_metadata (item_probe it)) as [meta |] eqn:Hmeta.
    2: { exfalso. apply Hnone. rewrite bool_decide_eq_false_2; [done |].
         by intros [? ?]. }
    set (db' := inc_storage _ _ _).
    assert (users db' !! uid
            = Some (mkUser (storageUsed u + batch_total [it])
                      (storageLimit u))) as Hu'.
    { subst db'. simpl. by rewrite lookup_alter_eq, Hu. }
    exists it, u,
      (mkUser (storageUsed u + batch_total [it]) (storageLimit u)).
    split; [done |].
    split; [by rewrite Hmeta, bool_decide_eq_true_2 |].
    split; [done |]. split; [exact Hu' |]. cbn [storageUsed storageLimit].
    split; [by rewrite Htotal |].
    split; [by apply lt_false in Hgt |].
    intros Hfresh.
    destruct (usage_total db uid) as [Htot Hcount].
    destruct (usage_total db' uid) as [Htot' Hcount'].
    assert (projects db'
            = <[item_id it :=
                  uploadProject (item_title it) "" uid
                    (image_of (item_file it) meta
                       (probe_thumbnail (item_probe it))
                       (probe_preview (item_probe it)))
                    [] (item_created_at it) (item_pushed_at it)
                    (item_edited_at it)]> (projects db)) as Hps.
    { subst db'. simpl. unfold save_item. by rewrite Hmeta. }
    pose proof (owned_sizes_insert uid (item_id it)
                  (uploadProject (item_title it) "" uid
                     (image_of (item_file it) meta
                        (probe_thumbnail (item_probe it))
                        (probe_preview (item_probe it)))
                     [] (item_created_at it) (item_pushed_at it)
                     (item_edited_at it))
                  (projects db) Hfresh) as Hperm.
    rewrite decide_True in Hperm by done. rewrite <- Hps in Hperm.
    split.
    + intros (u0 & Hu0 & Hacc). rewrite Hu in Hu0. injection Hu0 as <-.
      eexists. split; [exact Hu' |]. cbn [storageUsed].
      rewrite Htot', (sum_sizes_perm _ _ Hperm). simpl.
      rewrite Htotal, Hacc, Htot. unfold item_size. ring.
    + rewrite Hcount, Hcount'. by rewrite (Permutation_length Hperm).
  - intros it u -> Hbroken Hu Hfits. simpl. rewrite Hu.
    assert (JS.gt (storageUsed u + batch_total [it]) (storageLimit u)
            = false) as ->.
    { apply lt_false. eapply Qle_trans; [| exact Hfits].
      unfold batch_total, item_size; simpl. lra. }
    rewrite bool_decide_eq_true_2; [done |].
    simpl. by rewrite Hbroken.
Qed.

Lemma batch_upload_takes_one_file_witness :
  routeUploadBatch sample_db "user-1" [sample_item; broken_item]
  = inl TooManyFiles
  ∧ (∃ db', routeUploadBatch sample_db "user-1" [sample_item] = inr db'
            ∧ accounted db' "user-1")
  ∧ routeUploadBatch sample_db "user-1" [broken_item]
    = inl NoImagesProcessed.
Proof.
  split; [| split].
  - destruct (batch_upload_takes_one_file sample_db "user-1"
                [sample_item; broken_item]) as (Hmany & _).
    apply Hmany. simpl. lia.
  - destruct (batch_upload_takes_one_file sample_db "user-1" [sample_item])
      as (_ & Hone & _).
    eexists. split; [reflexivity |].
    destruct (Hone _ eq_refl)
      as (it & u & u' & [= <-] & _ & _ & _ & _ & _ & Hfresh).
    destruct (Hfresh eq_refl) as [Hacc _].
    apply Hacc. eexists. split; reflexivity.
  - destruct (batch_upload_takes_one_file sample_db "user-1" [broken_item])
      as (_ & _ & Hbroken).
    apply (Hbroken broken_item (mkUser 204800 1000000));
      [reflexivity .. | discriminate].
Defined.

(** ** Paging *)

Lemma pages_count (n L : Z) :
  (0 ≤ n)%Z → (1 ≤ L)%Z →
  let k := Qceiling (inject_Z n / inject_Z L) in
  (n ≤ k * L)%Z ∧ ((k - 1) * L < n)%Z.
Proof.
  intros Hn HL k.
  assert (0 < inject_Z L) as HLq.
  { change 0 with (inject_Z 0). rewrite <- Zlt_Qlt. lia. }
  assert (inject_Z n / inject_Z L * inject_Z L == inject_Z n) as Hdiv.
  { field. lra. }
  split.
  - rewrite Zle_Qle, inject_Z_mult. rewrite <- Hdiv.
    apply Qmult_le_r; [done |]. apply Qle_ceiling.
  - rewrite Zlt_Qlt, inject_Z_mult. rewrite <- Hdiv.
    apply Qmult_lt_r; [done |]. apply Qceiling_lt.
Qed.

Lemma pages_concat {A} (l : list A) (L n : nat) :
  concat ((fun k => take L (drop ((k - 1) * L) l)) <$> seq 1 n)
  = take (n * L) l.
Proof.
  induction n as [| n IH]; [done |].
  replace (seq 1 (S n)) with (seq 1 n ++ [S n])
    by (by rewrite <- seq_S).
  rewrite fmap_app, concat_app, IH. simpl. rewrite app_nil_r.
  replace (n - 0)%nat with n by lia.
  rewrite take_take_drop. f_equal. lia.
Qed.

(** X20. With a limit from 1 to 50 (20 when none is given) the listing
    route serves every page from 1 on: a page holds at most [limit]
    projects, it is empty exactly when its number is past the [pages]
    the route reports, and pages 1 to [pages] put end to end are the
    whole result, each project once and in order. *)
Theorem listing_pages_partition (matching : list Project)
    (limit : option Z) :
  optional_int_in 1 (Some 50%Z) limit = true →
  let L := int_or limit 20 in
  let n := Qceiling (inject_Z (Z.of_nat (length matching)) / inject_Z L) in
  (1 ≤ L ≤ 50)%Z
  ∧ (∀ page, (1 ≤ page)%Z →
       ∃ items,
         listProjects matching (Some page) limit
         = inr (items,
                mkPagination page n (Z.of_nat (length matching)) L)
         ∧ (Z.of_nat (length items) ≤ L)%Z
         ∧ (items = [] ↔ (n < page)%Z))
  ∧ concat (page_of matching limit <$> (Z.of_nat <$> seq 1 (Z.to_nat n)))
    = matching.
Proof.
  intros Hlimit L n.
  assert (1 ≤ L ≤ 50)%Z as HL.
  { subst L. unfold int_or, optional_int_in in *.
    destruct limit as [v |]; [| lia].
    apply andb_true_iff in Hlimit as [?%bool_decide_eq_true
                                        ?%bool_decide_eq_true].
    case_decide; lia. }
  destruct (pages_count (Z.of_nat (length matching)) L) as [Hcover Hlast];
    [lia .. |]. fold n in Hcover, Hlast.
  assert (∀ page, (1 ≤ page)%Z →
    listProjects matching (Some page) limit
    = inr (take (Z.to_nat L)
             (drop (Z.to_nat ((page - 1) * L)) matching),
           mkPagination page n (Z.of_nat (length matching)) L))
    as Hserved.
  { intros page Hpage. unfold listProjects. rewrite Hlimit. simpl.
    rewrite bool_decide_eq_true_2 by done. simpl.
    unfold int_or at 1 2. rewrite decide_False by lia. done. }
  split; [done |]. split.
  - intros page Hpage. eexists. split; [by apply Hserved |]. split.
    + rewrite length_take. lia.
    + rewrite <- length_zero_iff_nil, length_take, length_drop. nia.
  - assert (0 ≤ n)%Z as Hn by nia.
    rewrite <- list_fmap_compose.
    rewrite (list_fmap_ext (page_of matching limit ∘ Z.of_nat)
               (fun k => take (Z.to_nat L)
                           (drop ((k - 1) * Z.to_nat L) matching))).
    + rewrite pages_concat. apply take_ge. nia.
    + intros i k Hk. apply lookup_seq in Hk as [-> _]. simpl.
      unfold page_of. rewrite Hserved by lia. f_equal. f_equal. nia.
Qed.

Lemma listing_pages_partition_witness :
  concat (page_of (replicate 45 sample_project) (Some 20%Z)
          <$> [1; 2; 3]%Z)
  = replicate 45 sample_project.
Proof.
  destruct (listing_pages_partition (replicate 45 sample_project)
              (Some 20%Z) eq_refl) as (_ & _ & Hall).
  exact Hall.
Defined.

(** ** Keyboard shortcuts *)

(** X21. A shortcut runs only for a key event whose Command (meta) key
    is held exactly when the shortcut declares [meta], and then only
    if it declares [ctrl] as well: a shortcut that declares no [meta]
    never runs while the Command key is held, though the control test
    admits that key.  Nothing runs while the hook is disabled or the
    event comes from an input, a text area, a select or an editable
    element. *)
Theorem shortcut_needs_matching_meta (toLowerCase : string → string)
    {Act : Type} (shortcuts : list (ShortcutAction Act))
    (enabled : bool) (event : KeyEvent) :
  (∀ act prevent,
     handleKeyPress toLowerCase shortcuts enabled event
     = Some (act, prevent) →
     enabled = true
     ∧ (toLowerCase (target_tagName event)
        ∉ ["input"; "textarea"; "select"])
     ∧ target_contentEditable event ≠ "true"
     ∧ ∃ shortcut : ShortcutAction Act,
         shortcut ∈ shortcuts ∧ shortcut_action shortcut = act
         ∧ truthy (meta shortcut) = metaKey event
         ∧ (metaKey event = true → truthy (ctrl shortcut) = true)
         ∧ toLowerCase (key shortcut) = toLowerCase (event_key event))
  ∧ (metaKey event = true →
     Forall (fun shortcut : ShortcutAction Act =>
               truthy (meta shortcut) = false) shortcuts →
     handleKeyPress toLowerCase shortcuts enabled event = None).
Proof.
  assert (∀ shortcut : ShortcutAction Act,
            matches toLowerCase event shortcut = true →
            truthy (meta shortcut) = metaKey event
            ∧ (metaKey event = true → truthy (ctrl shortcut) = true)
            ∧ toLowerCase (key shortcut) = toLowerCase (event_key event))
    as Hmatch.
  { intros shortcut. unfold matches.
    rewrite !andb_true_iff, bool_decide_eq_true, !eqb_true_iff.
    intros ((((Hkey & Hctrl) & _) & _) & Hmeta).
    split; [done |]. split; [| done].
    intros Hheld. rewrite Hctrl, Hheld. apply orb_true_r. }
  split.
  - intros act prevent. unfold handleKeyPress.
    destruct enabled; simpl; [| done].
    destruct (bool_decide (_ ∈ _)) eqn:Htag; simpl; [done |].
    destruct (bool_decide (_ = "true")) eqn:Hedit; simpl; [done |].
    destruct (List.find _ shortcuts) as [shortcut |] eqn:Hfind; [| done].
    intros [= <- <-]. apply find_some in Hfind as [Hin Hm].
    apply bool_decide_eq_false in Htag, Hedit.
    split; [done |]. split; [done |]. split; [done |].
    exists shortcut. split; [by apply list_elem_of_In |].
    split; [done |]. by apply Hmatch.
  - intros Hheld Hnone. unfold handleKeyPress.
    destruct (negb enabled); [done |]. destruct (_ || _); [done |].
    destruct (List.find _ shortcuts) as [shortcut |] eqn:Hfind; [| done].
    exfalso. apply find_some in Hfind as [Hin Hm].
    apply Hmatch in Hm as (Hmeta & _ & _).
    rewrite Forall_forall in Hnone.
    apply list_elem_of_In, Hnone in Hin. congruence.
Qed.

Lemma shortcut_needs_matching_meta_witness :
  handleKeyPress id [save_shortcut] true command_s = None
  ∧ (handleKeyPress id [save_shortcut] true control_s
     = Some ("save", true)
     ∧ ∃ shortcut : ShortcutAction string,
         shortcut ∈ [save_shortcut]
         ∧ truthy (meta shortcut) = metaKey control_s).
Proof.
  destruct (shortcut_needs_matching_meta id [save_shortcut] true command_s)
    as [_ Hheld].
  destruct (shortcut_needs_matching_meta id [save_shortcut] true control_s)
    as [Hran _].
  split; [apply Hheld; [reflexivity | repeat constructor] |].
  split; [reflexivity |].
  destruct (Hran "save" true eq_refl)
    as (_ & _ & _ & shortcut & Hin & _ & Hmeta & _).
  by exists shortcut.
Defined.

(** ** Stored adjustments and the preview *)

(** X22. For adjustments the schema accepts, and so for every document
    the edit routes store, the preview asks the browser for brightness,
    contrast and saturation between 0 and 200 percent and for a hue
    rotation between -10 and 10 degrees. *)
Theorem stored_adjustments_give_valid_filters (a : Adjustments) :
  valid_adjustments a → Forall filter_in_range (filter_chain a).
Proof.
  intros (Hpaths & _).
  pose proof (Hpaths Exposure) as [He1 He2].
  pose proof (Hpaths Contrast) as [Hc1 Hc2].
  pose proof (Hpaths Saturation) as [Hs1 Hs2].
  pose proof (Hpaths Temperature) as [Ht1 Ht2].
  simpl in *.
  unfold filter_chain, exposure_stage, contrast_stage, saturation_stage,
    temperature_stage.
  repeat apply Forall_app_2;
    match goal with
    | |- Forall _ (if ?b then _ else _) => destruct b
    end; repeat constructor; simpl; lra.
Qed.

Lemma stored_adjustments_give_valid_filters_witness :
  Forall filter_in_range
    (filter_chain
       (adjustments
          (putAdjustments sample_body 2000%Z 2000%Z sample_project))).
Proof.
  apply stored_adjustments_give_valid_filters.
  apply putAdjustments_valid, default_adjustments_valid.
Defined.
